(** * The One Piece generator backend: project/job event relay

    A shallow embedding of the Express backend (the server module with
    [emitToProject], [generateOnePieceVariations], the POST /api/generate
    handler and its [onProject] / [onJob] / [detach] closures), followed by
    the properties of the relay that the specification states.

    JavaScript values are modelled as follows.
    - [Map] objects keyed by project id are [gmap string _].
    - A [Set] of response objects is a duplicate-free list in insertion
      order (the order [forEach] visits it).
    - Numbers that are counts, indexes, percentages and milliseconds are
      [nat] or [Z]; the provider's raw progress value is a finite double,
      given by its exact value, a rational [Q]; the product of two doubles
      is the double nearest to the exact product ([JS.mul]).
    - Exceptions are explicit: [Outcome] is a state-and-exception monad.
    - The event loop is explicit: the environment feeds [Input]s (HTTP
      requests, provider events, settled promises, timer firings, elapsed
      time) to a total [step] function. *)

From Stdlib Require Import ZArith QArith Qround String Ascii List Lia Lqa.
From stdpp Require Import gmap strings list fin_maps pretty.

Local Open Scope Z_scope.

(** ** JavaScript helpers *)

Module JS.

(** Truthiness of a string: only the empty string is falsy. *)
Definition truthy (s : string) : bool :=
  match s with
  | EmptyString => false
  | String _ _ => true
  end.

(** [arr[i]]: reading past the end yields [undefined], which a template
    literal prints as the word. *)
Definition index (arr : list string) (i : nat) : string :=
  nth i arr "undefined"%string.

(** [arr.push(x)]. *)
Definition push {A} (arr : list A) (x : A) : list A := arr ++ [x].

(** [arr.map((x, i) => f x i)]. *)
Fixpoint mapi_from {A B} (f : A → nat → B) (i : nat) (arr : list A) : list B :=
  match arr with
  | [] => []
  | x :: rest => f x i :: mapi_from f (S i) rest
  end.

Definition mapi {A B} (f : A → nat → B) (arr : list A) : list B :=
  mapi_from f 0 arr.

(** [Math.round]: the nearest integer, halves going up. *)
Definition Math_round (x : Q) : Z := Qfloor (x + (1 # 2)).

(** Doubles (IEEE 754 binary64) by their exact values. [pow2 e] is 2 to
    the [e], [ilog2 q] the exponent of the power of two at or below a
    positive [q]. *)
Definition pow2 (e : Z) : Q :=
  if 0 <=? e then inject_Z (2 ^ e) else 1 # Z.to_pos (2 ^ (- e)).

Definition ilog2 (q : Q) : Z :=
  let e := Z.log2 (Qnum q) - Z.log2 (Zpos (Qden q)) in
  if Qle_bool (pow2 e) q then e else e - 1.

(** The nearest integer, a half going to the even neighbour. *)
Definition round_half_even (q : Q) : Z :=
  let f := Qfloor q in
  match Qcompare (q - inject_Z f) (1 # 2) with
  | Lt => f
  | Gt => f + 1
  | Eq => if Z.even f then f else f + 1
  end.

(** The exponent of the unit in the last place of the doubles around a
    positive [q]: 53 significant bits, and nothing finer than 2 to the
    -1074, the spacing of the subnormal numbers. *)
Definition ulp_exponent (q : Q) : Z := Z.max (ilog2 q - 52) (-1074).

(** The double nearest to [q], ties to even, for [q] below the overflow
    threshold. *)
Definition to_double (q : Q) : Q :=
  match Qcompare q 0 with
  | Eq => 0
  | Gt => let p := ulp_exponent q in
          (inject_Z (round_half_even (q / pow2 p)) * pow2 p)%Q
  | Lt => let p := ulp_exponent (- q) in
          (- (inject_Z (round_half_even (- q / pow2 p)) * pow2 p))%Q
  end.

(** [x * y] on doubles. *)
Definition mul (x y : Q) : Q := to_double (x * y).

End JS.

(** ** Prompt variations *)

Definition default_characters : list string :=
  [ "Monkey D. Luffy"; "Roronoa Zoro"; "Nami"; "Usopp"; "Sanji";
    "Tony Tony Chopper"; "Nico Robin"; "Franky"; "Brook"; "Jimbei";
    "Shanks"; "Portgas D. Ace"; "Trafalgar Law"; "Boa Hancock" ]%string.

Definition styles : list string :=
  [ "Eiichiro Oda art style";
    "official One Piece manga style";
    "vibrant anime colors";
    "dynamic shonen action pose";
    "detailed line art";
    "bold inking style";
    "color spread style";
    "volume cover art style";
    "Wanted poster style";
    "anime key visual style" ]%string.

Definition default_scenes : list string :=
  [ "on the Thousand Sunny";
    "battle scene";
    "Devil Fruit power activation";
    "in the Grand Line";
    "at Marineford";
    "in Wano Country";
    "with the Straw Hat crew";
    "using Haki";
    "in a dramatic close-up";
    "laughing together" ]%string.

Definition characters_of (character : string) : list string :=
  if JS.truthy character then [character] else default_characters.

Definition scenes_of (sceneType : string) : list string :=
  if JS.truthy sceneType then [sceneType] else default_scenes.

(** The body of the loop: the prompt built at index [i]. *)
Definition variation_prompt (basePrompt character sceneType : string) (i : nat) : string :=
  let characters := characters_of character in
  let scenes := scenes_of sceneType in
  let char := JS.index characters (i mod length characters) in
  let style := JS.index styles (i mod length styles) in
  let scene := JS.index scenes (i mod length scenes) in
  let prompt :=
    (char +:+ ", " +:+ basePrompt +:+ ", " +:+ scene +:+ ", " +:+ style
       +:+ ", official One Piece artwork")%string in
  (prompt +:+ ", detailed anime illustration, vibrant colors, dynamic composition")%string.

(** [for (let i = 0; i < 16; i++) variations.push(prompt)]. *)
Definition generateOnePieceVariations (basePrompt character sceneType : string)
  : list string :=
  fold_left
    (fun variations i =>
       JS.push variations (variation_prompt basePrompt character sceneType i))
    (seq 0 16) [].

(** ** The generate request and the provider call *)

Definition MODEL_ID : string := "flux1-schnell-fp8".

Record RenderDefaults := {
  rd_steps : Z;
  rd_guidance : Q;
  rd_scheduler : string;
  rd_timeStepSpacing : string;
  rd_sizePreset : string;
  rd_width : Z;
  rd_height : Z;
  rd_tokenType : string;
  rd_negativePrompt : string
}.

Definition RENDER_DEFAULTS : RenderDefaults := {|
  rd_steps := 6;
  rd_guidance := 12 # 10;
  rd_scheduler := "Euler";
  rd_timeStepSpacing := "Simple";
  rd_sizePreset := "custom";
  rd_width := 768;
  rd_height := 768;
  rd_tokenType := "spark";
  rd_negativePrompt :=
    "blurry, low quality, watermark, text, signature, bad anatomy, distorted, ugly, realistic, photorealistic, 3d render"
|}.

(** The request body after destructuring: [character] and [sceneType]
    default to the empty string, [prompt] and [seed] may be absent. *)
Record GenerateBody := {
  body_prompt : option string;
  body_character : option string;
  body_sceneType : option string;
  body_seed : option Z
}.

(** The object handed to [client.projects.create]. The spread of
    [RENDER_DEFAULTS] comes last; it has no [numberOfImages], [modelId],
    [positivePrompt] or [seed] key, and its [negativePrompt] is the value
    already written. *)
Record CreateParams := {
  cp_modelId : string;
  cp_positivePrompt : string;
  cp_negativePrompt : string;
  cp_numberOfImages : nat;
  cp_seed : option Z;
  cp_defaults : RenderDefaults
}.

Definition create_params (variations : list string) (seed : option Z) : CreateParams := {|
  cp_modelId := MODEL_ID;
  cp_positivePrompt := JS.index variations 0;
  cp_negativePrompt := rd_negativePrompt RENDER_DEFAULTS;
  cp_numberOfImages := 16;
  cp_seed :=
    match seed with
    | Some s => if Z.eqb s (-1) then None else Some s
    | None => None
    end;
  cp_defaults := RENDER_DEFAULTS
|}.

(** ** Provider objects and events *)

Record Job := { job_id : string }.

Record Project := { project_id : string; project_jobs : list Job }.

(** What awaiting [getSogniClient()] and [client.projects.create(...)]
    gives the handler: a project, or a rejection with its message. *)
Inductive ProviderResult :=
| Created (project : Project)
| CreateRejected (message : string)
| ClientUnavailable (message : string).

(** A 'project' event of the provider's emitter. *)
Record ProjectEvent := {
  pe_type : string;
  pe_projectId : string;
  pe_error : string
}.

(** A 'job' event of the provider's emitter. *)
Record JobEvent := {
  je_type : string;
  je_projectId : string;
  je_jobId : string;
  je_progress : Q;
  je_resultUrl : option string;
  je_positivePrompt : string
}.

(** The payload objects the handlers pass to [emitToProject]. *)
Inductive Payload :=
| PProgress (jobId : string) (progress : Z)
| PJobCompleted (id resultUrl positivePrompt : string)
| PCompleted
| PFailed (error : string).

(** The JSON body of the responses of POST /api/generate. *)
Inductive Response :=
| Accepted (projectId : string) (jobs : list (string * nat))
| Failed (status : Z) (error : string).

(** ** The state of the process *)

(** One run of the POST /api/generate handler leaves a closure behind:
    [onProject], [onJob], [debugProject], [debugJob] and [detach] all
    capture the same [projectId] and [project]. [cl_id] stands for the
    identity of the function objects, which is what [off] compares. *)
Record Closure := {
  cl_id : nat;
  cl_projectId : string;
  cl_project : Project
}.

(** The callbacks given to [setTimeout]. *)
Inductive TimerAction :=
| TCompleted (c : Closure)
| TCleanup (projectId : string).

Record Timer := { due : Z; action : TimerAction }.

(** An [onJob] call suspended at [await ensureJobResultUrl(...)]. *)
Record Pending := {
  pd_closure : Closure;
  pd_jobId : string;
  pd_resultUrl : option string;
  pd_positivePrompt : string
}.

(** A response object held in [sseClients]: whether [write] succeeds on it
    and what was written to it so far, newest first. *)
Record Channel := { writable : bool; received : list string }.

(** What happened, for the statements about time and order. This is a
    history variable: no handler reads it. *)
Inductive Obs :=
| ObsCreate (params : CreateParams)
| ObsRegistered (c : Closure)
| ObsProviderProject (evt : ProjectEvent)
| ObsProviderJob (evt : JobEvent)
| ObsEmit (projectId : string) (payload : Payload)
| ObsDetach (c : Closure)
| ObsDelete (projectId : string) (present : bool).

Record State := {
  sseClients : gmap string (list nat);
  activeProjects : gmap string Project;
  projectListeners : list Closure;
  jobListeners : list Closure;
  timers : list Timer;
  awaiting : list Pending;
  channels : gmap nat Channel;
  now : Z;
  nextClosure : nat;
  trace : list (Z * Obs)
}.

Definition init : State := {|
  sseClients := ∅;
  activeProjects := ∅;
  projectListeners := [];
  jobListeners := [];
  timers := [];
  awaiting := [];
  channels := ∅;
  now := 0;
  nextClosure := 0;
  trace := []
|}.

Definition set_sseClients (v : gmap string (list nat)) (st : State) : State :=
  {| sseClients := v; activeProjects := activeProjects st;
     projectListeners := projectListeners st; jobListeners := jobListeners st;
     timers := timers st; awaiting := awaiting st; channels := channels st;
     now := now st; nextClosure := nextClosure st; trace := trace st |}.

Definition set_activeProjects (v : gmap string Project) (st : State) : State :=
  {| sseClients := sseClients st; activeProjects := v;
     projectListeners := projectListeners st; jobListeners := jobListeners st;
     timers := timers st; awaiting := awaiting st; channels := channels st;
     now := now st; nextClosure := nextClosure st; trace := trace st |}.

Definition set_projectListeners (v : list Closure) (st : State) : State :=
  {| sseClients := sseClients st; activeProjects := activeProjects st;
     projectListeners := v; jobListeners := jobListeners st;
     timers := timers st; awaiting := awaiting st; channels := channels st;
     now := now st; nextClosure := nextClosure st; trace := trace st |}.

Definition set_jobListeners (v : list Closure) (st : State) : State :=
  {| sseClients := sseClients st; activeProjects := activeProjects st;
     projectListeners := projectListeners st; jobListeners := v;
     timers := timers st; awaiting := awaiting st; channels := channels st;
     now := now st; nextClosure := nextClosure st; trace := trace st |}.

Definition set_timers (v : list Timer) (st : State) : State :=
  {| sseClients := sseClients st; activeProjects := activeProjects st;
     projectListeners := projectListeners st; jobListeners := jobListeners st;
     timers := v; awaiting := awaiting st; channels := channels st;
     now := now st; nextClosure := nextClosure st; trace := trace st |}.

Definition set_awaiting (v : list Pending) (st : State) : State :=
  {| sseClients := sseClients st; activeProjects := activeProjects st;
     projectListeners := projectListeners st; jobListeners := jobListeners st;
     timers := timers st; awaiting := v; channels := channels st;
     now := now st; nextClosure := nextClosure st; trace := trace st |}.

Definition set_channels (v : gmap nat Channel) (st : State) : State :=
  {| sseClients := sseClients st; activeProjects := activeProjects st;
     projectListeners := projectListeners st; jobListeners := jobListeners st;
     timers := timers st; awaiting := awaiting st; channels := v;
     now := now st; nextClosure := nextClosure st; trace := trace st |}.

Definition set_now (v : Z) (st : State) : State :=
  {| sseClients := sseClients st; activeProjects := activeProjects st;
     projectListeners := projectListeners st; jobListeners := jobListeners st;
     timers := timers st; awaiting := awaiting st; channels := channels st;
     now := v; nextClosure := nextClosure st; trace := trace st |}.

Definition set_nextClosure (v : nat) (st : State) : State :=
  {| sseClients := sseClients st; activeProjects := activeProjects st;
     projectListeners := projectListeners st; jobListeners := jobListeners st;
     timers := timers st; awaiting := awaiting st; channels := channels st;
     now := now st; nextClosure := v; trace := trace st |}.

(** Appends to the history, stamped with the current time. *)
Definition observe (o : Obs) (st : State) : State :=
  {| sseClients := sseClients st; activeProjects := activeProjects st;
     projectListeners := projectListeners st; jobListeners := jobListeners st;
     timers := timers st; awaiting := awaiting st; channels := channels st;
     now := now st; nextClosure := nextClosure st;
     trace := (now st, o) :: trace st |}.

(** ** Statements that may throw *)

Inductive Outcome (A : Type) :=
| Ok (a : A) (st : State)
| Exn (e : string) (st : State).
Arguments Ok {A} a st.
Arguments Exn {A} e st.

Definition M (A : Type) : Type := State → Outcome A.

Definition ret {A} (a : A) : M A := fun st => Ok a st.

Definition throw {A} (e : string) : M A := fun st => Exn e st.

Definition bind {A B} (m : M A) (k : A → M B) : M B :=
  fun st =>
    match m st with
    | Ok a st' => k a st'
    | Exn e st' => Exn e st'
    end.

Notation "x <- m ;; k" := (bind m (fun x => k))
  (at level 100, m at next level, right associativity).
Notation "m ;; k" := (bind m (fun _ => k))
  (at level 100, right associativity).

(** [st => { ... }] for a statement that only changes the state. *)
Definition modify (f : State → State) : M unit := fun st => Ok tt (f st).

(** [try { m } catch {}]. *)
Definition try_catch (m : M unit) : M unit :=
  fun st =>
    match m st with
    | Ok a st' => Ok a st'
    | Exn _ st' => Ok tt st'
    end.

(** Calling an [async] function whose promise nobody awaits: an exception
    in its body rejects the promise and does not reach the caller. *)
Definition call_async (m : M unit) : M unit := try_catch m.

(** [arr.forEach(f)], also the iteration of a [Set] in insertion order. *)
Fixpoint forEach {A} (arr : list A) (f : A → M unit) : M unit :=
  match arr with
  | [] => ret tt
  | x :: rest => f x ;; forEach rest f
  end.

(** The state a top-level callback of the event loop leaves behind. *)
Definition exec {A} (m : M A) (st : State) : State :=
  match m st with
  | Ok _ st' => st'
  | Exn _ st' => st'
  end.

Definition gets {A} (f : State → A) : M A := fun st => Ok (f st) st.

(** ** Serialization of the outbound events *)

Module JSON.

Definition dquote : string := String (ascii_of_nat 34) EmptyString.
Definition backslash : string := String (ascii_of_nat 92) EmptyString.

Definition hex_digit (n : nat) : string :=
  String (nth n (list_ascii_of_string "0123456789abcdef") "0"%char) EmptyString.

(** The escapes of [JSON.stringify] for one code unit. *)
Definition escape_char (c : ascii) : string :=
  let n := nat_of_ascii c in
  if (n =? 8)%nat then backslash +:+ "b"
  else if (n =? 9)%nat then backslash +:+ "t"
  else if (n =? 10)%nat then backslash +:+ "n"
  else if (n =? 12)%nat then backslash +:+ "f"
  else if (n =? 13)%nat then backslash +:+ "r"
  else if (n =? 34)%nat then backslash +:+ dquote
  else if (n =? 92)%nat then backslash +:+ backslash
  else if (n <? 32)%nat then
    backslash +:+ "u00" +:+ hex_digit (n / 16) +:+ hex_digit (n mod 16)
  else String c EmptyString.

Fixpoint escape (s : string) : string :=
  match s with
  | EmptyString => EmptyString
  | String c rest => escape_char c +:+ escape rest
  end.

Definition str (s : string) : string := dquote +:+ escape s +:+ dquote.

Definition field (key value : string) : string := str key +:+ ":" +:+ value.

(** [JSON.stringify({ projectId, ...payload })] for the four payload
    shapes the handlers build; keys appear in insertion order. *)
Definition stringify (projectId : string) (payload : Payload) : string :=
  let head := "{" +:+ field "projectId" (str projectId) +:+ "," in
  match payload with
  | PProgress jobId progress =>
      head +:+ field "type" (str "progress") +:+ ","
           +:+ field "jobId" (str jobId) +:+ ","
           +:+ field "progress" (pretty progress) +:+ "}"
  | PJobCompleted id resultUrl positivePrompt =>
      head +:+ field "type" (str "jobCompleted") +:+ ","
           +:+ field "job"
                 ("{" +:+ field "id" (str id) +:+ ","
                      +:+ field "resultUrl" (str resultUrl) +:+ ","
                      +:+ field "positivePrompt" (str positivePrompt) +:+ "}")
           +:+ "}"
  | PCompleted => head +:+ field "type" (str "completed") +:+ "}"
  | PFailed error =>
      head +:+ field "type" (str "failed") +:+ ","
           +:+ field "error" (str error) +:+ "}"
  end.

End JSON.

Definition LF : string := String (ascii_of_nat 10) EmptyString.

(** The frame written to a subscriber. *)
Definition sse_data (projectId : string) (payload : Payload) : string :=
  "data: " +:+ JSON.stringify projectId payload +:+ LF +:+ LF.

(** ** The fan-out: [emitToProject] *)

(** [res.write(data)]: appends to what the channel received, or throws
    when the response object no longer accepts writes. *)
Definition res_write (res : nat) (data : string) : M unit :=
  fun st =>
    match channels st !! res with
    | Some ch =>
        if writable ch then
          Ok tt (set_channels
                   (<[res := {| writable := true; received := data :: received ch |}]>
                      (channels st)) st)
        else Exn "write after end" st
    | None => Exn "write after end" st
    end.

Definition emitToProject (projectId : string) (payload : Payload) : M unit :=
  modify (observe (ObsEmit projectId payload)) ;;
  clients <- gets (fun st => sseClients st !! projectId) ;;
  match clients with
  | None => ret tt
  | Some clients =>
      let data := sse_data projectId payload in
      forEach clients (fun res => try_catch (res_write res data))
  end.

(** ** The closures of the generate handler *)

(** Modelled from the spec: [clamp01] is called by [onJob] but defined
    nowhere in the source at hand. The spec has the bridge "clamp to
    [0,1]" the raw progress value. *)
Definition clamp01 (x : Q) : Q :=
  let m := if Qle_bool x 1 then x else 1%Q in
  if Qle_bool 0 m then m else 0%Q.

Definition setTimeout (callback : TimerAction) (delay : Z) : M unit :=
  modify (fun st =>
            set_timers (timers st ++ [{| due := now st + delay; action := callback |}]) st).

(** [emitter.off(name, listener)]: listeners are compared by identity. *)
Definition off (c : Closure) (listeners : list Closure) : list Closure :=
  List.filter (fun l => negb (cl_id l =? cl_id c)%nat) listeners.

Definition detach (c : Closure) : M unit :=
  modify (observe (ObsDetach c)) ;;
  modify (fun st => set_projectListeners (off c (projectListeners st)) st) ;;
  modify (fun st => set_jobListeners (off c (jobListeners st)) st) ;;
  setTimeout (TCleanup (cl_projectId c)) 600000.

Definition onProject (c : Closure) (evt : ProjectEvent) : M unit :=
  let projectId := cl_projectId c in
  if negb (String.eqb (pe_projectId evt) projectId) then ret tt
  else if String.eqb (pe_type evt) "completed" then
    setTimeout (TCompleted c) 2000
  else if String.eqb (pe_type evt) "error" then
    emitToProject projectId (PFailed (pe_error evt)) ;;
    detach c
  else ret tt.

(** [onJob] up to its [await]: the progress branch runs to its end, the
    completion branch suspends until [ensureJobResultUrl] settles. *)
Definition onJob (c : Closure) (evt : JobEvent) : M unit :=
  let projectId := cl_projectId c in
  if negb (String.eqb (je_projectId evt) projectId) then ret tt
  else if String.eqb (je_type evt) "progress" then
    emitToProject projectId
      (PProgress (je_jobId evt) (JS.Math_round (JS.mul (clamp01 (je_progress evt)) 100)))
  else if String.eqb (je_type evt) "completed" then
    modify (fun st =>
              set_awaiting
                (awaiting st ++ [{| pd_closure := c; pd_jobId := je_jobId evt;
                                    pd_resultUrl := je_resultUrl evt;
                                    pd_positivePrompt := je_positivePrompt evt |}]) st)
  else ret tt.

(** The rest of [onJob] once [ensureJobResultUrl] has resolved. *)
Definition onJob_resume (p : Pending) (resultUrl : string) : M unit :=
  emitToProject (cl_projectId (pd_closure p))
    (PJobCompleted (pd_jobId p) resultUrl (pd_positivePrompt p)).

(** [debugProject] and [debugJob] log to the console and call the [async]
    handler without awaiting it. *)
Definition debugProject (c : Closure) (evt : ProjectEvent) : M unit :=
  call_async (onProject c evt).

Definition debugJob (c : Closure) (evt : JobEvent) : M unit :=
  call_async (onJob c evt).

(** The callbacks of the two timers. *)
Definition run_timer (a : TimerAction) : M unit :=
  match a with
  | TCompleted c =>
      call_async (emitToProject (cl_projectId c) PCompleted ;; detach c)
  | TCleanup projectId =>
      present <- gets (fun st => bool_decide (is_Some (activeProjects st !! projectId))) ;;
      modify (observe (ObsDelete projectId present)) ;;
      modify (fun st => set_activeProjects (delete projectId (activeProjects st)) st)
  end.

(** ** POST /api/generate *)

(** [err?.message || 'Generation failed']. *)
Definition error_message (message : string) : string :=
  if JS.truthy message then message else "Generation failed"%string.

(** [client.projects.on(name, listener)]. *)
Definition on_project (c : Closure) : M unit :=
  modify (fun st => set_projectListeners (projectListeners st ++ [c]) st).

Definition on_job (c : Closure) : M unit :=
  modify (fun st => set_jobListeners (jobListeners st ++ [c]) st).

(** The handler from the provider call on, given the variations it
    computed. [result] is what the two awaits give. The handler also
    builds [jobIndexById], a map that nothing reads; it is left out. *)
Definition start_project (variations : list string) (seed : option Z)
    (result : ProviderResult) : M Response :=
  match result with
  | ClientUnavailable message => ret (Failed 500 (error_message message))
  | CreateRejected message =>
      modify (observe (ObsCreate (create_params variations seed))) ;;
      ret (Failed 500 (error_message message))
  | Created project =>
      modify (observe (ObsCreate (create_params variations seed))) ;;
      let projectId := project_id project in
      modify (fun st =>
                set_activeProjects (<[projectId := project]> (activeProjects st)) st) ;;
      let response :=
        Accepted projectId (JS.mapi (fun j i => (job_id j, i)) (project_jobs project)) in
      id <- gets nextClosure ;;
      modify (set_nextClosure (S id)) ;;
      let c := {| cl_id := id; cl_projectId := projectId; cl_project := project |} in
      modify (observe (ObsRegistered c)) ;;
      on_project c ;;
      on_job c ;;
      ret response
  end.

Definition post_generate (body : GenerateBody) (result : ProviderResult) : M Response :=
  let character := default EmptyString (body_character body) in
  let sceneType := default EmptyString (body_sceneType body) in
  match body_prompt body with
  | None => ret (Failed 400 "Missing prompt")
  | Some prompt =>
      if negb (JS.truthy prompt) then ret (Failed 400 "Missing prompt")
      else
        start_project (generateOnePieceVariations prompt character sceneType)
          (body_seed body) result
  end.

(** ** The provider's emitter *)

(** Every listener registered when the event is emitted is called, in
    registration order. *)
Definition emit_project (evt : ProjectEvent) : M unit :=
  modify (observe (ObsProviderProject evt)) ;;
  listeners <- gets projectListeners ;;
  forEach listeners (fun c => debugProject c evt).

Definition emit_job (evt : JobEvent) : M unit :=
  modify (observe (ObsProviderJob evt)) ;;
  listeners <- gets jobListeners ;;
  forEach listeners (fun c => debugJob c evt).

(** ** GET /api/progress/:projectId *)

(** Modelled from the spec: the body of the progress route is elided in
    the source at hand. The spec's hub has [attach] add a channel to the
    project's subscriber set and [detach] remove it, both idempotent. *)
Definition sse_attach (projectId : string) (res : nat) : M unit :=
  modify (fun st =>
            let clients := default [] (sseClients st !! projectId) in
            let clients' := if bool_decide (res ∈ clients) then clients else clients ++ [res] in
            let chans :=
              match channels st !! res with
              | Some _ => channels st
              | None => <[res := {| writable := true; received := [] |}]> (channels st)
              end in
            set_channels chans (set_sseClients (<[projectId := clients']> (sseClients st)) st)).

Definition sse_detach (projectId : string) (res : nat) : M unit :=
  modify (fun st =>
            match sseClients st !! projectId with
            | None => st
            | Some clients =>
                set_sseClients
                  (<[projectId := List.filter (fun r => negb (r =? res)%nat) clients]>
                     (sseClients st)) st
            end).

(** The connection behind a response object goes away: later writes to
    it throw. *)
Definition disconnect (res : nat) : M unit :=
  modify (fun st =>
            match channels st !! res with
            | Some ch =>
                set_channels
                  (<[res := {| writable := false; received := received ch |}]> (channels st)) st
            | None => st
            end).

(** ** The event loop *)

Inductive Input :=
| PostGenerate (body : GenerateBody) (result : ProviderResult)
| ProviderProject (evt : ProjectEvent)
| ProviderJob (evt : JobEvent)
| Settle (i : nat) (resolved : option string)
| Elapse (ms : Z)
| Fire (i : nat)
| SseOpen (projectId : string) (res : nat)
| SseClose (projectId : string) (res : nat)
| Disconnect (res : nat).

(** One turn of the loop. [Settle i r] settles the promise the [i]-th
    suspended [onJob] awaits ([None]: it rejects, and that call of [onJob]
    never resumes). [Fire i] runs the [i]-th pending timer, which the loop
    does only once its delay has elapsed. [Elapse ms] lets time pass.
    Inputs that name no pending item leave the state alone. *)
Definition step (st : State) (i : Input) : State :=
  match i with
  | PostGenerate body result => exec (post_generate body result) st
  | ProviderProject evt => exec (emit_project evt) st
  | ProviderJob evt => exec (emit_job evt) st
  | Settle i resolved =>
      match awaiting st !! i with
      | Some p =>
          let st' := set_awaiting (delete i (awaiting st)) st in
          match resolved with
          | Some resultUrl => exec (call_async (onJob_resume p resultUrl)) st'
          | None => st'
          end
      | None => st
      end
  | Elapse ms => set_now (now st + Z.max 0 ms) st
  | Fire i =>
      match timers st !! i with
      | Some t =>
          if due t <=? now st then
            exec (run_timer (action t)) (set_timers (delete i (timers st)) st)
          else st
      | None => st
      end
  | SseOpen projectId res => exec (sse_attach projectId res) st
  | SseClose projectId res => exec (sse_detach projectId res) st
  | Disconnect res => exec (disconnect res) st
  end.

Definition run (st : State) (inputs : list Input) : State :=
  fold_left step inputs st.

(** ** Reading the history *)

(** The history in the order things happened. *)
Definition history (st : State) : list (Z * Obs) := rev (trace st).

(** The payloads pushed to the hub for a project, oldest first. *)
Definition emitted_of (projectId : string) (h : list (Z * Obs)) : list Payload :=
  omap (fun e => match e.2 with
                 | ObsEmit p payload =>
                     if String.eqb p projectId then Some payload else None
                 | _ => None
                 end) h.

Definition emitted (projectId : string) (st : State) : list Payload :=
  emitted_of projectId (history st).

(** What a subscriber received, oldest first. *)
Definition delivered (res : nat) (st : State) : list string :=
  match channels st !! res with
  | Some ch => rev (received ch)
  | None => []
  end.

(** * Vocabulary of the properties *)

(** ** The fan-out *)

(** One guarded write, as a function on the table of channels. *)
Definition write_to (data : string) (res : nat) (chs : gmap nat Channel)
  : gmap nat Channel :=
  match chs !! res with
  | Some ch =>
      if writable ch then
        <[res := {| writable := true; received := data :: received ch |}]> chs
      else chs
  | None => chs
  end.

(** The loop of [emitToProject], as a function on the table of channels. *)
Definition fanout (data : string) (clients : list nat) (chs : gmap nat Channel)
  : gmap nat Channel :=
  fold_left (fun chs res => write_to data res chs) clients chs.

(** ** Progress percentages *)

(** The percentage [onJob] reports for a raw progress value. *)
Definition percent (raw : Q) : Z := JS.Math_round (JS.mul (clamp01 raw) 100).

(** Follows the spec's words: the raw value clamped to [0,1] and then
    rounded to the nearest integer percent. *)
Definition spec_percent (raw : Q) : Z := Qfloor (clamp01 raw * 100 + (1 # 2)).

(** Half a unit in the last place of the doubles from 64 to 128: 2 to
    the -47. The product with 100 is off by no more. *)
Definition product_error : Q := 1 # 140737488355328.

(** Every progress Event pushed so far reports the percentage of a
    progress notification of the provider, for that project and job,
    dispatched at the same time. *)
Definition progress_inv (tr : list (Z * Obs)) : Prop :=
  ∀ t projectId jobId p,
    (t, ObsEmit projectId (PProgress jobId p)) ∈ tr →
    ∃ evt, (t, ObsProviderJob evt) ∈ tr
           ∧ je_type evt = "progress"%string
           ∧ je_projectId evt = projectId
           ∧ je_jobId evt = jobId
           ∧ p = percent (je_progress evt).

Definition ProgressInv (st : State) : Prop := progress_inv (trace st).

(** ** The prompt variations *)

(** Two strings part ways: at some position both have a character and
    the characters differ. *)
Fixpoint diverge (s t : string) : bool :=
  match s, t with
  | String a s', String b t' => if Ascii.eqb a b then diverge s' t' else true
  | _, _ => false
  end.

(** No entry of the list is a prefix of another one. *)
Definition prefix_free (l : list string) : bool :=
  forallb (fun s => forallb (fun t => String.eqb s t || diverge s t) l) l.

(** The prompt with its pieces in a row. *)
Definition variation_flat (basePrompt character sceneType : string) (i : nat) : string :=
  let characters := characters_of character in
  let scenes := scenes_of sceneType in
  JS.index characters (i mod length characters) +:+ ", " +:+ basePrompt +:+ ", "
    +:+ JS.index scenes (i mod length scenes) +:+ ", "
    +:+ JS.index styles (i mod length styles)
    +:+ ", official One Piece artwork"
    +:+ ", detailed anime illustration, vibrant colors, dynamic composition".

(** ** The generate handler *)

(** The state an accepted request leaves behind. *)
Definition accepted_state (params : CreateParams) (project : Project) (st : State) : State :=
  let c := {| cl_id := nextClosure st; cl_projectId := project_id project;
              cl_project := project |} in
  {| sseClients := sseClients st;
     activeProjects := <[project_id project := project]> (activeProjects st);
     projectListeners := projectListeners st ++ [c];
     jobListeners := jobListeners st ++ [c];
     timers := timers st; awaiting := awaiting st; channels := channels st;
     now := now st; nextClosure := S (nextClosure st);
     trace := (now st, ObsRegistered c) :: (now st, ObsCreate params) :: trace st |}.

(** ** The handlers in closed form *)

(** The state [detach] leaves behind. *)
Definition detached (c : Closure) (st : State) : State :=
  {| sseClients := sseClients st; activeProjects := activeProjects st;
     projectListeners := off c (projectListeners st);
     jobListeners := off c (jobListeners st);
     timers := timers st ++ [{| due := now st + 600000;
                                action := TCleanup (cl_projectId c) |}];
     awaiting := awaiting st; channels := channels st;
     now := now st; nextClosure := nextClosure st;
     trace := (now st, ObsDetach c) :: trace st |}.

(** The state the project-level error branch leaves behind. *)
Definition failed_state (c : Closure) (error : string) (st : State) : State :=
  detached c (exec (emitToProject (cl_projectId c) (PFailed error)) st).

(** The state the project-level completion branch leaves behind. *)
Definition completion_scheduled (c : Closure) (st : State) : State :=
  set_timers (timers st ++ [{| due := now st + 2000; action := TCompleted c |}]) st.

(** The state the job-level completion branch leaves behind: the call is
    parked until its promise settles. *)
Definition suspended (c : Closure) (evt : JobEvent) (st : State) : State :=
  set_awaiting
    (awaiting st ++ [{| pd_closure := c; pd_jobId := je_jobId evt;
                        pd_resultUrl := je_resultUrl evt;
                        pd_positivePrompt := je_positivePrompt evt |}]) st.

(** The two timer callbacks. *)
Definition completed_state (c : Closure) (st : State) : State :=
  detached c (exec (emitToProject (cl_projectId c) PCompleted) st).

Definition cleaned_up (projectId : string) (st : State) : State :=
  set_activeProjects (delete projectId (activeProjects st))
    (observe (ObsDelete projectId (bool_decide (is_Some (activeProjects st !! projectId)))) st).

(** ** One closure per project *)

(** [c] is registered, and no other registered listener belongs to its
    project. This is the situation while project ids are not reused. *)
Definition sole_listener (c : Closure) (listeners : list Closure) : Prop :=
  ∃ before after,
    listeners = before ++ c :: after
    ∧ ∀ l, l ∈ before ++ after → cl_projectId l ≠ cl_projectId c.

(** ** The completion delay *)

(** The provider announced the completion of the project at time [t]. *)
Definition completion_notified (tr : list (Z * Obs)) (projectId : string) (t : Z) : Prop :=
  ∃ evt, (t, ObsProviderProject evt) ∈ tr
         ∧ pe_type evt = "completed"%string ∧ pe_projectId evt = projectId.

(** Every pending completion timer was armed by a completion notice 2000
    ms before it is due, and every [completed] Event pushed so far came at
    least 2000 ms after such a notice. *)
Definition delay_inv (tr : list (Z * Obs)) (ts : list Timer) : Prop :=
  (∀ d c, {| due := d; action := TCompleted c |} ∈ ts →
          ∃ t, completion_notified tr (cl_projectId c) t ∧ d = t + 2000)
  ∧ (∀ t' projectId, (t', ObsEmit projectId PCompleted) ∈ tr →
          ∃ t, completion_notified tr projectId t ∧ t + 2000 ≤ t').

Definition DelayInv (st : State) : Prop := delay_inv (trace st) (timers st).

(** ** The registry cleanup *)

(** Every pending cleanup timer was armed by a [detach] of that project
    600000 ms before it is due, and every [activeProjects.delete] so far
    came at least 600000 ms after such a [detach]. *)
Definition detached_at (tr : list (Z * Obs)) (projectId : string) (t : Z) : Prop :=
  ∃ c, (t, ObsDetach c) ∈ tr ∧ cl_projectId c = projectId.

Definition cleanup_inv (tr : list (Z * Obs)) (ts : list Timer) : Prop :=
  (∀ d projectId, {| due := d; action := TCleanup projectId |} ∈ ts →
          ∃ t, detached_at tr projectId t ∧ d = t + 600000)
  ∧ (∀ t' projectId b, (t', ObsDelete projectId b) ∈ tr →
          ∃ t, detached_at tr projectId t ∧ t + 600000 ≤ t').

Definition CleanupInv (st : State) : Prop := cleanup_inv (trace st) (timers st).

(** *** Each registry entry is removed at most once *)

Definition is_removal (projectId : string) (e : Z * Obs) : bool :=
  match e.2 with
  | ObsDelete p true => String.eqb p projectId
  | _ => false
  end.

Definition is_registration (projectId : string) (e : Z * Obs) : bool :=
  match e.2 with
  | ObsRegistered c => String.eqb (cl_projectId c) projectId
  | _ => false
  end.

Definition count {A} (f : A → bool) (l : list A) : nat := length (List.filter f l).

(** How often an entry for the project was really taken out of the
    registry, how often one was put in, and whether one is there now. *)
Definition removals (projectId : string) (st : State) : nat :=
  count (is_removal projectId) (trace st).

Definition registrations (projectId : string) (st : State) : nat :=
  count (is_registration projectId) (trace st).

Definition present (projectId : string) (ap : gmap string Project) : nat :=
  match ap !! projectId with Some _ => 1 | None => 0 end.

Definition count_inv (tr : list (Z * Obs)) (ap : gmap string Project) : Prop :=
  ∀ projectId,
    (count (is_removal projectId) tr + present projectId ap
       ≤ count (is_registration projectId) tr)%nat
    ∧ (1 ≤ count (is_registration projectId) tr →
       1 ≤ count (is_removal projectId) tr + present projectId ap)%nat.

Definition CountInv (st : State) : Prop := count_inv (trace st) (activeProjects st).

(** ** After the listeners are gone *)

Definition no_listener (projectId : string) (st : State) : Prop :=
  ∀ l, l ∈ projectListeners st ∨ l ∈ jobListeners st → cl_projectId l ≠ projectId.

(** A provider notification about the given project. *)
Definition notice_for (projectId : string) (i : Input) : Prop :=
  match i with
  | ProviderProject evt => pe_projectId evt = projectId
  | ProviderJob evt => je_projectId evt = projectId
  | _ => False
  end.

(** The state without its history. *)
Definition same_state (a b : State) : Prop :=
  sseClients a = sseClients b ∧ activeProjects a = activeProjects b
  ∧ projectListeners a = projectListeners b ∧ jobListeners a = jobListeners b
  ∧ timers a = timers b ∧ awaiting a = awaiting b ∧ channels a = channels b
  ∧ now a = now b ∧ nextClosure a = nextClosure b.

(** *** The lifecycle the specification describes *)

Inductive Lifecycle := pending | running | completed | failed.

(** Follows the spec's words: a project moves [pending → running →
    completed | failed] and never back; [completed] and [failed] Events
    mark the two terminal transitions, and once the project is terminal
    nothing further is relayed for it. [spec_accepts s events] says that
    the Events, pushed in this order to a project in state [s], respect
    that. *)
Fixpoint spec_accepts (s : Lifecycle) (events : list Payload) : bool :=
  match events with
  | [] => true
  | p :: rest =>
      match s with
      | completed | failed => false
      | pending | running =>
          match p with
          | PCompleted => spec_accepts completed rest
          | PFailed _ => spec_accepts failed rest
          | PProgress _ _ | PJobCompleted _ _ _ => spec_accepts running rest
          end
      end
  end.

(** ** The order of the Events *)

(** A provider notification together with, for a job completion, what the
    result lookup it triggers settles to. *)
Inductive Notice :=
| NProject (evt : ProjectEvent)
| NJob (evt : JobEvent) (resolved : option string).

Definition notice_project (n : Notice) : string :=
  match n with
  | NProject evt => pe_projectId evt
  | NJob evt _ => je_projectId evt
  end.

(** The turns of the loop when the lookup of a job completion settles
    before the next notification is dispatched. *)
Definition prompt_inputs (n : Notice) : list Input :=
  match n with
  | NProject evt => [ProviderProject evt]
  | NJob evt resolved =>
      if String.eqb (je_type evt) "completed"
      then [ProviderJob evt; Settle 0 resolved]
      else [ProviderJob evt]
  end.

(** Follows the spec's words: the provider's notifications for a project,
    normalised into Events, in the provider's order, none merged; the
    project-level completion is held back by the delay rule and the stream
    ends with the failure. *)
Fixpoint spec_relay (ns : list Notice) : list Payload :=
  match ns with
  | [] => []
  | NJob evt resolved :: rest =>
      if String.eqb (je_type evt) "progress" then
        PProgress (je_jobId evt) (percent (je_progress evt)) :: spec_relay rest
      else if String.eqb (je_type evt) "completed" then
        match resolved with
        | Some resultUrl =>
            PJobCompleted (je_jobId evt) resultUrl (je_positivePrompt evt)
              :: spec_relay rest
        | None => spec_relay rest
        end
      else spec_relay rest
  | NProject evt :: rest =>
      if String.eqb (pe_type evt) "error" then [PFailed (pe_error evt)]
      else spec_relay rest
  end.

(** The project's closure is listening and none of its calls is parked. *)
Definition attached (c : Closure) (st : State) : Prop :=
  sole_listener c (projectListeners st)
  ∧ sole_listener c (jobListeners st)
  ∧ awaiting st = [].

(** Subscriber [k] is in the project's set and its channel accepts
    writes. *)
Definition subscribed (k : nat) (projectId : string) (st : State) : Prop :=
  ∃ clients ch,
    sseClients st !! projectId = Some clients ∧ NoDup clients ∧ k ∈ clients
    ∧ channels st !! k = Some ch ∧ writable ch = true.

(** Between [st] and [st'] the hub was handed the Events [l] for the
    project, and subscriber [k], if subscribed, received their frames, in
    that order, and is still subscribed. *)
Definition relays (projectId : string) (k : nat) (st st' : State) (l : list Payload) : Prop :=
  emitted projectId st' = emitted projectId st ++ l
  ∧ (subscribed k projectId st →
     subscribed k projectId st'
     ∧ delivered k st' = delivered k st ++ map (sse_data projectId) l).

(** The job notifications in the order the provider produced them, and
    the job Events in the order the hub got them, each as its kind and its
    job. *)
Definition notified_jobs (h : list (Z * Obs)) : list (string * string) :=
  omap (fun e => match e.2 with
                 | ObsProviderJob evt => Some (je_type evt, je_jobId evt)
                 | _ => None
                 end) h.

Definition relayed_jobs (h : list (Z * Obs)) : list (string * string) :=
  omap (fun e => match e.2 with
                 | ObsEmit _ (PProgress jobId _) => Some ("progress"%string, jobId)
                 | ObsEmit _ (PJobCompleted jobId _ _) => Some ("completed"%string, jobId)
                 | _ => None
                 end) h.

(** ** Sample requests, events and states *)

(** A hub with three subscribers of project P1; the connection of the
    second one is gone. *)
Definition hub_with_dead_subscriber : State :=
  set_sseClients {[ "P1"%string := [1; 2; 3]%nat ]}
    (set_channels
       (<[1%nat := {| writable := true; received := [] |}]>
          (<[2%nat := {| writable := false; received := [] |}]>
             (<[3%nat := {| writable := true; received := [] |}]> ∅)))
       init).

(** The double nearest to 0.015: 1080863910568919 / 2^56. *)
Definition x015 : Q := 1080863910568919 # 72057594037927936.

Definition progress_event (jobId : string) (raw : Q) : JobEvent :=
  {| je_type := "progress"; je_projectId := "P1"; je_jobId := jobId;
     je_progress := raw; je_resultUrl := None; je_positivePrompt := EmptyString |}.

Definition battle_scene : GenerateBody :=
  {| body_prompt := Some "battle scene"%string; body_character := None;
     body_sceneType := None; body_seed := None |}.

Definition project_P1 (jobIds : list string) : Project :=
  {| project_id := "P1"; project_jobs := map Build_Job jobIds |}.

Definition sixteen_jobs : list string :=
  [ "J0"; "J1"; "J2"; "J3"; "J4"; "J5"; "J6"; "J7";
    "J8"; "J9"; "J10"; "J11"; "J12"; "J13"; "J14"; "J15" ]%string.

(** A registry that already holds project P1. *)
Definition registry_with_P1 : State :=
  set_activeProjects {[ "P1"%string := project_P1 ["old"%string] ]} init.

Definition error_event (projectId error : string) : ProjectEvent :=
  {| pe_type := "error"; pe_projectId := projectId; pe_error := error |}.

(** Project P1 right after its request was accepted, with one subscriber. *)
Definition P1_running : State :=
  run init [ SseOpen "P1" 7;
             PostGenerate battle_scene (Created (project_P1 ["J0"; "J1"]%string)) ].

Definition P1_closure : Closure :=
  {| cl_id := 0; cl_projectId := "P1";
     cl_project := project_P1 ["J0"; "J1"]%string |}.

Definition completed_event (projectId : string) : ProjectEvent :=
  {| pe_type := "completed"; pe_projectId := projectId; pe_error := EmptyString |}.

(** Project P1 failed, and 600000 ms have passed since. *)
Definition P1_failed_long_ago : State :=
  run P1_running [ ProviderProject (error_event "P1" "out of credits"); Elapse 600000 ].

Definition job_completed_event (jobId : string) : JobEvent :=
  {| je_type := "completed"; je_projectId := "P1"; je_jobId := jobId;
     je_progress := 1; je_resultUrl := None;
     je_positivePrompt := "Nami, battle scene" |}.

(** The notifications of the counterexample, with the lookup of J0
    settling before the progress of J1 is dispatched. *)
Definition prompt_notices : list Notice :=
  [ NJob (job_completed_event "J0") (Some "https://cdn/J0.png"%string);
    NJob (progress_event "J1" (1 # 2)) None;
    NProject (completed_event "P1") ].

(** * Vocabulary of the further properties *)

(** ** The outcomes of the generate handler *)

(** [!prompt]: the prompt is absent or empty. *)
Definition prompt_missing (body : GenerateBody) : bool :=
  match body_prompt body with
  | Some prompt => negb (JS.truthy prompt)
  | None => true
  end.

(** The message of the rejection the provider call ended in, if it did. *)
Definition rejection_message (result : ProviderResult) : option string :=
  match result with
  | Created _ => None
  | CreateRejected message | ClientUnavailable message => Some message
  end.

(** ** Frames on one line *)

(** No byte of the string is a control character (below 32), so it holds
    no line feed and no carriage return. *)
Definition control_free (s : string) : bool :=
  forallb (fun c => (32 <=? nat_of_ascii c)%nat) (list_ascii_of_string s).

(** ** What the subscribers hold *)

(** Everything written to any channel is the frame of an Event that was
    pushed to the hub. *)
Definition frames_inv (tr : list (Z * Obs)) (chs : gmap nat Channel) : Prop :=
  ∀ k ch data,
    chs !! k = Some ch → data ∈ received ch →
    ∃ t projectId payload,
      (t, ObsEmit projectId payload) ∈ tr ∧ data = sse_data projectId payload.

Definition FramesInv (st : State) : Prop := frames_inv (trace st) (channels st).

(** ** Where the Events come from *)

(** The provider announced the completion of the job with this prompt. *)
Definition job_completion_notified (tr : list (Z * Obs))
    (projectId jobId positivePrompt : string) : Prop :=
  ∃ t evt, (t, ObsProviderJob evt) ∈ tr
           ∧ je_type evt = "completed"%string
           ∧ je_projectId evt = projectId
           ∧ je_jobId evt = jobId
           ∧ je_positivePrompt evt = positivePrompt.

(** Every parked [onJob] call and every [jobCompleted] Event stems from a
    completion notice of the provider for that project and job, and every
    [failed] Event carries the error of an error notice of the provider
    for that project, dispatched at the same time. *)
Definition origin_inv (tr : list (Z * Obs)) (aw : list Pending) : Prop :=
  (∀ p, p ∈ aw →
        job_completion_notified tr (cl_projectId (pd_closure p))
          (pd_jobId p) (pd_positivePrompt p))
  ∧ (∀ t projectId jobId resultUrl positivePrompt,
       (t, ObsEmit projectId (PJobCompleted jobId resultUrl positivePrompt)) ∈ tr →
       job_completion_notified tr projectId jobId positivePrompt)
  ∧ (∀ t projectId error,
       (t, ObsEmit projectId (PFailed error)) ∈ tr →
       ∃ evt, (t, ObsProviderProject evt) ∈ tr
              ∧ pe_type evt = "error"%string
              ∧ pe_projectId evt = projectId
              ∧ pe_error evt = error).

Definition OriginInv (st : State) : Prop := origin_inv (trace st) (awaiting st).

(** ** The identity of the closures *)

(** The closures held by pending timers. *)
Definition timer_closures (ts : list Timer) : list Closure :=
  omap (fun t => match action t with
                 | TCompleted c => Some c
                 | TCleanup _ => None
                 end) ts.

(** Both provider events have the same listeners; the listeners have
    pairwise different identities; and every closure the process holds
    was handed out with an identity below the next one, one closure per
    identity. *)
Definition registered (tr : list (Z * Obs)) (c : Closure) : Prop :=
  ∃ t, (t, ObsRegistered c) ∈ tr.

Definition closure_inv (st : State) : Prop :=
  jobListeners st = projectListeners st
  ∧ NoDup (map cl_id (projectListeners st))
  ∧ (∀ c, c ∈ projectListeners st ∨ c ∈ timer_closures (timers st)
          ∨ c ∈ map pd_closure (awaiting st) →
          registered (trace st) c)
  ∧ (∀ c, registered (trace st) c →
          (cl_id c < nextClosure st)%nat
          ∧ cl_projectId c = project_id (cl_project c))
  ∧ (∀ c c', registered (trace st) c → registered (trace st) c' →
             cl_id c = cl_id c' → c = c').

(** The closure listens to both provider events. *)
Definition listening (l : Closure) (st : State) : Prop :=
  l ∈ projectListeners st ∧ l ∈ jobListeners st.

(** The input is the error notice of the closure's project, or lets the
    closure's own completion timer fire. *)
Definition ends_project (l : Closure) (st : State) (i : Input) : Prop :=
  match i with
  | ProviderProject evt =>
      pe_type evt = "error"%string ∧ pe_projectId evt = cl_projectId l
  | Fire k =>
      ∃ d, timers st !! k = Some {| due := d; action := TCompleted l |} ∧ d ≤ now st
  | _ => False
  end.

(** ** No Event twice *)

Definition is_progress (payload : Payload) : bool :=
  match payload with PProgress _ _ => true | _ => false end.

Definition is_job_completed (payload : Payload) : bool :=
  match payload with PJobCompleted _ _ _ => true | _ => false end.

Definition is_completed (payload : Payload) : bool :=
  match payload with PCompleted => true | _ => false end.

Definition is_failed (payload : Payload) : bool :=
  match payload with PFailed _ => true | _ => false end.

(** An Event of the given kind pushed to the hub for the project. *)
Definition is_event (projectId : string) (kind : Payload → bool) (e : Z * Obs) : bool :=
  match e.2 with
  | ObsEmit p payload => String.eqb p projectId && kind payload
  | _ => false
  end.

(** A provider notification of the given type about the project. *)
Definition is_project_notice (projectId type : string) (e : Z * Obs) : bool :=
  match e.2 with
  | ObsProviderProject evt =>
      String.eqb (pe_projectId evt) projectId && String.eqb (pe_type evt) type
  | _ => false
  end.

Definition is_job_notice (projectId type : string) (e : Z * Obs) : bool :=
  match e.2 with
  | ObsProviderJob evt =>
      String.eqb (je_projectId evt) projectId && String.eqb (je_type evt) type
  | _ => false
  end.

Definition events (projectId : string) (kind : Payload → bool) (st : State) : nat :=
  count (is_event projectId kind) (trace st).

Definition project_notices (projectId type : string) (st : State) : nat :=
  count (is_project_notice projectId type) (trace st).

Definition job_notices (projectId type : string) (st : State) : nat :=
  count (is_job_notice projectId type) (trace st).

Definition of_project (projectId : string) (c : Closure) : bool :=
  String.eqb (cl_projectId c) projectId.

(** A pending completion timer of the project, a parked [onJob] call of
    the project. *)
Definition completes (projectId : string) (t : Timer) : bool :=
  match action t with
  | TCompleted c => of_project projectId c
  | TCleanup _ => false
  end.

Definition parked (projectId : string) (p : Pending) : bool :=
  of_project projectId (pd_closure p).

(** What was pushed for the project, together with what is still to
    come, is covered by what the provider announced: progress Events by
    progress notices, job completions (pushed or parked) by job completion
    notices, completions (pushed or on a timer) by completion notices, and
    failures together with the listeners still on by the registrations. *)
Definition once_inv (projectId : string) (st : State) : Prop :=
  (events projectId is_progress st ≤ job_notices projectId "progress" st)%nat
  ∧ (events projectId is_job_completed st + count (parked projectId) (awaiting st)
       ≤ job_notices projectId "completed" st)%nat
  ∧ (events projectId is_completed st + count (completes projectId) (timers st)
       ≤ project_notices projectId "completed" st)%nat
  ∧ (events projectId is_failed st + count (of_project projectId) (projectListeners st)
       ≤ registrations projectId st)%nat.

(** * The rest of the server module *)

(** ** The allowed origins *)

(** String methods the set-up code uses. Strings are sequences of code
    units below 256; among these the white space and line terminators of
    ECMAScript are 9 to 13, 32 and 160. *)
Module JSString.

Definition is_white_space (c : ascii) : bool :=
  let n := nat_of_ascii c in
  ((9 <=? n)%nat && (n <=? 13)%nat) || (n =? 32)%nat || (n =? 160)%nat.

Fixpoint trimStart (s : string) : string :=
  match s with
  | EmptyString => EmptyString
  | String c rest => if is_white_space c then trimStart rest else s
  end.

Fixpoint trimEnd (s : string) : string :=
  match s with
  | EmptyString => EmptyString
  | String c rest =>
      match trimEnd rest with
      | EmptyString => if is_white_space c then EmptyString else String c EmptyString
      | kept => String c kept
      end
  end.

(** [s.trim()]. *)
Definition trim (s : string) : string := trimEnd (trimStart s).

(** [s.split(sep)] for a separator of one code unit: one piece more than
    there are separators, empty pieces included. *)
Fixpoint split (sep : ascii) (s : string) : list string :=
  match s with
  | EmptyString => [EmptyString]
  | String c rest =>
      if Ascii.eqb c sep then EmptyString :: split sep rest
      else match split sep rest with
           | piece :: pieces => String c piece :: pieces
           | [] => [String c EmptyString]
           end
  end.

(** [arr.includes(s)]. *)
Definition includes (arr : list string) (s : string) : bool :=
  existsb (String.eqb s) arr.

End JSString.

(** [origins], computed once from [process.env.CLIENT_ORIGIN] ([None]:
    the variable is not set). *)
Definition origins (CLIENT_ORIGIN : option string) : list string :=
  let value :=
    match CLIENT_ORIGIN with
    | Some s => if JS.truthy s then s else "http://localhost:5173"%string
    | None => "http://localhost:5173"%string
    end in
  List.filter JS.truthy (map JSString.trim (JSString.split "," value)).

(** What the [origin] callback of the CORS middleware hands to [cb]:
    [cb(null, true)] or [cb(new Error(...))]. *)
Inductive CorsDecision :=
| CorsAllowed
| CorsBlocked (message : string).

(** [origin] is the request's Origin header, [None] when it has none. *)
Definition cors_origin (allowed : list string) (origin : option string) : CorsDecision :=
  match origin with
  | None => CorsAllowed
  | Some o =>
      if negb (JS.truthy o) || JSString.includes allowed o then CorsAllowed
      else CorsBlocked ("Blocked by CORS: " +:+ o)
  end.

(** Every code unit of the string satisfies the test. *)
Definition all_chars (f : ascii → bool) (s : string) : bool :=
  forallb f (list_ascii_of_string s).

Definition is_comma (c : ascii) : bool := Ascii.eqb c ",".

(** ** The provider client: [getSogniClient] *)

(** [process.env.NAME || fallback]: the fallback is taken when the
    variable is not set ([None]) or empty. *)
Definition env_or (value : option string) (fallback : string) : string :=
  match value with
  | Some s => if JS.truthy s then s else fallback
  | None => fallback
  end.

Record ProcessEnv := {
  SOGNI_ENV : option string;
  SOGNI_APP_ID : option string;
  SOGNI_USERNAME : option string;
  SOGNI_PASSWORD : option string
}.

Record Endpoints := { socket : string; api : string }.

(** The own properties of the object literal [hosts]. *)
Definition hosts : list (string * Endpoints) :=
  [ ("local"%string,
     {| socket := "wss://socket-local.sogni.ai"; api := "https://api-local.sogni.ai" |});
    ("staging"%string,
     {| socket := "wss://socket-staging.sogni.ai"; api := "https://api-staging.sogni.ai" |});
    ("production"%string,
     {| socket := "wss://socket.sogni.ai"; api := "https://api.sogni.ai" |}) ].

(** The property names every object literal inherits from
    [Object.prototype]. *)
Definition Object_prototype : list string :=
  [ "constructor"; "hasOwnProperty"; "isPrototypeOf"; "propertyIsEnumerable";
    "toLocaleString"; "toString"; "valueOf"; "__proto__";
    "__defineGetter__"; "__defineSetter__"; "__lookupGetter__";
    "__lookupSetter__" ]%string.

Fixpoint own_property (o : list (string * Endpoints)) (name : string) : option Endpoints :=
  match o with
  | [] => None
  | (key, value) :: rest => if String.eqb key name then Some value else own_property rest name
  end.

(** [hosts[env] || hosts.production], read through [.api] and [.socket]:
    an inherited property is a function or an object, which is truthy and
    has neither field, so both reads give [undefined] ([None]). *)
Definition endpoints_of (env : string) : option Endpoints :=
  match own_property hosts env with
  | Some endpoints => Some endpoints
  | None =>
      if JSString.includes Object_prototype env then None
      else own_property hosts "production"
  end.

(** The options object handed to [SogniClient.createInstance]. *)
Record InstanceOptions := {
  appId : string;
  testnet : bool;
  network : string;
  restEndpoint : option string;
  socketEndpoint : option string;
  logLevel : string
}.

(** [Date_now] is what [Date.now()] gives, in milliseconds. *)
Definition instance_options (env : ProcessEnv) (Date_now : Z) : InstanceOptions :=
  let name := env_or (SOGNI_ENV env) "production" in
  let endpoints := endpoints_of name in
  {| appId := env_or (SOGNI_APP_ID env) ("one-piece-generator-" +:+ pretty Date_now);
     testnet := negb (String.eqb name "production");
     network := "fast";
     restEndpoint := api <$> endpoints;
     socketEndpoint := socket <$> endpoints;
     logLevel := "info" |}.

(** A promise settles: it resolves with a value or rejects with an error
    object, of which the message is kept. *)
Inductive Settled (A : Type) :=
| Resolved (a : A)
| Rejected (message : string).
Arguments Resolved {A} a.
Arguments Rejected {A} message.

(** The client object [createInstance] resolves with, by its identity. *)
Record Client := { client_id : nat }.

(** The calls [getSogniClient] makes to the outside. *)
Inductive SdkCall :=
| Import
| CreateInstance (options : InstanceOptions)
| Login (username password : string).

(** The credentials, when both variables are set and non-empty. *)
Definition credentials (env : ProcessEnv) : option (string * string) :=
  match SOGNI_USERNAME env, SOGNI_PASSWORD env with
  | Some username, Some password =>
      if JS.truthy username && JS.truthy password then Some (username, password) else None
  | _, _ => None
  end.

(** [getSogniClient] is an [async] function with three [await]s: a call
    runs up to the next [await], and goes on when the awaited promise
    settles; other calls run in between. A call in flight is known by the
    number of the call and by what it waits for. *)
Inductive Waiting :=
| ForImport
| ForInstance
| ForLogin (client : Client).

Record Flight := { flight_call : nat; waiting : Waiting }.

(** The module variable [sogniClient], the outside calls made so far
    (oldest first), the calls in flight, what the promises of the finished
    calls settled to, and the number of the next call. *)
Record Gateway := {
  sogniClient : option Client;
  sdk_calls : list SdkCall;
  flights : list Flight;
  settled : list (nat * Settled Client);
  nextCall : nat
}.

Definition gateway_init : Gateway :=
  {| sogniClient := None; sdk_calls := []; flights := []; settled := []; nextCall := 0 |}.

(** [sogniClient = client; return client]: the end of a call that got
    its client, where [i] is its place among the calls in flight. *)
Definition return_client (i : nat) (call : nat) (client : Client) (g : Gateway) : Gateway :=
  {| sogniClient := Some client;
     sdk_calls := sdk_calls g;
     flights := delete i (flights g);
     settled := settled g ++ [(call, Resolved client)];
     nextCall := nextCall g |}.

(** An awaited promise rejects outside the [try]: the call rejects. *)
Definition reject_call (i : nat) (call : nat) (message : string) (g : Gateway) : Gateway :=
  {| sogniClient := sogniClient g;
     sdk_calls := sdk_calls g;
     flights := delete i (flights g);
     settled := settled g ++ [(call, Rejected message)];
     nextCall := nextCall g |}.

(** The call goes on to its next [await], having made the outside call
    it now waits for. *)
Definition await (i : nat) (call : nat) (outside : SdkCall) (next : Waiting) (g : Gateway)
    : Gateway :=
  {| sogniClient := sogniClient g;
     sdk_calls := sdk_calls g ++ [outside];
     flights := <[i := {| flight_call := call; waiting := next |}]> (flights g);
     settled := settled g;
     nextCall := nextCall g |}.

(** What happens to the gateway: somebody calls [getSogniClient()], or
    the promise that the [i]-th call in flight awaits settles.
    [Date_now] is what [Date.now()] gives when the options are built. *)
Inductive GatewayInput :=
| Called
| Imported (i : nat) (result : Settled unit) (Date_now : Z)
| Instantiated (i : nat) (result : Settled Client)
| LoggedIn (i : nat) (result : Settled unit).

(** One turn of [getSogniClient]. A settlement that no call in flight
    waits for leaves the gateway alone. The rejection of [login] is caught
    and logged, and the call goes on as if it had resolved. *)
Definition getSogniClient (env : ProcessEnv) (g : Gateway) (input : GatewayInput) : Gateway :=
  match input with
  | Called =>
      match sogniClient g with
      | Some client =>
          {| sogniClient := sogniClient g; sdk_calls := sdk_calls g;
             flights := flights g;
             settled := settled g ++ [(nextCall g, Resolved client)];
             nextCall := S (nextCall g) |}
      | None =>
          {| sogniClient := None; sdk_calls := sdk_calls g ++ [Import];
             flights := flights g ++ [{| flight_call := nextCall g; waiting := ForImport |}];
             settled := settled g;
             nextCall := S (nextCall g) |}
      end
  | Imported i result Date_now =>
      match flights g !! i with
      | Some {| flight_call := call; waiting := ForImport |} =>
          match result with
          | Resolved _ =>
              await i call (CreateInstance (instance_options env Date_now)) ForInstance g
          | Rejected message => reject_call i call message g
          end
      | _ => g
      end
  | Instantiated i result =>
      match flights g !! i with
      | Some {| flight_call := call; waiting := ForInstance |} =>
          match result with
          | Resolved client =>
              match credentials env with
              | Some (username, password) =>
                  await i call (Login username password) (ForLogin client) g
              | None => return_client i call client g
              end
          | Rejected message => reject_call i call message g
          end
      | _ => g
      end
  | LoggedIn i _ =>
      match flights g !! i with
      | Some {| flight_call := call; waiting := ForLogin client |} =>
          return_client i call client g
      | _ => g
      end
  end.

Definition gateway_run (env : ProcessEnv) (g : Gateway) (inputs : list GatewayInput)
    : Gateway :=
  fold_left (getSogniClient env) inputs g.

(** The client was handed out by [createInstance]. *)
Definition instantiated (inputs : list GatewayInput) (client : Client) : Prop :=
  ∃ i, Instantiated i (Resolved client) ∈ inputs.

(** Every client the gateway knows of (cached, returned by a call, or
    held by a call waiting for its login) was handed out by
    [createInstance]. *)
Definition clients_inv (inputs : list GatewayInput) (g : Gateway) : Prop :=
  (∀ client, sogniClient g = Some client → instantiated inputs client)
  ∧ (∀ call client, (call, Resolved client) ∈ settled g → instantiated inputs client)
  ∧ (∀ i call client,
       flights g !! i = Some {| flight_call := call; waiting := ForLogin client |} →
       instantiated inputs client).

(** What the generate handler gets from [await getSogniClient()] followed
    by [await client.projects.create(...)], the latter settling as
    [create]. *)
Definition provider_result (client : Settled Client) (create : Settled Project)
    : ProviderResult :=
  match client with
  | Rejected message => ClientUnavailable message
  | Resolved _ =>
      match create with
      | Resolved project => Created project
      | Rejected message => CreateRejected message
      end
  end.

(** GET /api/health. *)
Definition health (env : ProcessEnv) : bool * string :=
  (true, env_or (SOGNI_ENV env) "production").

(** * The web client: src/web/src/App.tsx *)

(** ** Its data *)

(** [aspectRatio] is declared and never set; it is left out. *)
Record AnimeImage := {
  image_id : string;
  image_url : string;
  image_prompt : string;
  image_loadTime : Z
}.

(** [sse] holds an [EventSource], by its identity. *)
Record GenerationSession := {
  session_id : string;
  session_basePrompt : string;
  session_character : string;
  session_style : string;
  session_images : list AnimeImage;
  session_generating : bool;
  session_progress : Z;
  session_sse : option nat;
  session_error : option string;
  session_seed : option Z
}.

Record Refinement := {
  refinement_label : string;
  refinement_value : string;
  lockSeed : bool
}.

Definition ONE_PIECE_REFINEMENTS : list Refinement :=
  [ {| refinement_label := "More Action";
       refinement_value := "dynamic action pose, intense battle scene"; lockSeed := true |};
    {| refinement_label := "More Detailed";
       refinement_value := "intricate linework, detailed shading"; lockSeed := true |};
    {| refinement_label := "More Colorful";
       refinement_value := "vibrant anime colors, rich palette"; lockSeed := true |};
    {| refinement_label := "More Manga Style";
       refinement_value := "black and white, manga panel style"; lockSeed := true |};
    {| refinement_label := "More Emotional";
       refinement_value := "dramatic close-up, emotional expression"; lockSeed := true |};
    {| refinement_label := "More Comedic";
       refinement_value := "chibi style, exaggerated expression"; lockSeed := true |};
    {| refinement_label := "More Background";
       refinement_value := "detailed background, location setting"; lockSeed := true |};
    {| refinement_label := "More Power";
       refinement_value := "Devil Fruit ability activation, energy effects"; lockSeed := true |};
    {| refinement_label := "More Crew";
       refinement_value := "with Straw Hat crew members"; lockSeed := false |};
    {| refinement_label := "More Villain";
       refinement_value := "featuring antagonist characters"; lockSeed := false |};
    {| refinement_label := "More Marine";
       refinement_value := "with Marine characters"; lockSeed := false |};
    {| refinement_label := "More Wanted Poster";
       refinement_value := "wanted poster style, bounty display"; lockSeed := true |};
    {| refinement_label := "More Gear";
       refinement_value := "Gear transformation, power up"; lockSeed := true |};
    {| refinement_label := "More Haki";
       refinement_value := "using Haki, aura effects"; lockSeed := true |};
    {| refinement_label := "More Ship";
       refinement_value := "on the Thousand Sunny"; lockSeed := true |};
    {| refinement_label := "More Variations";
       refinement_value := "same concept, different interpretation"; lockSeed := false |} ].

(** The state of the component: its [useState] cells and [useRef]
    counters, and the event sources on which [close()] was called. *)
Record App := {
  prompt : string;
  selectedCharacter : string;
  selectedStyle : string;
  currentSession : option GenerationSession;
  heroImage : option AnimeImage;
  heroIndex : Z;
  heroSession : option GenerationSession;
  sessionHistory : list GenerationSession;
  sessionCounter : nat;
  imageCounter : nat;
  closed : list nat
}.

(** ** The requests it sends *)

(** [API_BASE]: the configured base URL without the slashes at its end,
    or the empty string when none is configured. [strip_slashes] is
    [replace(/\/+$/, '')]. *)
Fixpoint strip_slashes (s : string) : string :=
  match s with
  | EmptyString => EmptyString
  | String c rest =>
      match strip_slashes rest with
      | EmptyString => if Ascii.eqb c "/" then EmptyString else String c EmptyString
      | kept => String c kept
      end
  end.

Definition API_BASE (VITE_API_BASE_URL : option string) : string :=
  match VITE_API_BASE_URL with
  | Some url => if JS.truthy url then strip_slashes url else EmptyString
  | None => EmptyString
  end.

Definition generate_url (VITE_API_BASE_URL : option string) : string :=
  API_BASE VITE_API_BASE_URL +:+ "/api/generate".

(** The object given to [JSON.stringify] for the body of POST
    /api/generate; a key whose value is [undefined] is not sent. *)
Record RequestBody := {
  rb_prompt : string;
  rb_character : string;
  rb_style : string;
  rb_refinement : option string;
  rb_seed : option Z
}.

(** The body [startGeneration] sends: the session's seed is not in it. *)
Definition generation_body (basePrompt character style : string) : RequestBody :=
  {| rb_prompt := basePrompt; rb_character := character; rb_style := style;
     rb_refinement := None; rb_seed := None |}.

(** The body [startHeroGeneration] sends. *)
Definition hero_body (basePrompt character style refinement : string) (seed : option Z)
    : RequestBody :=
  {| rb_prompt := basePrompt; rb_character := character; rb_style := style;
     rb_refinement := Some refinement; rb_seed := seed |}.

(** What the server's handler destructures from the parsed body:
    [prompt], [character], [sceneType] and [seed], nothing else. *)
Definition req_body (body : RequestBody) : GenerateBody :=
  {| body_prompt := Some (rb_prompt body);
     body_character := Some (rb_character body);
     body_sceneType := None;
     body_seed := rb_seed body |}.

(** [handleGenerate]: the arguments it calls [startGeneration] with, if
    it does. *)
Definition handleGenerate (app : App) : option (string * string * string) :=
  if JS.truthy (JSString.trim (prompt app)) then
    Some (JSString.trim (prompt app), selectedCharacter app, selectedStyle app)
  else None.

(** [handleRefinementClick]: the arguments it calls [startHeroGeneration]
    with, if it does. *)
Definition handleRefinementClick (refinement : Refinement) (app : App)
    : option (string * string * string * string * option Z) :=
  match heroImage app, currentSession app with
  | Some image, Some session =>
      let seed := if lockSeed refinement then session_seed session else Some (-1) in
      Some (image_prompt image, selectedCharacter app, selectedStyle app,
            refinement_value refinement, seed)
  | _, _ => None
  end.

(** ** Its sessions *)

(** [nextSessionId] and [nextImageId] for the counter value they
    increment to. *)
Definition session_name (n : nat) : string := "op_session_" +:+ pretty n.
Definition image_name (n : nat) : string := "op_image_" +:+ pretty n.

(** The session [startGeneration] creates; [random] is what
    [Math.random()] gave, in [0, 1). *)
Definition new_session (sessionId basePrompt character style : string) (random : Q)
    : GenerationSession :=
  {| session_id := sessionId; session_basePrompt := basePrompt;
     session_character := character; session_style := style;
     session_images := []; session_generating := true; session_progress := 0;
     session_sse := None; session_error := None;
     session_seed := Some (Qfloor (random * 1000000)) |}.

(** The session [startHeroGeneration] creates. *)
Definition new_hero_session (sessionId basePrompt character style : string)
    (seed : option Z) : GenerationSession :=
  {| session_id := sessionId; session_basePrompt := basePrompt;
     session_character := character; session_style := style;
     session_images := []; session_generating := true; session_progress := 0;
     session_sse := None; session_error := None; session_seed := seed |}.

(** [{ ...prev, images }] and [{ ...prev, generating: false, sse: null }]. *)
Definition with_images (prev : GenerationSession) (images : list AnimeImage)
    : GenerationSession :=
  {| session_id := session_id prev; session_basePrompt := session_basePrompt prev;
     session_character := session_character prev; session_style := session_style prev;
     session_images := images; session_generating := session_generating prev;
     session_progress := session_progress prev; session_sse := session_sse prev;
     session_error := session_error prev; session_seed := session_seed prev |}.

Definition finished (prev : GenerationSession) : GenerationSession :=
  {| session_id := session_id prev; session_basePrompt := session_basePrompt prev;
     session_character := session_character prev; session_style := session_style prev;
     session_images := session_images prev; session_generating := false;
     session_progress := session_progress prev; session_sse := None;
     session_error := session_error prev; session_seed := session_seed prev |}.

Definition set_currentSession (v : option GenerationSession) (app : App) : App :=
  {| prompt := prompt app; selectedCharacter := selectedCharacter app;
     selectedStyle := selectedStyle app; currentSession := v;
     heroImage := heroImage app; heroIndex := heroIndex app;
     heroSession := heroSession app; sessionHistory := sessionHistory app;
     sessionCounter := sessionCounter app; imageCounter := imageCounter app;
     closed := closed app |}.

Definition set_heroSession (v : option GenerationSession) (app : App) : App :=
  {| prompt := prompt app; selectedCharacter := selectedCharacter app;
     selectedStyle := selectedStyle app; currentSession := currentSession app;
     heroImage := heroImage app; heroIndex := heroIndex app;
     heroSession := v; sessionHistory := sessionHistory app;
     sessionCounter := sessionCounter app; imageCounter := imageCounter app;
     closed := closed app |}.

Definition set_sessionHistory (v : list GenerationSession) (app : App) : App :=
  {| prompt := prompt app; selectedCharacter := selectedCharacter app;
     selectedStyle := selectedStyle app; currentSession := currentSession app;
     heroImage := heroImage app; heroIndex := heroIndex app;
     heroSession := heroSession app; sessionHistory := v;
     sessionCounter := sessionCounter app; imageCounter := imageCounter app;
     closed := closed app |}.

Definition set_imageCounter (v : nat) (app : App) : App :=
  {| prompt := prompt app; selectedCharacter := selectedCharacter app;
     selectedStyle := selectedStyle app; currentSession := currentSession app;
     heroImage := heroImage app; heroIndex := heroIndex app;
     heroSession := heroSession app; sessionHistory := sessionHistory app;
     sessionCounter := sessionCounter app; imageCounter := v;
     closed := closed app |}.

Definition set_hero (image : option AnimeImage) (index : Z) (app : App) : App :=
  {| prompt := prompt app; selectedCharacter := selectedCharacter app;
     selectedStyle := selectedStyle app; currentSession := currentSession app;
     heroImage := image; heroIndex := index;
     heroSession := heroSession app; sessionHistory := sessionHistory app;
     sessionCounter := sessionCounter app; imageCounter := imageCounter app;
     closed := closed app |}.

(** [es.close()]. *)
Definition es_close (es : nat) (app : App) : App :=
  {| prompt := prompt app; selectedCharacter := selectedCharacter app;
     selectedStyle := selectedStyle app; currentSession := currentSession app;
     heroImage := heroImage app; heroIndex := heroIndex app;
     heroSession := heroSession app; sessionHistory := sessionHistory app;
     sessionCounter := sessionCounter app; imageCounter := imageCounter app;
     closed := closed app ++ [es] |}.

(** ** What a message of the event stream does *)

(** The image a [jobCompleted] message adds, [n] being the value
    [nextImageId] increments the counter to. *)
Definition newImage (n : nat) (resultUrl positivePrompt basePrompt : string)
    (Date_now : Z) : AnimeImage :=
  {| image_id := image_name n; image_url := resultUrl;
     image_prompt := if JS.truthy positivePrompt then positivePrompt else basePrompt;
     image_loadTime := Date_now |}.

(** [es.onmessage] of [startGeneration], for the parsed data of a frame
    the server sent. [sessionId], [basePrompt] and [es] are what the
    handler closed over. The state updaters it passes to React are run
    once each, in the order they were queued. *)
Definition onmessage (sessionId basePrompt : string) (es : nat)
    (data : Payload) (Date_now : Z) (app : App) : App :=
  match currentSession app with
  | None => app
  | Some prev =>
      if negb (String.eqb (session_id prev) sessionId) then app
      else
        match data with
        | PJobCompleted _ resultUrl positivePrompt =>
            if JS.truthy resultUrl then
              let n := S (imageCounter app) in
              let image := newImage n resultUrl positivePrompt basePrompt Date_now in
              set_currentSession
                (Some (with_images prev (session_images prev ++ [image])))
                (set_imageCounter n app)
            else app
        | PCompleted =>
            set_currentSession (Some (finished prev))
              (set_sessionHistory (prev :: take 9 (sessionHistory app))
                 (es_close es app))
        | _ => app
        end
  end.

(** [es.onmessage] of [startHeroGeneration]. *)
Definition onmessage_hero (sessionId basePrompt : string) (es : nat)
    (data : Payload) (Date_now : Z) (app : App) : App :=
  match heroSession app with
  | None => app
  | Some prev =>
      if negb (String.eqb (session_id prev) sessionId) then app
      else
        match data with
        | PJobCompleted _ resultUrl positivePrompt =>
            if JS.truthy resultUrl then
              let n := S (imageCounter app) in
              let image := newImage n resultUrl positivePrompt basePrompt Date_now in
              set_heroSession
                (Some (with_images prev (session_images prev ++ [image])))
                (set_imageCounter n app)
            else app
        | PCompleted =>
            set_heroSession (Some (finished prev)) (es_close es app)
        | _ => app
        end
  end.

(** A message event of the browser: which handler it is for, and the
    data. The browser dispatches none on a closed event source. *)
Record Message := {
  msg_hero : bool;
  msg_sessionId : string;
  msg_basePrompt : string;
  msg_es : nat;
  msg_data : Payload;
  msg_Date_now : Z
}.

Definition dispatch (app : App) (m : Message) : App :=
  if bool_decide (msg_es m ∈ closed app) then app
  else if msg_hero m then
    onmessage_hero (msg_sessionId m) (msg_basePrompt m) (msg_es m) (msg_data m)
      (msg_Date_now m) app
  else
    onmessage (msg_sessionId m) (msg_basePrompt m) (msg_es m) (msg_data m)
      (msg_Date_now m) app.

(** ** The hero view *)

Inductive Direction := prev_image | next_image.

(** [images[i]] for an index that may be negative or past the end. *)
Definition image_at (images : list AnimeImage) (i : Z) : option AnimeImage :=
  if i <? 0 then None else images !! Z.to_nat i.

Definition newIndex (direction : Direction) (heroIndex length : Z) : Z :=
  match direction with
  | prev_image => if 0 <? heroIndex then heroIndex - 1 else length - 1
  | next_image => if heroIndex <? length - 1 then heroIndex + 1 else 0
  end.

Definition navigateHero (direction : Direction) (app : App) : App :=
  let activeSession :=
    match heroSession app with
    | Some session => Some session
    | None => currentSession app
    end in
  match activeSession with
  | None => app
  | Some session =>
      let i := newIndex direction (heroIndex app) (Z.of_nat (length (session_images session))) in
      set_hero (image_at (session_images session) i) i app
  end.

(** [images.findIndex(img => img.id === id)]. *)
Fixpoint findIndex_from (id : string) (images : list AnimeImage) (i : Z) : Z :=
  match images with
  | [] => -1
  | image :: rest =>
      if String.eqb (image_id image) id then i else findIndex_from id rest (i + 1)
  end.

Definition handleImageClick (image : AnimeImage) (app : App) : App :=
  match currentSession app with
  | None => app
  | Some session =>
      set_heroSession None
        (set_hero (Some image) (findIndex_from (image_id image) (session_images session) 0) app)
  end.

(** ** The requests of the two buttons *)

(** The Create button is part of the main view, which is rendered only
    while there is no hero image. *)
Definition create_button_rendered (app : App) : bool :=
  match heroImage app with
  | Some _ => false
  | None => true
  end.

(** Its [disabled] attribute:
    [!prompt.trim() || currentSession?.generating]. *)
Definition create_button_disabled (app : App) : bool :=
  negb (JS.truthy (JSString.trim (prompt app)))
  || match currentSession app with
     | Some session => session_generating session
     | None => false
     end.

(** The body a click on the Create button sends, if it sends one: the
    click reaches [handleGenerate] only when the button is on the page as
    last rendered and is not disabled. *)
Definition generation_request (app : App) : option RequestBody :=
  if create_button_rendered app && negb (create_button_disabled app) then
    match handleGenerate app with
    | Some (basePrompt, character, style) =>
        Some (generation_body basePrompt character style)
    | None => None
    end
  else None.

(** The body a click on a refinement sends, if it sends one. *)
Definition refinement_request (refinement : Refinement) (app : App) : option RequestBody :=
  match handleRefinementClick refinement app with
  | Some (basePrompt, character, style, value, seed) =>
      Some (hero_body basePrompt character style value seed)
  | None => None
  end.

(** The positive prompt the provider gets for a request that names a
    character and no scene. *)
Definition first_prompt (character basePrompt : string) : string :=
  character +:+ ", " +:+ basePrompt
    +:+ ", on the Thousand Sunny, Eiichiro Oda art style, official One Piece artwork, detailed anime illustration, vibrant colors, dynamic composition".

(** The seed the server hands on: none for an absent seed and for -1. *)
Definition seed_sent (seed : option Z) : option Z :=
  cp_seed (create_params [] seed).

(** ** Vocabulary of the client's properties *)

(** The session the hero view navigates in. *)
Definition activeSession (app : App) : option GenerationSession :=
  match heroSession app with
  | Some session => Some session
  | None => currentSession app
  end.

(** The images carry the names of pairwise different counter values, none
    above [n]. *)
Definition numbered (n : nat) (images : list AnimeImage) : Prop :=
  ∃ ks, map image_id images = map image_name ks
        ∧ NoDup ks ∧ ∀ k, k ∈ ks → (k ≤ n)%nat.

Definition images_of (session : option GenerationSession) : list AnimeImage :=
  match session with
  | Some s => session_images s
  | None => []
  end.

(** The message is a progress report or a failure. *)
Definition no_result (m : Message) : bool :=
  is_progress (msg_data m) || is_failed (msg_data m).

(** What stays of a session whatever messages arrive. *)
Definition same_session (a b : option GenerationSession) : Prop :=
  match a, b with
  | Some s, Some s' =>
      session_id s' = session_id s ∧ session_basePrompt s' = session_basePrompt s
      ∧ session_seed s' = session_seed s
      ∧ ∃ more, session_images s' = session_images s ++ more
  | None, None => True
  | _, _ => False
  end.

Definition is_slash (c : ascii) : bool := Ascii.eqb c "/".

(** The last code unit of the string is a slash. *)
Fixpoint ends_with_slash (s : string) : bool :=
  match s with
  | EmptyString => false
  | String c EmptyString => is_slash c
  | String _ rest => ends_with_slash rest
  end.

(** A job-level event of a type the handlers do not know. *)
Definition job_error_event (jobId : string) : JobEvent :=
  {| je_type := "error"; je_projectId := "P1"; je_jobId := jobId;
     je_progress := 0; je_resultUrl := None; je_positivePrompt := EmptyString |}.

Definition project_P2 : Project :=
  {| project_id := "P2"; project_jobs := [ {| job_id := "K0" |} ] |}.

(** Two accepted projects, each with one subscriber. *)
Definition two_projects : State :=
  run init [ SseOpen "P1" 7; SseOpen "P2" 8;
             PostGenerate battle_scene (Created (project_P1 ["J0"; "J1"]%string));
             PostGenerate battle_scene (Created project_P2) ].

Definition P2_progress : JobEvent :=
  {| je_type := "progress"; je_projectId := "P2"; je_jobId := "K0";
     je_progress := 1 # 4; je_resultUrl := None; je_positivePrompt := EmptyString |}.

(** An environment with credentials. *)
Definition sample_env : ProcessEnv :=
  {| SOGNI_ENV := Some "staging"%string; SOGNI_APP_ID := Some "op"%string;
     SOGNI_USERNAME := Some "nami"%string; SOGNI_PASSWORD := Some "berry"%string |}.

(** Two requests arrive before the first client exists: both calls find
    the cache empty. The second call's login is rejected first, the first
    call's login resolves after it. *)
Definition overlapping_calls : list GatewayInput :=
  [ Called; Called;
    Imported 0 (Resolved tt) 1700000000000;
    Imported 1 (Resolved tt) 1700000000001;
    Instantiated 0 (Resolved {| client_id := 1 |});
    Instantiated 1 (Resolved {| client_id := 2 |});
    LoggedIn 1 (Rejected "Invalid credentials");
    LoggedIn 0 (Resolved tt) ].

Definition two_first_calls : Gateway :=
  gateway_run sample_env gateway_init overlapping_calls.

(** The client with a prompt typed in, before anything was generated. *)
Definition sample_app : App :=
  {| prompt := "  Nami drawing a map "; selectedCharacter := "Nami";
     selectedStyle := "Wanted poster style"; currentSession := None;
     heroImage := None; heroIndex := 0; heroSession := None;
     sessionHistory := []; sessionCounter := 0; imageCounter := 0; closed := [] |}.

(** A session with one image, shown in the hero view. *)
Definition sample_image : AnimeImage :=
  {| image_id := image_name 1; image_url := "https://cdn/J0.png";
     image_prompt := "Nami, Nami drawing a map"; image_loadTime := 1700000000000 |}.

Definition sample_session : GenerationSession :=
  with_images (new_session (session_name 1) "Nami drawing a map" "Nami"
                 "Wanted poster style" (1 # 3))
    [sample_image].

Definition sample_hero : App :=
  {| prompt := "  Nami drawing a map "; selectedCharacter := "Nami";
     selectedStyle := "Wanted poster style"; currentSession := Some sample_session;
     heroImage := Some sample_image; heroIndex := 0; heroSession := None;
     sessionHistory := []; sessionCounter := 1; imageCounter := 1; closed := [] |}.

(** The ninth refinement of the list, "More Crew", which does not lock
    the seed. *)
Definition more_crew : Refinement :=
  nth 8 ONE_PIECE_REFINEMENTS
    {| refinement_label := EmptyString; refinement_value := EmptyString;
       lockSeed := true |}.

(** A new generation was started while a refinement is still running:
    both sessions are as their start functions made them, and five images
    were made before. *)
Definition two_new_sessions : App :=
  {| prompt := "Zoro fighting with three swords"; selectedCharacter := "Roronoa Zoro";
     selectedStyle := "Battle scene";
     currentSession :=
       Some (new_session (session_name 2) "Zoro fighting with three swords"
               "Roronoa Zoro" "Battle scene" (1 # 3));
     heroImage := None; heroIndex := 0;
     heroSession :=
       Some (new_hero_session (session_name 3) "Nami, Nami drawing a map"
               "Roronoa Zoro" "Battle scene" (Some (-1)));
     sessionHistory := []; sessionCounter := 3; imageCounter := 5; closed := [] |}.

(** Job completions of the two streams, interleaved. *)
Definition interleaved_messages : list Message :=
  [ {| msg_hero := false; msg_sessionId := session_name 2;
       msg_basePrompt := "Zoro fighting with three swords"; msg_es := 4;
       msg_data := PJobCompleted "J0" "https://cdn/J0.png" EmptyString;
       msg_Date_now := 1700000001000 |};
    {| msg_hero := true; msg_sessionId := session_name 3;
       msg_basePrompt := "Nami, Nami drawing a map"; msg_es := 5;
       msg_data := PJobCompleted "K0" "https://cdn/K0.png" "Nami, refined";
       msg_Date_now := 1700000002000 |};
    {| msg_hero := false; msg_sessionId := session_name 2;
       msg_basePrompt := "Zoro fighting with three swords"; msg_es := 4;
       msg_data := PJobCompleted "J1" "https://cdn/J1.png" EmptyString;
       msg_Date_now := 1700000003000 |} ].

(** The image the third message makes. *)
Definition third_image : AnimeImage :=
  newImage 8 "https://cdn/J1.png" EmptyString "Zoro fighting with three swords"
    1700000003000.

(** ** More sample requests, events and states *)

(** A request whose prompt is the empty string. *)
Definition no_prompt : GenerateBody :=
  {| body_prompt := Some EmptyString; body_character := Some "Nami"%string;
     body_sceneType := None; body_seed := Some 7 |}.

(** * Properties *)

(** ** The monad *)

Lemma state_eta st :
  {| sseClients := sseClients st; activeProjects := activeProjects st;
     projectListeners := projectListeners st; jobListeners := jobListeners st;
     timers := timers st; awaiting := awaiting st; channels := channels st;
     now := now st; nextClosure := nextClosure st; trace := trace st |} = st.
Proof. by destruct st. Qed.

Lemma set_channels_id st : set_channels (channels st) st = st.
Proof. apply state_eta. Qed.

(** ** The fan-out *)

Lemma try_write_eq res data st :
  try_catch (res_write res data) st = Ok tt (set_channels (write_to data res (channels st)) st).
Proof.
  unfold try_catch, res_write, write_to.
  destruct (channels st !! res) as [ch|]; [destruct (writable ch)|];
    by rewrite ?set_channels_id.
Qed.

Lemma forEach_write data clients st :
  forEach clients (fun res => try_catch (res_write res data)) st
  = Ok tt (set_channels (fanout data clients (channels st)) st).
Proof.
  revert st. induction clients as [|res clients IH]; intros st; cbn.
  - by rewrite set_channels_id.
  - unfold bind. rewrite try_write_eq, IH. reflexivity.
Qed.

(** [emitToProject] in closed form: it records the push and rewrites the
    channels of the project's subscribers, nothing else. *)
Lemma emitToProject_eq projectId payload st :
  emitToProject projectId payload st
  = Ok tt (set_channels
             (fanout (sse_data projectId payload)
                     (default [] (sseClients st !! projectId)) (channels st))
             (observe (ObsEmit projectId payload) st)).
Proof.
  unfold emitToProject, bind, modify, gets. cbn.
  destruct (sseClients st !! projectId) as [clients|]; cbn.
  - by rewrite forEach_write.
  - unfold ret. by rewrite <- (set_channels_id (observe _ st)) at 1.
Qed.

Lemma write_to_other data res k chs :
  k ≠ res → write_to data res chs !! k = chs !! k.
Proof.
  intros Hne. unfold write_to.
  destruct (chs !! res) as [ch|]; [destruct (writable ch)|]; try done.
  by rewrite lookup_insert_ne.
Qed.

Lemma fanout_not_subscribed data clients chs k :
  k ∉ clients → fanout data clients chs !! k = chs !! k.
Proof.
  revert chs. induction clients as [|res clients IH]; intros chs Hk; cbn; [done|].
  apply not_elem_of_cons in Hk as [Hne Hk].
  unfold fanout in IH. rewrite IH by done. by apply write_to_other.
Qed.

Lemma fanout_unwritable data clients chs k ch :
  chs !! k = Some ch → writable ch = false →
  fanout data clients chs !! k = Some ch.
Proof.
  revert chs. induction clients as [|res clients IH]; intros chs Hk Hw; cbn; [done|].
  apply IH; [|done].
  destruct (decide (k = res)) as [->|Hne].
  - unfold write_to. by rewrite Hk, Hw.
  - by rewrite write_to_other.
Qed.

Lemma fanout_writable data clients chs k ch :
  NoDup clients → k ∈ clients →
  chs !! k = Some ch → writable ch = true →
  fanout data clients chs !! k
  = Some {| writable := true; received := data :: received ch |}.
Proof.
  revert chs. induction clients as [|res clients IH]; intros chs Hnd Hin Hk Hw.
  - by apply elem_of_nil in Hin.
  - apply NoDup_cons in Hnd as [Hfresh Hnd]. cbn.
    apply elem_of_cons in Hin as [->|Hin].
    + change (fold_left _ clients ?c) with (fanout data clients c).
      rewrite fanout_not_subscribed by done.
      unfold write_to. rewrite Hk, Hw. by rewrite lookup_insert_eq.
    + apply IH; try done.
      rewrite write_to_other; [done|]. intros ->. contradiction.
Qed.

Lemma delivered_after_write k st st' ch data :
  channels st !! k = Some ch →
  channels st' !! k = Some {| writable := true; received := data :: received ch |} →
  delivered k st' = delivered k st ++ [data].
Proof. unfold delivered. by intros -> ->. Qed.

(** C5, the claim as stated fails: the write to subscriber 2 throws, the
    broadcast completes, and subscriber 2 is still in the project's set. *)
Lemma C5_dead_subscriber_stays :
  ∃ st',
    emitToProject "P1" PCompleted hub_with_dead_subscriber = Ok tt st'
    ∧ (∃ e st1, res_write 2 (sse_data "P1" PCompleted) hub_with_dead_subscriber = Exn e st1)
    ∧ sseClients st' !! "P1"%string = Some [1; 2; 3]%nat.
Proof.
  rewrite emitToProject_eq. eexists. split; [reflexivity|]. split.
  - by eexists _, _.
  - reflexivity.
Qed.

(** C5 (amended): a broadcast always returns normally. A write that
    throws is swallowed and leaves the subscriber set as it was (the
    failed subscriber is not removed); every subscriber whose write
    succeeds receives the frame, whatever happened to the others; a project
    with no subscriber set, or an empty one, is a no-op on the channels. *)
Theorem C5_broadcast_swallows_failed_writes st projectId payload :
  ∃ st',
    emitToProject projectId payload st = Ok tt st'
    ∧ sseClients st' = sseClients st
    ∧ (∀ clients k ch,
         sseClients st !! projectId = Some clients → NoDup clients →
         k ∈ clients → channels st !! k = Some ch → writable ch = true →
         delivered k st' = delivered k st ++ [sse_data projectId payload])
    ∧ (∀ k ch,
         channels st !! k = Some ch → writable ch = false →
         channels st' !! k = Some ch)
    ∧ (sseClients st !! projectId = None ∨ sseClients st !! projectId = Some [] →
       channels st' = channels st).
Proof.
  rewrite emitToProject_eq. eexists. split; [reflexivity|]. cbn.
  split; [reflexivity|]. split; [|split].
  - intros clients k ch Hset Hnd Hin Hk Hw.
    eapply delivered_after_write; [exact Hk|]. cbn.
    rewrite Hset. cbn. by apply fanout_writable.
  - intros k ch Hk Hw. by apply fanout_unwritable.
  - by intros [->| ->].
Qed.

(** ** Progress percentages *)

Lemma clamp01_range x : (0 <= clamp01 x <= 1)%Q.
Proof.
  unfold clamp01.
  destruct (Qle_bool x 1) eqn:H1.
  - destruct (Qle_bool 0 x) eqn:H0.
    + split; by apply Qle_bool_iff.
    + split; [apply Qle_refl | discriminate].
  - change (Qle_bool 0 1) with true. cbn. split; discriminate.
Qed.

Lemma clamp01_inside x : (0 <= x)%Q → (x <= 1)%Q → clamp01 x = x.
Proof.
  intros H0 H1. unfold clamp01.
  apply Qle_bool_iff in H0, H1. by rewrite H1, H0.
Qed.

Lemma clamp01_below x : (x <= 0)%Q → (clamp01 x == 0)%Q.
Proof.
  intros H. unfold clamp01.
  assert (Qle_bool x 1 = true) as ->.
  { apply Qle_bool_iff. eapply Qle_trans; [exact H|discriminate]. }
  destruct (Qle_bool 0 x) eqn:H0; [|reflexivity].
  apply Qle_bool_iff in H0. by apply Qle_antisym.
Qed.

Lemma clamp01_above x : (1 <= x)%Q → (clamp01 x == 1)%Q.
Proof.
  intros H. unfold clamp01.
  destruct (Qle_bool x 1) eqn:H1.
  - apply Qle_bool_iff in H1.
    assert (Qle_bool 0 x = true) as ->.
    { apply Qle_bool_iff. eapply Qle_trans; [|exact H]. discriminate. }
    by apply Qle_antisym.
  - reflexivity.
Qed.

(** ** The product in doubles *)

Lemma pow2_pos e : (0 < JS.pow2 e)%Q.
Proof.
  unfold JS.pow2. destruct (Z.leb_spec 0 e); [|reflexivity].
  rewrite <- (Zlt_Qlt 0). by apply Z.pow_pos_nonneg.
Qed.

Lemma pow2_small e : e ≤ -46 → (JS.pow2 e <= 1 # 70368744177664)%Q.
Proof.
  intros He. unfold JS.pow2. destruct (Z.leb_spec 0 e); [lia|].
  unfold Qle. cbn [Qnum Qden].
  assert (2 ^ 46 ≤ 2 ^ (- e)) as Hpow by (apply Z.pow_le_mono_r; lia).
  rewrite Z2Pos.id by lia. change (2 ^ 46) with 70368744177664 in Hpow. lia.
Qed.

Lemma round_half_even_near q :
  (q - (1 # 2) <= inject_Z (JS.round_half_even q))%Q
  ∧ (inject_Z (JS.round_half_even q) <= q + (1 # 2))%Q.
Proof.
  unfold JS.round_half_even.
  pose proof (Qfloor_le q) as Hlo. pose proof (Qlt_floor q) as Hhi.
  rewrite inject_Z_plus in Hhi.
  assert ((q - (1 # 2) <= inject_Z (Qfloor q))%Q
          → (inject_Z (Qfloor q) + 1 <= q + (1 # 2))%Q
          → (q - (1 # 2) <= inject_Z (Qfloor q + 1))%Q
            ∧ (inject_Z (Qfloor q + 1) <= q + (1 # 2))%Q
            ∧ (inject_Z (Qfloor q) <= q + (1 # 2))%Q) as Hboth.
  { intros H1 H2. rewrite inject_Z_plus. split; [|split; [done|]].
    - apply Qle_trans with (inject_Z (Qfloor q)); [done|].
      rewrite <- (Qplus_0_r (inject_Z (Qfloor q))) at 1.
      apply Qplus_le_r. discriminate.
    - apply Qle_trans with q; [done|].
      rewrite <- (Qplus_0_r q) at 1. apply Qplus_le_r. discriminate. }
  destruct (Qcompare_spec (q - inject_Z (Qfloor q)) (1 # 2)) as [Heq|Hlt|Hgt].
  - assert (q == inject_Z (Qfloor q) + (1 # 2))%Q as Hq.
    { rewrite <- Heq. ring. }
    destruct Hboth as (H1 & H2 & H3).
    + rewrite Hq at 1. apply Qle_lteq. right. ring.
    + rewrite Hq at 2. apply Qle_lteq.
      right. ring.
    + destruct (Z.even (Qfloor q)); [|done]. split; [|done].
      rewrite Hq at 1. apply Qle_lteq. right. ring.
  - split.
    + apply Qlt_le_weak. apply Qplus_lt_l with (z := (- inject_Z (Qfloor q) + (1 # 2))%Q).
      eapply Qle_lt_trans; [|eapply Qlt_le_trans; [exact Hlt|]];
        apply Qle_lteq; right; ring.
    + apply Qle_trans with q; [done|].
      rewrite <- (Qplus_0_r q) at 1. apply Qplus_le_r. discriminate.
  - rewrite inject_Z_plus. split.
    + apply Qle_trans with q.
      * rewrite <- (Qplus_0_r q) at 2. apply Qplus_le_r. discriminate.
      * by apply Qlt_le_weak.
    + apply Qlt_le_weak. apply Qplus_lt_l with (z := (- inject_Z (Qfloor q) - (1 # 2))%Q).
      eapply Qle_lt_trans; [|eapply Qlt_le_trans; [exact Hgt|]];
        apply Qle_lteq; right; ring.
Qed.

Lemma round_half_even_nonneg q : (0 <= q)%Q → 0 ≤ JS.round_half_even q.
Proof.
  intros Hq. unfold JS.round_half_even.
  assert (0 ≤ Qfloor q) as Hf.
  { change 0 with (Qfloor 0). by apply Qfloor_resp_le. }
  destruct (Qcompare _ _); [destruct (Z.even _)|..]; lia.
Qed.

(** The distance of a positive number to its double is at most half a
    unit in the last place. *)
Lemma to_double_near q :
  (0 < q)%Q →
  (0 <= JS.to_double q)%Q
  ∧ (q - JS.pow2 (JS.ulp_exponent q) * (1 # 2) <= JS.to_double q)%Q
  ∧ (JS.to_double q <= q + JS.pow2 (JS.ulp_exponent q) * (1 # 2))%Q.
Proof.
  intros Hq. unfold JS.to_double.
  assert (Qcompare q 0 = Gt) as -> by (by apply Qgt_alt).
  set (u := JS.pow2 (JS.ulp_exponent q)).
  pose proof (pow2_pos (JS.ulp_exponent q)) as Hu. fold u in Hu.
  assert (¬ (u == 0)%Q) as Hu0.
  { intros H0. rewrite H0 in Hu. by apply Qlt_irrefl in Hu. }
  destruct (round_half_even_near (q / u)) as [Hlo Hhi].
  assert (0 <= q / u)%Q as Hm.
  { apply Qle_shift_div_l; [done|]. rewrite Qmult_0_l. by apply Qlt_le_weak. }
  pose proof (round_half_even_nonneg _ Hm) as Hr.
  set (r := JS.round_half_even (q / u)) in *.
  split; [|split].
  - apply Qmult_le_0_compat; [|by apply Qlt_le_weak].
    change 0%Q with (inject_Z 0). by rewrite <- Zle_Qle.
  - apply Qle_trans with ((q / u - (1 # 2)) * u)%Q.
    + apply Qle_lteq. right. field. exact Hu0.
    + apply Qmult_le_compat_r; [done|by apply Qlt_le_weak].
  - apply Qle_trans with ((q / u + (1 # 2)) * u)%Q.
    + apply Qmult_le_compat_r; [done|by apply Qlt_le_weak].
    + apply Qle_lteq. right. field. exact Hu0.
Qed.

Lemma ilog2_small q : (0 < q)%Q → (q <= 100)%Q → JS.ilog2 q ≤ 6.
Proof.
  intros H0 H100. unfold JS.ilog2.
  assert (0 < Qnum q) as Hn.
  { unfold Qlt in H0. cbn in H0. lia. }
  assert (Qnum q ≤ 100 * Z.pos (Qden q)) as Hle.
  { unfold Qle in H100. cbn in H100. lia. }
  assert (Z.log2 (Qnum q) ≤ 7 + Z.log2 (Z.pos (Qden q))) as Hlog.
  { etrans; [apply Z.log2_le_mono, Hle|].
    etrans; [apply Z.log2_mul_above; lia|]. change (Z.log2 100) with 6. lia. }
  set (e := Z.log2 (Qnum q) - Z.log2 (Z.pos (Qden q))) in *.
  destruct (Qle_bool (JS.pow2 e) q) eqn:Htest; [|lia].
  assert (e = 7 ∨ e ≤ 6) as [->|?] by lia; [|done].
  apply Qle_bool_iff in Htest.
  assert (JS.pow2 7 <= 100)%Q as Hbad by (by eapply Qle_trans).
  by vm_compute in Hbad.
Qed.

Lemma to_double_percent q :
  (0 <= q)%Q → (q <= 100)%Q →
  (0 <= JS.to_double q)%Q
  ∧ (q - product_error <= JS.to_double q)%Q
  ∧ (JS.to_double q <= q + product_error)%Q.
Proof.
  intros H0 H100. apply Qle_lteq in H0 as [Hpos|Hzero].
  - destruct (to_double_near q Hpos) as (Hnn & Hlo & Hhi).
    assert (JS.pow2 (JS.ulp_exponent q) * (1 # 2) <= product_error)%Q as Hu.
    { change product_error with ((1 # 70368744177664) * (1 # 2))%Q.
      apply Qmult_le_compat_r; [|discriminate]. apply pow2_small.
      unfold JS.ulp_exponent. pose proof (ilog2_small q Hpos H100). lia. }
    split; [done|]. split.
    + eapply Qle_trans; [|exact Hlo]. apply Qplus_le_r, Qopp_le_compat, Hu.
    + eapply Qle_trans; [exact Hhi|]. by apply Qplus_le_r.
  - unfold JS.to_double.
    assert (Qcompare q 0 = Eq) as -> by (apply Qeq_alt; by symmetry).
    rewrite <- Hzero. by vm_compute.
Qed.

Lemma percent_range raw : 0 ≤ percent raw ≤ 100.
Proof.
  unfold percent, JS.Math_round, JS.mul.
  destruct (clamp01_range raw) as [H0 H1].
  destruct (to_double_percent (clamp01 raw * 100)) as (Hnn & _ & Hhi).
  { apply Qmult_le_0_compat; [done|discriminate]. }
  { change 100%Q with (1 * 100)%Q at 2. apply Qmult_le_compat_r; [done|discriminate]. }
  split.
  - change 0 with (Qfloor (0 + (1 # 2))). by apply Qfloor_resp_le, Qplus_le_l.
  - change 100 with (Qfloor (1 * 100 + product_error + (1 # 2))).
    apply Qfloor_resp_le, Qplus_le_l. eapply Qle_trans; [exact Hhi|].
    apply Qplus_le_l, Qmult_le_compat_r; [done|discriminate].
Qed.

Lemma percent_near raw :
  (inject_Z (percent raw) - (1 # 2) - product_error <= clamp01 raw * 100)%Q
  ∧ (clamp01 raw * 100 < inject_Z (percent raw) + (1 # 2) + product_error)%Q.
Proof.
  unfold percent, JS.Math_round, JS.mul.
  destruct (clamp01_range raw) as [H0 H1].
  destruct (to_double_percent (clamp01 raw * 100)) as (_ & Hlo & Hhi);
    [lra..|].
  set (y := (clamp01 raw * 100)%Q) in *. set (z := JS.to_double y) in *.
  pose proof (Qfloor_le (z + (1 # 2))) as Hfl.
  pose proof (Qlt_floor (z + (1 # 2))) as Hfh.
  rewrite inject_Z_plus in Hfh.
  set (p := inject_Z (Qfloor (z + (1 # 2)))) in *.
  change (inject_Z 1) with 1%Q in Hfh. split; lra.
Qed.

Lemma percent_full raw : (1 <= raw)%Q → percent raw = 100.
Proof.
  intros H. pose proof (percent_range raw) as [_ Hhi].
  destruct (percent_near raw) as [_ Hlt].
  rewrite (clamp01_above raw H) in Hlt.
  assert (99 < percent raw); [|lia].
  rewrite Zlt_Qlt. change (inject_Z 99) with 99%Q.
  unfold product_error in Hlt. lra.
Qed.

Lemma percent_none raw : (raw <= 0)%Q → percent raw = 0.
Proof.
  intros H. pose proof (percent_range raw) as [Hlo _].
  destruct (percent_near raw) as [Hle _].
  rewrite (clamp01_below raw H) in Hle.
  assert (percent raw < 1); [|lia].
  rewrite Zlt_Qlt. change (inject_Z 1) with 1%Q.
  unfold product_error in Hle. lra.
Qed.

Lemma percent_exact raw :
  (JS.to_double (clamp01 raw * 100) == clamp01 raw * 100)%Q →
  percent raw = spec_percent raw.
Proof.
  intros Hexact. unfold percent, spec_percent, JS.Math_round, JS.mul.
  apply Qfloor_comp. by rewrite Hexact.
Qed.

(** ** Reading the history: basic facts *)

Lemma emitted_of_app projectId h1 h2 :
  emitted_of projectId (h1 ++ h2) = emitted_of projectId h1 ++ emitted_of projectId h2.
Proof. unfold emitted_of. apply omap_app. Qed.

Lemma emitted_cons projectId t o tr :
  emitted_of projectId (rev ((t, o) :: tr))
  = emitted_of projectId (rev tr) ++ emitted_of projectId [(t, o)].
Proof. cbn [rev]. apply emitted_of_app. Qed.

Lemma emitted_of_emit projectId t payload :
  emitted_of projectId [(t, ObsEmit projectId payload)] = [payload].
Proof. unfold emitted_of. cbn. by rewrite String.eqb_refl. Qed.

Lemma emitted_after_emit projectId payload chs st :
  emitted projectId (set_channels chs (observe (ObsEmit projectId payload) st))
  = emitted projectId st ++ [payload].
Proof.
  unfold emitted, history. cbn [trace set_channels observe].
  by rewrite emitted_cons, emitted_of_emit.
Qed.

Lemma elem_of_history e st : e ∈ history st ↔ e ∈ trace st.
Proof. unfold history. rewrite !list_elem_of_In. symmetry. apply in_rev. Qed.

(** ** The prompt variations *)

Lemma variations_as_map basePrompt character sceneType :
  generateOnePieceVariations basePrompt character sceneType
  = map (variation_prompt basePrompt character sceneType) (seq 0 16).
Proof. reflexivity. Qed.

Lemma variations_length basePrompt character sceneType :
  length (generateOnePieceVariations basePrompt character sceneType) = 16%nat.
Proof. reflexivity. Qed.

Lemma variations_lookup basePrompt character sceneType i :
  (i < 16)%nat →
  generateOnePieceVariations basePrompt character sceneType !! i
  = Some (variation_prompt basePrompt character sceneType i).
Proof.
  intros Hi. rewrite variations_as_map, list_lookup_fmap.
  rewrite lookup_seq_lt by done. reflexivity.
Qed.

Lemma string_app_assoc (s1 s2 s3 : string) :
  (s1 +:+ s2) +:+ s3 = s1 +:+ (s2 +:+ s3).
Proof.
  induction s1 as [|a s1 IH]; [reflexivity|].
  change (String a ((s1 +:+ s2) +:+ s3) = String a (s1 +:+ (s2 +:+ s3))).
  by rewrite IH.
Qed.

Lemma diverge_app s t x y : diverge s t = true → s +:+ x ≠ t +:+ y.
Proof.
  revert t. induction s as [|a s IH]; intros [|b t] Hd; try discriminate.
  cbn in Hd. intros Heq.
  change (String a (s +:+ x) = String b (t +:+ y)) in Heq.
  injection Heq as Hab Hrest.
  destruct (Ascii.eqb a b) eqn:E.
  - by apply (IH t).
  - apply Ascii.eqb_neq in E. contradiction.
Qed.

Lemma prefix_free_app l s t x y :
  prefix_free l = true → In s l → In t l →
  s +:+ x = t +:+ y → s = t ∧ x = y.
Proof.
  intros Hpf Hs Ht Heq. unfold prefix_free in Hpf.
  rewrite forallb_forall in Hpf. specialize (Hpf s Hs).
  rewrite forallb_forall in Hpf. specialize (Hpf t Ht).
  apply orb_true_iff in Hpf as [Hst|Hd].
  - apply String.eqb_eq in Hst. subst t. split; [done|].
    by apply (inj (String.append s)).
  - by destruct (diverge_app s t x y Hd).
Qed.

Lemma nth_no_dup (l : list string) i j d :
  NoDup l → (i < length l)%nat → (j < length l)%nat →
  nth i l d = nth j l d → i = j.
Proof.
  intros Hnd Hi Hj Heq.
  destruct (lookup_lt_is_Some_2 l i Hi) as [x Hx].
  destruct (lookup_lt_is_Some_2 l j Hj) as [y Hy].
  rewrite (nth_lookup_Some l i d x Hx), (nth_lookup_Some l j d y Hy) in Heq.
  subst y. by eapply NoDup_lookup.
Qed.

Lemma default_characters_NoDup : NoDup default_characters.
Proof. by apply (bool_decide_unpack _); vm_compute. Qed.

Lemma styles_NoDup : NoDup styles.
Proof. by apply (bool_decide_unpack _); vm_compute. Qed.

Lemma index_In (l : list string) i :
  (0 < length l)%nat → In (JS.index l (i mod length l)) l.
Proof.
  intros Hl. unfold JS.index. apply nth_In.
  apply Nat.mod_upper_bound. lia.
Qed.

Lemma variation_prompt_flat basePrompt character sceneType i :
  variation_prompt basePrompt character sceneType i
  = variation_flat basePrompt character sceneType i.
Proof.
  unfold variation_prompt, variation_flat. cbv zeta.
  by rewrite !string_app_assoc.
Qed.

Lemma scenes_of_prefix_free sceneType : prefix_free (scenes_of sceneType) = true.
Proof.
  unfold scenes_of. destruct sceneType as [|a s]; cbn [JS.truthy].
  - by vm_compute.
  - unfold prefix_free. cbn [forallb]. by rewrite String.eqb_refl.
Qed.

Lemma scenes_of_length sceneType : (0 < length (scenes_of sceneType))%nat.
Proof. unfold scenes_of. destruct (JS.truthy sceneType); cbn; lia. Qed.

(** Without a character of the caller's, the sixteen prompts differ. *)
Lemma variation_prompt_inj basePrompt sceneType i j :
  (i < 16)%nat → (j < 16)%nat →
  variation_prompt basePrompt EmptyString sceneType i
  = variation_prompt basePrompt EmptyString sceneType j →
  i = j.
Proof.
  intros Hi Hj. rewrite !variation_prompt_flat. unfold variation_flat. cbv zeta.
  change (characters_of EmptyString) with default_characters.
  intros Heq.
  apply (prefix_free_app default_characters) in Heq as [Hchar Heq];
    [|by vm_compute|by apply index_In; vm_compute; lia..].
  do 3 apply (inj (String.append _)) in Heq.
  apply (prefix_free_app (scenes_of sceneType)) in Heq as [_ Heq];
    [|apply scenes_of_prefix_free|by apply index_In, scenes_of_length..].
  apply (inj (String.append _)) in Heq.
  apply (prefix_free_app styles) in Heq as [Hstyle _];
    [|by vm_compute|by apply index_In; vm_compute; lia..].
  apply nth_no_dup in Hchar;
    [|apply default_characters_NoDup|by apply Nat.mod_upper_bound; vm_compute; lia..].
  apply nth_no_dup in Hstyle;
    [|apply styles_NoDup|by apply Nat.mod_upper_bound; vm_compute; lia..].
  cbn [length default_characters styles] in Hchar, Hstyle.
  pose proof (Nat.div_mod_eq i 14) as Ei14. pose proof (Nat.div_mod_eq j 14) as Ej14.
  pose proof (Nat.div_mod_eq i 10) as Ei10. pose proof (Nat.div_mod_eq j 10) as Ej10.
  pose proof (Nat.mod_upper_bound j 14). pose proof (Nat.mod_upper_bound j 10).
  rewrite Hchar in Ei14. rewrite Hstyle in Ei10.
  generalize dependent (i / 14)%nat. generalize dependent (j / 14)%nat.
  generalize dependent (i / 10)%nat. generalize dependent (j / 10)%nat.
  generalize dependent (j `mod` 14)%nat. generalize dependent (j `mod` 10)%nat.
  intros. lia.
Qed.

Lemma variations_distinct_no_character basePrompt sceneType :
  NoDup (generateOnePieceVariations basePrompt EmptyString sceneType).
Proof.
  rewrite variations_as_map. apply NoDup_fmap_2_strong; [|apply NoDup_seq].
  intros i j Hi%elem_of_seq Hj%elem_of_seq.
  apply variation_prompt_inj; lia.
Qed.

(** With a character of the caller's the styles and scenes both cycle
    with period ten, so the prompts repeat after ten. *)
Lemma variation_prompt_period basePrompt character sceneType i :
  JS.truthy character = true →
  variation_prompt basePrompt character sceneType (i + 10)
  = variation_prompt basePrompt character sceneType i.
Proof.
  intros Hc. unfold variation_prompt, characters_of. rewrite Hc. cbv zeta.
  cbn [length]. rewrite !Nat.mod_1_r.
  replace ((i + 10) mod length styles)%nat with (i mod length styles)%nat
    by (cbn [length styles]; symmetry; apply (Nat.Div0.mod_add i 1 10)).
  replace ((i + 10) mod length (scenes_of sceneType))%nat
    with (i mod length (scenes_of sceneType))%nat; [reflexivity|].
  unfold scenes_of. destruct (JS.truthy sceneType); cbn [length default_scenes].
  - by rewrite !Nat.mod_1_r.
  - symmetry. apply (Nat.Div0.mod_add i 1 10).
Qed.

(** C10, the claim as stated fails: with a character of the caller's the
    sixteen prompts are not distinct (entry 10 repeats entry 0). *)
Lemma C10_variations_repeat_with_character :
  ¬ NoDup (generateOnePieceVariations "battle scene" "Nami" EmptyString).
Proof.
  intros Hnd.
  assert (0 = 10)%nat as Habs; [|discriminate].
  eapply (NoDup_lookup _ 0 10 _ Hnd); reflexivity.
Qed.

(** C10 (amended): [generateOnePieceVariations] computes a list of exactly
    16 prompt variations, the i-th combining the (i mod n)-th character,
    style and scene choices with the base prompt; they are pairwise
    distinct when the request names no character, and entries i and i+10
    coincide when it names one. Only the first variation reaches the
    provider, as the positivePrompt of the whole project: the handler's
    behaviour depends on the list through its first entry alone. *)
Theorem C10_variations_first_only basePrompt character sceneType seed :
  let vs := generateOnePieceVariations basePrompt character sceneType in
  length vs = 16%nat
  ∧ (∀ i, (i < 16)%nat → vs !! i = Some (variation_prompt basePrompt character sceneType i))
  ∧ (JS.truthy character = false → NoDup vs)
  ∧ (JS.truthy character = true → ∀ i, (i < 6)%nat → vs !! (i + 10)%nat = vs !! i)
  ∧ cp_positivePrompt (create_params vs seed)
    = variation_prompt basePrompt character sceneType 0
  ∧ (∀ vs' result,
       JS.index vs' 0 = JS.index vs 0 →
       start_project vs' seed result = start_project vs seed result).
Proof.
  cbv zeta. split; [apply variations_length|].
  split; [apply variations_lookup|]. split; [|split; [|split]].
  - destruct character; [intros _|discriminate].
    apply variations_distinct_no_character.
  - intros Hc i Hi. rewrite !variations_lookup by lia.
    by rewrite variation_prompt_period.
  - reflexivity.
  - intros vs' result Hhead.
    assert (create_params vs' seed
            = create_params (generateOnePieceVariations basePrompt character sceneType) seed)
      as Hparams by (unfold create_params; by rewrite Hhead).
    unfold start_project. by rewrite Hparams.
Qed.

(** ** The generate handler *)

Lemma mapi_from_fst {A B} (f : A → B) i (arr : list A) :
  map fst (JS.mapi_from (fun x k => (f x, k)) i arr) = map f arr.
Proof. revert i. induction arr as [|x arr IH]; intros i; cbn; [done|]. by rewrite IH. Qed.

Lemma mapi_from_snd {A B} (f : A → B) i (arr : list A) :
  map snd (JS.mapi_from (fun x k => (f x, k)) i arr) = seq i (length arr).
Proof. revert i. induction arr as [|x arr IH]; intros i; cbn; [done|]. by rewrite IH. Qed.

Lemma mapi_from_length {A B} (f : A → nat → B) i (arr : list A) :
  length (JS.mapi_from f i arr) = length arr.
Proof. revert i. induction arr as [|x arr IH]; intros i; cbn; [done|]. by rewrite IH. Qed.

Lemma start_project_created variations seed project st :
  start_project variations seed (Created project) st
  = Ok (Accepted (project_id project)
          (JS.mapi (fun j i => (job_id j, i)) (project_jobs project)))
       (accepted_state (create_params variations seed) project st).
Proof. reflexivity. Qed.

Lemma post_generate_created body prompt project st :
  body_prompt body = Some prompt → JS.truthy prompt = true →
  post_generate body (Created project) st
  = Ok (Accepted (project_id project)
          (JS.mapi (fun j i => (job_id j, i)) (project_jobs project)))
       (accepted_state
          (create_params
             (generateOnePieceVariations prompt
                (default EmptyString (body_character body))
                (default EmptyString (body_sceneType body)))
             (body_seed body))
          project st).
Proof.
  intros Hp Ht. unfold post_generate. rewrite Hp, Ht. cbn [negb].
  apply start_project_created.
Qed.

(** C9, the claim as stated fails: the response lists the jobs of the
    project object the provider returned, however many they are. *)
Lemma C9_two_jobs_two_entries :
  ∃ st',
    post_generate battle_scene (Created (project_P1 ["J0"; "J1"]%string)) init
    = Ok (Accepted "P1" [("J0"%string, 0%nat); ("J1"%string, 1%nat)]) st'.
Proof.
  eexists.
  by rewrite (post_generate_created battle_scene "battle scene" _ _ eq_refl eq_refl).
Qed.

(** C9 (amended): an accepted request asks the provider for 16 images and
    answers with the provider-assigned projectId and one job entry per
    entry of the provider's sub-task list, in the list's order, with the
    consecutive zero-based indexes 0..n-1; these are the 16 entries 0..15
    when the provider's list has 16 entries. *)
Theorem C9_response_lists_provider_jobs body prompt project st :
  body_prompt body = Some prompt → JS.truthy prompt = true →
  ∃ jobs st',
    post_generate body (Created project) st = Ok (Accepted (project_id project) jobs) st'
    ∧ (∃ params,
         In (now st, ObsCreate params) (trace st') ∧ cp_numberOfImages params = 16%nat)
    ∧ map fst jobs = map job_id (project_jobs project)
    ∧ map snd jobs = seq 0 (length (project_jobs project))
    ∧ (length (project_jobs project) = 16%nat →
       length jobs = 16%nat ∧ map snd jobs = seq 0 16).
Proof.
  intros Hp Ht. rewrite (post_generate_created body prompt project st Hp Ht).
  eexists _, _. split; [reflexivity|]. split; [|split; [|split]].
  - eexists. split; [right; left; reflexivity|reflexivity].
  - apply mapi_from_fst.
  - apply mapi_from_snd.
  - intros Hlen. unfold JS.mapi. rewrite mapi_from_length, mapi_from_snd, Hlen. done.
Qed.

Lemma C9_response_lists_provider_jobs_witness :
  ∃ jobs st',
    post_generate battle_scene (Created (project_P1 sixteen_jobs)) init
    = Ok (Accepted "P1" jobs) st'
    ∧ map fst jobs = sixteen_jobs
    ∧ map snd jobs = seq 0 16.
Proof.
  destruct (C9_response_lists_provider_jobs battle_scene "battle scene"
              (project_P1 sixteen_jobs) init eq_refl eq_refl)
    as (jobs & st' & Hrun & _ & Hids & _ & Hsixteen).
  exists jobs, st'. split; [exact Hrun|]. split; [exact Hids|].
  by apply Hsixteen.
Defined.

(** C8, the claim as stated fails: a project whose id is already in the
    registry is accepted, and its entry silently replaces the old one. *)
Lemma C8_duplicate_id_replaces :
  ∃ st',
    activeProjects registry_with_P1 !! "P1"%string = Some (project_P1 ["old"%string])
    ∧ post_generate battle_scene (Created (project_P1 ["new"%string])) registry_with_P1
      = Ok (Accepted "P1" [("new"%string, 0%nat)]) st'
    ∧ activeProjects st' !! "P1"%string = Some (project_P1 ["new"%string]).
Proof.
  eexists. split; [reflexivity|].
  rewrite (post_generate_created battle_scene "battle scene" _ _ eq_refl eq_refl).
  split; [reflexivity|]. cbn [activeProjects accepted_state project_id project_P1].
  apply lookup_insert_eq.
Qed.

(** C8 (amended): the registry's create step ([activeProjects.set]) never
    fails: whether or not the projectId is already present, the request is
    accepted and the registry maps the id to the new project afterwards,
    replacing an existing entry and leaving all other entries alone. *)
Theorem C8_create_replaces body prompt project st :
  body_prompt body = Some prompt → JS.truthy prompt = true →
  ∃ jobs st',
    post_generate body (Created project) st = Ok (Accepted (project_id project) jobs) st'
    ∧ activeProjects st' !! project_id project = Some project
    ∧ (∀ other, other ≠ project_id project →
                activeProjects st' !! other = activeProjects st !! other).
Proof.
  intros Hp Ht. rewrite (post_generate_created body prompt project st Hp Ht).
  eexists _, _. split; [reflexivity|]. cbn [activeProjects accepted_state]. split.
  - apply lookup_insert_eq.
  - intros other Hne. by apply lookup_insert_ne.
Qed.

Lemma C8_create_replaces_witness :
  ∃ jobs st',
    post_generate battle_scene (Created (project_P1 ["new"%string])) registry_with_P1
    = Ok (Accepted "P1" jobs) st'
    ∧ activeProjects st' !! "P1"%string = Some (project_P1 ["new"%string]).
Proof.
  destruct (C8_create_replaces battle_scene "battle scene"
              (project_P1 ["new"%string]) registry_with_P1 eq_refl eq_refl)
    as (jobs & st' & Hrun & Hnew & _).
  by exists jobs, st'.
Defined.

(** ** The handlers in closed form *)

Lemma call_async_eq m st : call_async m st = Ok tt (exec m st).
Proof. unfold call_async, try_catch, exec. by destruct (m st) as [[] ?|? ?]. Qed.

Lemma exec_call_async m st : exec (call_async m) st = exec m st.
Proof. unfold exec at 1. by rewrite call_async_eq. Qed.

Lemma forEach_async {A} (f : A → M unit) (arr : list A) st :
  forEach arr (fun x => call_async (f x)) st
  = Ok tt (fold_left (fun s x => exec (f x) s) arr st).
Proof.
  revert st. induction arr as [|x arr IH]; intros st; cbn; [done|].
  unfold bind. by rewrite call_async_eq, IH.
Qed.

Lemma exec_emitToProject projectId payload st :
  exec (emitToProject projectId payload) st
  = set_channels
      (fanout (sse_data projectId payload)
              (default [] (sseClients st !! projectId)) (channels st))
      (observe (ObsEmit projectId payload) st).
Proof. unfold exec. by rewrite emitToProject_eq. Qed.

Lemma detach_eq c st : detach c st = Ok tt (detached c st).
Proof. reflexivity. Qed.

Lemma onProject_other_project c evt st :
  pe_projectId evt ≠ cl_projectId c → onProject c evt st = Ok tt st.
Proof.
  intros Hne. unfold onProject.
  by apply String.eqb_neq in Hne as ->.
Qed.

Lemma onProject_completed c evt st :
  pe_projectId evt = cl_projectId c → pe_type evt = "completed"%string →
  onProject c evt st = Ok tt (completion_scheduled c st).
Proof.
  intros Hid Hty. unfold onProject. by rewrite Hid, String.eqb_refl, Hty.
Qed.

Lemma onProject_error c evt st :
  pe_projectId evt = cl_projectId c → pe_type evt = "error"%string →
  onProject c evt st = Ok tt (failed_state c (pe_error evt) st).
Proof.
  intros Hid Hty. unfold onProject. rewrite Hid, String.eqb_refl, Hty.
  cbn [negb String.eqb Ascii.eqb Bool.eqb]. unfold bind.
  rewrite emitToProject_eq, detach_eq. unfold failed_state.
  by rewrite exec_emitToProject.
Qed.

Lemma onProject_other_type c evt st :
  pe_type evt ≠ "completed"%string → pe_type evt ≠ "error"%string →
  onProject c evt st = Ok tt st.
Proof.
  intros H1 H2. unfold onProject.
  apply String.eqb_neq in H1 as ->. apply String.eqb_neq in H2 as ->.
  by destruct (negb _).
Qed.

(** The four ways [onProject] can go. *)
Lemma onProject_cases c evt st :
  exec (onProject c evt) st = st
  ∨ (pe_projectId evt = cl_projectId c ∧ pe_type evt = "completed"%string
     ∧ exec (onProject c evt) st = completion_scheduled c st)
  ∨ (pe_projectId evt = cl_projectId c ∧ pe_type evt = "error"%string
     ∧ exec (onProject c evt) st = failed_state c (pe_error evt) st).
Proof.
  destruct (decide (pe_projectId evt = cl_projectId c)) as [Hid|Hid].
  - destruct (decide (pe_type evt = "completed"%string)) as [Hc|Hc].
    { right; left. unfold exec. by rewrite onProject_completed. }
    destruct (decide (pe_type evt = "error"%string)) as [He|He].
    { right; right. unfold exec. by rewrite onProject_error. }
    left. unfold exec. by rewrite onProject_other_type.
  - left. unfold exec. by rewrite onProject_other_project.
Qed.

Lemma onJob_other_project c evt st :
  je_projectId evt ≠ cl_projectId c → onJob c evt st = Ok tt st.
Proof.
  intros Hne. unfold onJob.
  by apply String.eqb_neq in Hne as ->.
Qed.

Lemma onJob_progress c evt st :
  je_projectId evt = cl_projectId c → je_type evt = "progress"%string →
  exec (onJob c evt) st
  = exec (emitToProject (cl_projectId c)
            (PProgress (je_jobId evt) (percent (je_progress evt)))) st.
Proof.
  intros Hid Hty. unfold exec at 1, onJob.
  by rewrite Hid, String.eqb_refl, Hty.
Qed.

Lemma onJob_completed c evt st :
  je_projectId evt = cl_projectId c → je_type evt = "completed"%string →
  onJob c evt st = Ok tt (suspended c evt st).
Proof.
  intros Hid Hty. unfold onJob. by rewrite Hid, String.eqb_refl, Hty.
Qed.

Lemma onJob_other_type c evt st :
  je_type evt ≠ "progress"%string → je_type evt ≠ "completed"%string →
  onJob c evt st = Ok tt st.
Proof.
  intros H1 H2. unfold onJob.
  apply String.eqb_neq in H1 as ->. apply String.eqb_neq in H2 as ->.
  by destruct (negb _).
Qed.

Lemma onJob_cases c evt st :
  exec (onJob c evt) st = st
  ∨ (je_projectId evt = cl_projectId c ∧ je_type evt = "progress"%string
     ∧ exec (onJob c evt) st
       = exec (emitToProject (cl_projectId c)
                 (PProgress (je_jobId evt) (percent (je_progress evt)))) st)
  ∨ (je_projectId evt = cl_projectId c ∧ je_type evt = "completed"%string
     ∧ exec (onJob c evt) st = suspended c evt st).
Proof.
  destruct (decide (je_projectId evt = cl_projectId c)) as [Hid|Hid].
  - destruct (decide (je_type evt = "progress"%string)) as [Hc|Hc].
    { right; left. by rewrite onJob_progress. }
    destruct (decide (je_type evt = "completed"%string)) as [He|He].
    { right; right. unfold exec. by rewrite onJob_completed. }
    left. unfold exec. by rewrite onJob_other_type.
  - left. unfold exec. by rewrite onJob_other_project.
Qed.

(** Dispatching a provider event: the history records it, then every
    listener registered at that moment handles it in turn. *)
Lemma exec_emit_project evt st :
  exec (emit_project evt) st
  = fold_left (fun s c => exec (onProject c evt) s) (projectListeners st)
      (observe (ObsProviderProject evt) st).
Proof.
  unfold exec at 1, emit_project, bind, modify, gets, debugProject.
  cbn [projectListeners observe]. by rewrite forEach_async.
Qed.

Lemma exec_emit_job evt st :
  exec (emit_job evt) st
  = fold_left (fun s c => exec (onJob c evt) s) (jobListeners st)
      (observe (ObsProviderJob evt) st).
Proof.
  unfold exec at 1, emit_job, bind, modify, gets, debugJob.
  cbn [jobListeners observe]. by rewrite forEach_async.
Qed.

Lemma exec_run_timer_completed c st :
  exec (run_timer (TCompleted c)) st = completed_state c st.
Proof.
  unfold run_timer. unfold exec at 1. rewrite call_async_eq.
  unfold exec at 1, bind. rewrite emitToProject_eq, detach_eq.
  unfold completed_state. by rewrite exec_emitToProject.
Qed.

Lemma exec_run_timer_cleanup projectId st :
  exec (run_timer (TCleanup projectId)) st = cleaned_up projectId st.
Proof. reflexivity. Qed.

(** ** One closure per project *)

Lemma fold_onProject_others evt listeners st :
  (∀ l, l ∈ listeners → cl_projectId l ≠ pe_projectId evt) →
  fold_left (fun s c => exec (onProject c evt) s) listeners st = st.
Proof.
  revert st. induction listeners as [|l listeners IH]; intros st Hne; cbn; [done|].
  unfold exec at 2. rewrite onProject_other_project.
  - apply IH. intros l' Hl'. apply Hne. by right.
  - intros Heq. apply (Hne l); [by left|done].
Qed.

Lemma fold_onJob_others evt listeners st :
  (∀ l, l ∈ listeners → cl_projectId l ≠ je_projectId evt) →
  fold_left (fun s c => exec (onJob c evt) s) listeners st = st.
Proof.
  revert st. induction listeners as [|l listeners IH]; intros st Hne; cbn; [done|].
  unfold exec at 2. rewrite onJob_other_project.
  - apply IH. intros l' Hl'. apply Hne. by right.
  - intros Heq. apply (Hne l); [by left|done].
Qed.

Lemma dispatch_project_sole c evt st :
  sole_listener c (projectListeners st) → pe_projectId evt = cl_projectId c →
  step st (ProviderProject evt)
  = exec (onProject c evt) (observe (ObsProviderProject evt) st).
Proof.
  intros (before & after & Hls & Hothers) Hid. cbn [step].
  rewrite exec_emit_project, Hls, fold_left_app. cbn [fold_left].
  rewrite (fold_onProject_others evt after).
  - rewrite (fold_onProject_others evt before); [done|].
    intros l Hl. rewrite Hid. apply Hothers, elem_of_app. by left.
  - intros l Hl. rewrite Hid. apply Hothers, elem_of_app. by right.
Qed.

Lemma dispatch_job_sole c evt st :
  sole_listener c (jobListeners st) → je_projectId evt = cl_projectId c →
  step st (ProviderJob evt)
  = exec (onJob c evt) (observe (ObsProviderJob evt) st).
Proof.
  intros (before & after & Hls & Hothers) Hid. cbn [step].
  rewrite exec_emit_job, Hls, fold_left_app. cbn [fold_left].
  rewrite (fold_onJob_others evt after).
  - rewrite (fold_onJob_others evt before); [done|].
    intros l Hl. rewrite Hid. apply Hothers, elem_of_app. by left.
  - intros l Hl. rewrite Hid. apply Hothers, elem_of_app. by right.
Qed.

Lemma off_removes c listeners l : l ∈ off c listeners → cl_id l ≠ cl_id c.
Proof.
  unfold off. rewrite list_elem_of_In, filter_In. intros [_ Hl].
  apply negb_true_iff, Nat.eqb_neq in Hl. exact Hl.
Qed.

Lemma off_subset c listeners l : l ∈ off c listeners → l ∈ listeners.
Proof. unfold off. rewrite !list_elem_of_In, filter_In. by intros [? _]. Qed.

Lemma delivered_after_emit projectId payload st clients k ch :
  sseClients st !! projectId = Some clients → NoDup clients → k ∈ clients →
  channels st !! k = Some ch → writable ch = true →
  delivered k (exec (emitToProject projectId payload) st)
  = delivered k st ++ [sse_data projectId payload].
Proof.
  intros Hset Hnd Hin Hk Hw. rewrite exec_emitToProject.
  eapply delivered_after_write; [exact Hk|]. cbn. rewrite Hset. cbn.
  by apply fanout_writable.
Qed.

(** C6, the claim as stated fails: nothing is transitioned to [failed].
    The provider announces the completion and, within the 2000 ms window,
    an error. The error turn pushes [failed] and leaves the registry as it
    was and the completion timer pending; when that timer fires,
    [completed] is pushed for the project, which a project in the terminal
    state [failed] does not allow. *)
Lemma C6_failed_is_not_a_state :
  let st :=
    run P1_running
      [ ProviderProject (completed_event "P1");
        ProviderProject (error_event "P1" "out of credits") ] in
  let st' := run st [ Elapse 2000; Fire 0 ] in
  emitted "P1" st = [PFailed "out of credits"]
  ∧ activeProjects st = activeProjects P1_running
  ∧ timers st
    = [ {| due := 2000; action := TCompleted P1_closure |};
        {| due := 600000; action := TCleanup "P1" |} ]
  ∧ emitted "P1" st' = emitted "P1" st ++ [PCompleted]
  ∧ spec_accepts failed [PCompleted] = false.
Proof. by vm_compute. Qed.

(** C6 (amended): when a project-level [error] event reaches the
    project's closure, the same turn of the loop pushes a [failed] Event
    carrying the provider's error to the hub (at the time of the
    notification, with no timer in between), writes it to every subscriber
    that accepts writes, removes the closure's listeners from both
    provider events and arms the registry cleanup. No lifecycle state is
    recorded: the registry, the subscriber sets and the parked [onJob]
    calls stay as they were, and no pending timer is cancelled. *)
Theorem C6_error_fails_at_once c evt st :
  sole_listener c (projectListeners st) →
  pe_projectId evt = cl_projectId c →
  pe_type evt = "error"%string →
  let st' := step st (ProviderProject evt) in
  history st'
  = history st ++ [ (now st, ObsProviderProject evt);
                    (now st, ObsEmit (cl_projectId c) (PFailed (pe_error evt)));
                    (now st, ObsDetach c) ]
  ∧ now st' = now st
  ∧ (∀ l, l ∈ projectListeners st' ∨ l ∈ jobListeners st' → cl_id l ≠ cl_id c)
  ∧ timers st'
    = timers st ++ [{| due := now st + 600000; action := TCleanup (cl_projectId c) |}]
  ∧ (∀ clients k ch,
       sseClients st !! cl_projectId c = Some clients → NoDup clients →
       k ∈ clients → channels st !! k = Some ch → writable ch = true →
       delivered k st'
       = delivered k st ++ [sse_data (cl_projectId c) (PFailed (pe_error evt))])
  ∧ activeProjects st' = activeProjects st
  ∧ sseClients st' = sseClients st
  ∧ awaiting st' = awaiting st.
Proof.
  intros Hsole Hid Hty. cbv zeta.
  rewrite (dispatch_project_sole c evt st Hsole Hid).
  replace (exec (onProject c evt) (observe (ObsProviderProject evt) st))
    with (failed_state c (pe_error evt) (observe (ObsProviderProject evt) st))
    by (unfold exec; by rewrite (onProject_error c evt _ Hid Hty)).
  unfold failed_state. rewrite exec_emitToProject.
  split; [|split; [|split; [|split; [|split]]]].
  - unfold history. cbn [trace detached set_channels observe now rev].
    by rewrite <- !app_assoc.
  - reflexivity.
  - cbn [projectListeners jobListeners detached set_channels observe].
    intros l [Hl|Hl]; by apply off_removes in Hl.
  - reflexivity.
  - intros clients k ch Hset Hnd Hin Hk Hw.
    rewrite <- exec_emitToProject.
    change (delivered k (detached c ?s)) with (delivered k s).
    by apply (delivered_after_emit _ _ (observe _ st) clients k ch).
  - done.
Qed.

Lemma P1_running_project_listener : sole_listener P1_closure (projectListeners P1_running).
Proof. exists [], []. split; [reflexivity|]. by intros l Hl%elem_of_nil. Qed.

Lemma P1_running_job_listener : sole_listener P1_closure (jobListeners P1_running).
Proof. exists [], []. split; [reflexivity|]. by intros l Hl%elem_of_nil. Qed.

Lemma C6_error_fails_at_once_witness :
  emitted "P1" (step P1_running (ProviderProject (error_event "P1" "out of credits")))
  = [PFailed "out of credits"]
  ∧ delivered 7 (step P1_running (ProviderProject (error_event "P1" "out of credits")))
    = [sse_data "P1" (PFailed "out of credits")].
Proof.
  destruct (C6_error_fails_at_once P1_closure (error_event "P1" "out of credits")
              P1_running P1_running_project_listener eq_refl eq_refl)
    as (Hhist & _ & _ & _ & Hdeliv & _).
  split.
  - unfold emitted. rewrite Hhist. reflexivity.
  - by rewrite (Hdeliv [7%nat] 7%nat {| writable := true; received := [] |});
      [|reflexivity|apply NoDup_singleton|apply list_elem_of_singleton|reflexivity|].
Defined.

(** ** Runs *)

Lemma run_app st inputs1 inputs2 :
  run st (inputs1 ++ inputs2) = run (run st inputs1) inputs2.
Proof. apply fold_left_app. Qed.

Lemma run_invariant (P : State → Prop) st inputs :
  P st → (∀ s i, P s → P (step s i)) → P (run st inputs).
Proof.
  intros H0 Hstep. revert st H0.
  induction inputs as [|i inputs IH]; intros st H0; cbn; [done|].
  apply IH. by apply Hstep.
Qed.

Lemma fold_left_preserves {A} (P : State → Prop) (f : State → A → State) l st :
  P st → (∀ s x, x ∈ l → P s → P (f s x)) → P (fold_left f l st).
Proof.
  revert st. induction l as [|x l IH]; intros st H0 Hf; cbn; [done|].
  apply IH.
  - apply Hf; [by left|done].
  - intros s y Hy. apply Hf. by right.
Qed.

(** The three ways the generate handler can go. *)
Lemma post_generate_cases body result st :
  exec (post_generate body result) st = st
  ∨ (∃ params, exec (post_generate body result) st = observe (ObsCreate params) st)
  ∨ (∃ params project,
       result = Created project
       ∧ exec (post_generate body result) st = accepted_state params project st).
Proof.
  unfold post_generate.
  destruct (body_prompt body) as [prompt|]; [|by left].
  destruct (negb (JS.truthy prompt)); [by left|].
  destruct result as [project|message|message].
  - right; right. eexists _, project. split; [done|].
    unfold exec. by rewrite start_project_created.
  - right; left. by eexists.
  - by left.
Qed.

(** The ways a settled promise can go. *)
Lemma settle_cases st i resolved :
  step st (Settle i resolved) = st
  ∨ (∃ p, awaiting st !! i = Some p
          ∧ step st (Settle i resolved) = set_awaiting (delete i (awaiting st)) st)
  ∨ (∃ p resultUrl,
       awaiting st !! i = Some p
       ∧ step st (Settle i resolved)
         = exec (emitToProject (cl_projectId (pd_closure p))
                   (PJobCompleted (pd_jobId p) resultUrl (pd_positivePrompt p)))
             (set_awaiting (delete i (awaiting st)) st)).
Proof.
  cbn [step]. destruct (awaiting st !! i) as [p|]; [|by left].
  destruct resolved as [resultUrl|].
  - right; right. exists p, resultUrl. split; [done|].
    unfold exec at 1. by rewrite call_async_eq.
  - right; left. by exists p.
Qed.

(** The ways a timer firing can go. *)
Lemma fire_cases st i :
  step st (Fire i) = st
  ∨ (∃ d c, timers st !! i = Some {| due := d; action := TCompleted c |}
            ∧ d ≤ now st
            ∧ step st (Fire i)
              = completed_state c (set_timers (delete i (timers st)) st))
  ∨ (∃ d projectId,
       timers st !! i = Some {| due := d; action := TCleanup projectId |}
       ∧ d ≤ now st
       ∧ step st (Fire i)
         = cleaned_up projectId (set_timers (delete i (timers st)) st)).
Proof.
  cbn [step]. destruct (timers st !! i) as [[d a]|] eqn:Ht; [|by left].
  cbn [due action]. destruct (Z.leb_spec d (now st)) as [Hd|Hd]; [|by left].
  destruct a as [c|projectId].
  - right; left. exists d, c. by rewrite exec_run_timer_completed.
  - right; right. by exists d, projectId.
Qed.

Lemma elem_of_delete {A} (l : list A) i x : x ∈ delete i l → x ∈ l.
Proof.
  revert i. induction l as [|y l IH]; intros [|i]; cbn; try done.
  - intros Hx. by right.
  - intros [->|Hx]%elem_of_cons; [by left|]. right. by apply (IH i).
Qed.

(** ** Progress percentages on every run *)

Lemma progress_inv_observe tr t o :
  (∀ projectId jobId p, o ≠ ObsEmit projectId (PProgress jobId p)) →
  progress_inv tr → progress_inv ((t, o) :: tr).
Proof.
  intros Ho Hinv t' projectId jobId p [Heq|Hin]%elem_of_cons.
  - injection Heq as _ Heq. by destruct (Ho projectId jobId p).
  - destruct (Hinv t' projectId jobId p Hin) as (evt & Hevt & H).
    exists evt. split; [by right|done].
Qed.

Lemma progress_inv_progress tr t evt :
  (t, ObsProviderJob evt) ∈ tr → je_type evt = "progress"%string →
  progress_inv tr →
  progress_inv
    ((t, ObsEmit (je_projectId evt)
           (PProgress (je_jobId evt) (percent (je_progress evt)))) :: tr).
Proof.
  intros Hevt Hty Hinv t' projectId jobId p [Heq|Hin]%elem_of_cons.
  - injection Heq as -> -> -> ->. exists evt. split; [by right|done].
  - destruct (Hinv t' projectId jobId p Hin) as (evt' & Hevt' & H).
    exists evt'. split; [by right|done].
Qed.

Ltac not_progress_emit :=
  let a := fresh in let b := fresh in let c := fresh in intros a b c; discriminate.

Lemma ProgressInv_emit projectId payload st :
  (∀ jobId p, payload ≠ PProgress jobId p) →
  ProgressInv st → ProgressInv (exec (emitToProject projectId payload) st).
Proof.
  intros Hp Hinv. rewrite exec_emitToProject. unfold ProgressInv.
  cbn [trace set_channels observe].
  apply progress_inv_observe; [|done].
  intros pid jobId p Heq. injection Heq as _ Heq. by destruct (Hp jobId p).
Qed.

Lemma ProgressInv_detached c st : ProgressInv st → ProgressInv (detached c st).
Proof.
  intros Hinv. unfold ProgressInv. cbn [trace detached].
  apply progress_inv_observe; [not_progress_emit|done].
Qed.

Lemma ProgressInv_onProject c evt st :
  ProgressInv st → ProgressInv (exec (onProject c evt) st).
Proof.
  intros Hinv.
  destruct (onProject_cases c evt st) as [->|[(Hid & Hty & ->)|(Hid & Hty & ->)]];
    [done..|].
  unfold failed_state. by apply ProgressInv_detached, ProgressInv_emit.
Qed.

Lemma ProgressInv_onJob c evt t0 st :
  (ProgressInv st ∧ now st = t0 ∧ (t0, ObsProviderJob evt) ∈ trace st) →
  let st' := exec (onJob c evt) st in
  ProgressInv st' ∧ now st' = t0 ∧ (t0, ObsProviderJob evt) ∈ trace st'.
Proof.
  intros (Hinv & Hnow & Hevt). cbv zeta.
  destruct (onJob_cases c evt st) as [->|[(Hid & Hty & ->)|(Hid & Hty & ->)]];
    [done| |done].
  rewrite exec_emitToProject. unfold ProgressInv.
  cbn [trace now set_channels observe]. split; [|split; [done|by right]].
  rewrite <- Hid, Hnow. by apply progress_inv_progress.
Qed.

Lemma ProgressInv_step st i : ProgressInv st → ProgressInv (step st i).
Proof.
  intros Hinv. destruct i as [body result|evt|evt|i resolved|ms|i|p res|p res|res].
  - change (ProgressInv (exec (post_generate body result) st)).
    destruct (post_generate_cases body result st)
      as [->|[(params & ->)|(params & project & _ & ->)]]; [done|..];
      unfold ProgressInv; cbn [trace observe accepted_state];
      repeat (apply progress_inv_observe; [not_progress_emit|]); done.
  - cbn [step]. rewrite exec_emit_project.
    apply (fold_left_preserves ProgressInv).
    + unfold ProgressInv. cbn [trace observe].
      apply progress_inv_observe; [not_progress_emit|done].
    + intros s c _. apply ProgressInv_onProject.
  - cbn [step]. rewrite exec_emit_job.
    apply (fold_left_preserves
             (fun s => ProgressInv s ∧ now s = now st
                       ∧ (now st, ObsProviderJob evt) ∈ trace s)).
    + split; [|split; [done|by left]].
      unfold ProgressInv. cbn [trace observe].
      apply progress_inv_observe; [not_progress_emit|done].
    + intros s c _. apply ProgressInv_onJob.
  - destruct (settle_cases st i resolved)
      as [->|[(p & _ & ->)|(p & resultUrl & _ & ->)]]; [done..|].
    by apply ProgressInv_emit.
  - done.
  - destruct (fire_cases st i)
      as [->|[(d & c & Ht & Hd & ->)|(d & p & Ht & Hd & ->)]]; [done|..].
    + unfold completed_state. by apply ProgressInv_detached, ProgressInv_emit.
    + unfold ProgressInv, cleaned_up. cbn [trace set_activeProjects observe set_timers].
      apply progress_inv_observe; [not_progress_emit|done].
  - done.
  - cbn [step]. unfold exec, sse_detach, modify.
    by destruct (sseClients st !! p).
  - cbn [step]. unfold exec, disconnect, modify.
    by destruct (channels st !! res).
Qed.

Lemma ProgressInv_run inputs : ProgressInv (run init inputs).
Proof.
  apply run_invariant; [|apply ProgressInv_step].
  intros t projectId jobId p Hin. by apply elem_of_nil in Hin.
Qed.

(** C1, the claim as stated fails: the product with 100 is computed in
    doubles. For the double nearest to 0.015 the exact product is just
    below 1.5 and rounds to the double 1.5, so [onJob] reports 2, while
    the nearest integer to the hundredfold of the value is 1. *)
Lemma C1_product_rounds_up :
  (JS.to_double x015 == x015)%Q
  ∧ (0 <= x015 <= 1)%Q
  ∧ percent x015 = 2
  ∧ spec_percent x015 = 1.
Proof. by vm_compute. Qed.

(** C1 (amended): a progress notification for the closure's project
    makes [onJob] push one progress Event whose percent is [Math.round] of
    the double product of the clamped raw value and 100. That is an
    integer in 0..100 within 1/2 + 2^-47 of the hundredfold of the clamped
    value, and the nearest integer (halves up) whenever the hundredfold is
    itself a double; a raw value of 1 or more, such as 1.4, is reported as
    100, and one of 0 or less as 0. On every run, each progress Event in
    the history reports the percent so computed from a progress
    notification of the provider. *)
Theorem C1_progress_percent :
  (∀ c evt st,
     je_projectId evt = cl_projectId c →
     je_type evt = "progress"%string →
     ∃ st',
       onJob c evt st = Ok tt st'
       ∧ emitted (cl_projectId c) st'
         = emitted (cl_projectId c) st
             ++ [PProgress (je_jobId evt) (percent (je_progress evt))])
  ∧ (∀ raw,
       0 ≤ percent raw ≤ 100
       ∧ (inject_Z (percent raw) - (1 # 2) - product_error <= clamp01 raw * 100)%Q
       ∧ (clamp01 raw * 100 < inject_Z (percent raw) + (1 # 2) + product_error)%Q
       ∧ ((JS.to_double (clamp01 raw * 100) == clamp01 raw * 100)%Q →
          percent raw = spec_percent raw)
       ∧ (0 <= clamp01 raw <= 1)%Q
       ∧ ((0 <= raw)%Q → (raw <= 1)%Q → clamp01 raw = raw)
       ∧ ((raw <= 0)%Q → (clamp01 raw == 0)%Q ∧ percent raw = 0)
       ∧ ((1 <= raw)%Q → (clamp01 raw == 1)%Q ∧ percent raw = 100))
  ∧ (∀ inputs t projectId jobId p,
       (t, ObsEmit projectId (PProgress jobId p)) ∈ history (run init inputs) →
       0 ≤ p ≤ 100
       ∧ ∃ evt,
           (t, ObsProviderJob evt) ∈ history (run init inputs)
           ∧ je_type evt = "progress"%string
           ∧ je_projectId evt = projectId
           ∧ je_jobId evt = jobId
           ∧ p = percent (je_progress evt)).
Proof.
  split; [|split].
  - intros c evt st Hid Hty. unfold onJob.
    rewrite Hid, String.eqb_refl, Hty. cbn [negb String.eqb Ascii.eqb Bool.eqb].
    rewrite emitToProject_eq. eexists. split; [reflexivity|].
    apply emitted_after_emit.
  - intros raw.
    split; [apply percent_range|].
    split; [apply percent_near|]. split; [apply percent_near|].
    split; [apply percent_exact|].
    split; [apply clamp01_range|]. split; [apply clamp01_inside|].
    split.
    + intros Hraw. split; [by apply clamp01_below|by apply percent_none].
    + intros Hraw. split; [by apply clamp01_above|by apply percent_full].
  - intros inputs t projectId jobId p Hin. apply elem_of_history in Hin.
    destruct (ProgressInv_run inputs t projectId jobId p Hin)
      as (evt & Hevt & Hty & Hid & Hjob & ->).
    split; [apply percent_range|].
    exists evt. by rewrite elem_of_history.
Qed.

Lemma C1_progress_percent_witness :
  ∃ st',
    onJob P1_closure (progress_event "J0" (14 # 10)) init = Ok tt st'
    ∧ emitted "P1" st' = [PProgress "J0" 100].
Proof.
  destruct C1_progress_percent as (Hpush & Hpercent & _).
  destruct (Hpush P1_closure (progress_event "J0" (14 # 10)) init)
    as (st' & Hrun & Hemit); [reflexivity..|].
  destruct (Hpercent (14 # 10)%Q) as (_ & _ & _ & _ & _ & _ & _ & Hfull).
  destruct Hfull as [_ Hfull]; [discriminate|].
  exists st'. split; [exact Hrun|].
  cbn [je_progress progress_event] in Hemit.
  rewrite Hfull in Hemit. exact Hemit.
Defined.


(** ** The completion delay *)

Lemma completion_notified_mono tr e projectId t :
  completion_notified tr projectId t → completion_notified (e :: tr) projectId t.
Proof. intros (evt & Hin & H). exists evt. split; [by right|done]. Qed.

Lemma delay_inv_observe tr ts t o :
  (∀ projectId, o ≠ ObsEmit projectId PCompleted) →
  delay_inv tr ts → delay_inv ((t, o) :: tr) ts.
Proof.
  intros Ho [H1 H2]. split.
  - intros d c Hin. destruct (H1 d c Hin) as (t0 & Hn & Hd).
    exists t0. split; [by apply completion_notified_mono|done].
  - intros t' projectId [Heq|Hin]%elem_of_cons.
    + injection Heq as _ Heq. by destruct (Ho projectId).
    + destruct (H2 t' projectId Hin) as (t0 & Hn & Hd).
      exists t0. split; [by apply completion_notified_mono|done].
Qed.

Lemma delay_inv_timers tr ts ts' :
  (∀ d c, {| due := d; action := TCompleted c |} ∈ ts' →
          {| due := d; action := TCompleted c |} ∈ ts) →
  delay_inv tr ts → delay_inv tr ts'.
Proof. intros Hsub [H1 H2]. split; [|done]. intros d c Hin. by apply H1, Hsub. Qed.

Lemma delay_inv_cleanup tr ts d projectId :
  delay_inv tr ts → delay_inv tr (ts ++ [{| due := d; action := TCleanup projectId |}]).
Proof.
  apply delay_inv_timers. intros d' c [Hin|Hin]%elem_of_app; [done|].
  by apply list_elem_of_singleton in Hin.
Qed.

Lemma delay_inv_schedule tr ts c t :
  completion_notified tr (cl_projectId c) t →
  delay_inv tr ts →
  delay_inv tr (ts ++ [{| due := t + 2000; action := TCompleted c |}]).
Proof.
  intros Hn [H1 H2]. split; [|done].
  intros d c' [Hin|Hin]%elem_of_app; [by apply H1|].
  apply list_elem_of_singleton in Hin. injection Hin as -> ->. by exists t.
Qed.

Lemma delay_inv_completed tr ts projectId t t' :
  completion_notified tr projectId t → t + 2000 ≤ t' →
  delay_inv tr ts → delay_inv ((t', ObsEmit projectId PCompleted) :: tr) ts.
Proof.
  intros Hn Hle [H1 H2]. split.
  - intros d c Hin. destruct (H1 d c Hin) as (t0 & Hn0 & Hd).
    exists t0. split; [by apply completion_notified_mono|done].
  - intros t'' projectId' [Heq|Hin]%elem_of_cons.
    + injection Heq as -> ->. exists t.
      split; [by apply completion_notified_mono|done].
    + destruct (H2 t'' projectId' Hin) as (t0 & Hn0 & Hd).
      exists t0. split; [by apply completion_notified_mono|done].
Qed.

Ltac not_completed_emit :=
  let p := fresh in intros p; discriminate.

Lemma DelayInv_emit projectId payload st :
  payload ≠ PCompleted →
  DelayInv st → DelayInv (exec (emitToProject projectId payload) st).
Proof.
  intros Hp Hinv. rewrite exec_emitToProject. unfold DelayInv.
  cbn [trace timers set_channels observe].
  apply delay_inv_observe; [|done]. intros p Heq. by injection Heq as _ ->.
Qed.

Lemma DelayInv_detached c st : DelayInv st → DelayInv (detached c st).
Proof.
  intros Hinv. unfold DelayInv. cbn [trace timers detached].
  apply delay_inv_cleanup, delay_inv_observe; [not_completed_emit|done].
Qed.

Lemma DelayInv_onProject c evt t0 st :
  (DelayInv st ∧ now st = t0 ∧ (t0, ObsProviderProject evt) ∈ trace st) →
  let st' := exec (onProject c evt) st in
  DelayInv st' ∧ now st' = t0 ∧ (t0, ObsProviderProject evt) ∈ trace st'.
Proof.
  intros (Hinv & Hnow & Hevt). cbv zeta.
  destruct (onProject_cases c evt st) as [->|[(Hid & Hty & ->)|(Hid & Hty & ->)]].
  - done.
  - split; [|done]. unfold DelayInv. cbn [trace timers completion_scheduled set_timers].
    apply delay_inv_schedule; [|done]. exists evt. by rewrite Hnow.
  - unfold failed_state. split; [|split].
    + apply DelayInv_detached, DelayInv_emit; done.
    + by rewrite exec_emitToProject.
    + rewrite exec_emitToProject. cbn [trace detached set_channels observe].
      by do 2 right.
Qed.

Lemma DelayInv_onJob c evt st :
  DelayInv st → DelayInv (exec (onJob c evt) st).
Proof.
  intros Hinv.
  destruct (onJob_cases c evt st) as [->|[(Hid & Hty & ->)|(Hid & Hty & ->)]];
    [done| |done].
  by apply DelayInv_emit.
Qed.

Lemma DelayInv_step st i : DelayInv st → DelayInv (step st i).
Proof.
  intros Hinv. destruct i as [body result|evt|evt|i resolved|ms|i|p res|p res|res].
  - change (DelayInv (exec (post_generate body result) st)).
    destruct (post_generate_cases body result st)
      as [->|[(params & ->)|(params & project & _ & ->)]]; [done|..];
      unfold DelayInv; cbn [trace timers observe accepted_state];
      repeat (apply delay_inv_observe; [not_completed_emit|]); done.
  - cbn [step]. rewrite exec_emit_project.
    apply (fold_left_preserves
             (fun s => DelayInv s ∧ now s = now st
                       ∧ (now st, ObsProviderProject evt) ∈ trace s)).
    + split; [|split; [done|by left]].
      unfold DelayInv. cbn [trace timers observe].
      apply delay_inv_observe; [not_completed_emit|done].
    + intros s c _. apply DelayInv_onProject.
  - cbn [step]. rewrite exec_emit_job.
    apply (fold_left_preserves DelayInv).
    + unfold DelayInv. cbn [trace timers observe].
      apply delay_inv_observe; [not_completed_emit|done].
    + intros s c _. apply DelayInv_onJob.
  - destruct (settle_cases st i resolved)
      as [->|[(p & _ & ->)|(p & resultUrl & _ & ->)]]; [done..|].
    by apply DelayInv_emit.
  - done.
  - destruct (fire_cases st i)
      as [->|[(d & c & Ht & Hd & ->)|(d & p & Ht & Hd & ->)]]; [done|..].
    + destruct Hinv as [H1 H2].
      destruct (H1 d c) as (t & Hn & ->); [by eapply list_elem_of_lookup_2|].
      unfold completed_state. apply DelayInv_detached.
      rewrite exec_emitToProject. unfold DelayInv.
      cbn [trace timers set_channels observe set_timers now].
      apply (delay_inv_completed _ _ _ t); [done..|].
      apply (delay_inv_timers _ (timers st)); [|done].
      intros d' c'. apply elem_of_delete.
    + unfold DelayInv, cleaned_up.
      cbn [trace timers set_activeProjects observe set_timers now].
      apply delay_inv_observe; [not_completed_emit|].
      apply (delay_inv_timers _ (timers st)); [|done].
      intros d' c'. apply elem_of_delete.
  - done.
  - cbn [step]. unfold exec, sse_detach, modify.
    by destruct (sseClients st !! p).
  - cbn [step]. unfold exec, disconnect, modify.
    by destruct (channels st !! res).
Qed.

Lemma DelayInv_init : DelayInv init.
Proof. split; intros ? ? Hin; by apply elem_of_nil in Hin. Qed.

Lemma DelayInv_run inputs : DelayInv (run init inputs).
Proof. apply run_invariant; [apply DelayInv_init|apply DelayInv_step]. Qed.



(** ** The registry cleanup *)

Lemma detached_at_mono tr e projectId t :
  detached_at tr projectId t → detached_at (e :: tr) projectId t.
Proof. intros (c & Hin & H). exists c. split; [by right|done]. Qed.

Lemma cleanup_inv_observe tr ts t o :
  (∀ projectId b, o ≠ ObsDelete projectId b) →
  cleanup_inv tr ts → cleanup_inv ((t, o) :: tr) ts.
Proof.
  intros Ho [H1 H2]. split.
  - intros d p Hin. destruct (H1 d p Hin) as (t0 & Hn & Hd).
    exists t0. split; [by apply detached_at_mono|done].
  - intros t' p b [Heq|Hin]%elem_of_cons.
    + injection Heq as _ Heq. by destruct (Ho p b).
    + destruct (H2 t' p b Hin) as (t0 & Hn & Hd).
      exists t0. split; [by apply detached_at_mono|done].
Qed.

Lemma cleanup_inv_timers tr ts ts' :
  (∀ d p, {| due := d; action := TCleanup p |} ∈ ts' →
          {| due := d; action := TCleanup p |} ∈ ts) →
  cleanup_inv tr ts → cleanup_inv tr ts'.
Proof. intros Hsub [H1 H2]. split; [|done]. intros d p Hin. by apply H1, Hsub. Qed.

Lemma cleanup_inv_completion tr ts d c :
  cleanup_inv tr ts → cleanup_inv tr (ts ++ [{| due := d; action := TCompleted c |}]).
Proof.
  apply cleanup_inv_timers. intros d' p [Hin|Hin]%elem_of_app; [done|].
  by apply list_elem_of_singleton in Hin.
Qed.

Lemma cleanup_inv_detach tr ts c t :
  cleanup_inv tr ts →
  cleanup_inv ((t, ObsDetach c) :: tr)
    (ts ++ [{| due := t + 600000; action := TCleanup (cl_projectId c) |}]).
Proof.
  intros Hinv.
  apply (cleanup_inv_observe _ _ t (ObsDetach c)) in Hinv; [|by intros].
  destruct Hinv as [H1 H2]. split; [|done].
  intros d p [Hin|Hin]%elem_of_app; [by apply H1|].
  apply list_elem_of_singleton in Hin. injection Hin as -> ->.
  exists t. split; [|done]. exists c. split; [by left|done].
Qed.

Lemma cleanup_inv_delete tr ts projectId b t t' :
  detached_at tr projectId t → t + 600000 ≤ t' →
  cleanup_inv tr ts → cleanup_inv ((t', ObsDelete projectId b) :: tr) ts.
Proof.
  intros Hn Hle [H1 H2]. split.
  - intros d p Hin. destruct (H1 d p Hin) as (t0 & Hn0 & Hd).
    exists t0. split; [by apply detached_at_mono|done].
  - intros t'' p b' [Heq|Hin]%elem_of_cons.
    + injection Heq as -> -> ->. exists t.
      split; [by apply detached_at_mono|done].
    + destruct (H2 t'' p b' Hin) as (t0 & Hn0 & Hd).
      exists t0. split; [by apply detached_at_mono|done].
Qed.

Ltac not_delete := let p := fresh in let b := fresh in intros p b; discriminate.

Lemma CleanupInv_emit projectId payload st :
  CleanupInv st → CleanupInv (exec (emitToProject projectId payload) st).
Proof.
  intros Hinv. rewrite exec_emitToProject. unfold CleanupInv.
  cbn [trace timers set_channels observe].
  apply cleanup_inv_observe; [not_delete|done].
Qed.

Lemma CleanupInv_detached c st : CleanupInv st → CleanupInv (detached c st).
Proof.
  intros Hinv. unfold CleanupInv. cbn [trace timers detached].
  by apply cleanup_inv_detach.
Qed.

Lemma CleanupInv_onProject c evt st :
  CleanupInv st → CleanupInv (exec (onProject c evt) st).
Proof.
  intros Hinv.
  destruct (onProject_cases c evt st) as [->|[(Hid & Hty & ->)|(Hid & Hty & ->)]].
  - done.
  - unfold CleanupInv. cbn [trace timers completion_scheduled set_timers].
    by apply cleanup_inv_completion.
  - unfold failed_state. by apply CleanupInv_detached, CleanupInv_emit.
Qed.

Lemma CleanupInv_onJob c evt st :
  CleanupInv st → CleanupInv (exec (onJob c evt) st).
Proof.
  intros Hinv.
  destruct (onJob_cases c evt st) as [->|[(Hid & Hty & ->)|(Hid & Hty & ->)]];
    [done| |done].
  by apply CleanupInv_emit.
Qed.

Lemma CleanupInv_step st i : CleanupInv st → CleanupInv (step st i).
Proof.
  intros Hinv. destruct i as [body result|evt|evt|i resolved|ms|i|p res|p res|res].
  - change (CleanupInv (exec (post_generate body result) st)).
    destruct (post_generate_cases body result st)
      as [->|[(params & ->)|(params & project & _ & ->)]]; [done|..];
      unfold CleanupInv; cbn [trace timers observe accepted_state];
      repeat (apply cleanup_inv_observe; [not_delete|]); done.
  - cbn [step]. rewrite exec_emit_project.
    apply (fold_left_preserves CleanupInv).
    + unfold CleanupInv. cbn [trace timers observe].
      apply cleanup_inv_observe; [not_delete|done].
    + intros s c _. apply CleanupInv_onProject.
  - cbn [step]. rewrite exec_emit_job.
    apply (fold_left_preserves CleanupInv).
    + unfold CleanupInv. cbn [trace timers observe].
      apply cleanup_inv_observe; [not_delete|done].
    + intros s c _. apply CleanupInv_onJob.
  - destruct (settle_cases st i resolved)
      as [->|[(p & _ & ->)|(p & resultUrl & _ & ->)]]; [done..|].
    by apply CleanupInv_emit.
  - done.
  - destruct (fire_cases st i)
      as [->|[(d & c & Ht & Hd & ->)|(d & p & Ht & Hd & ->)]]; [done|..].
    + unfold completed_state. apply CleanupInv_detached, CleanupInv_emit.
      unfold CleanupInv. cbn [trace timers set_timers].
      apply (cleanup_inv_timers _ (timers st)); [|done].
      intros d' p'. apply elem_of_delete.
    + destruct Hinv as [H1 H2].
      destruct (H1 d p) as (t & Hn & ->); [by eapply list_elem_of_lookup_2|].
      unfold CleanupInv, cleaned_up.
      cbn [trace timers set_activeProjects observe set_timers now].
      apply (cleanup_inv_delete _ _ _ _ t); [done..|].
      apply (cleanup_inv_timers _ (timers st)); [|done].
      intros d' p'. apply elem_of_delete.
  - done.
  - cbn [step]. unfold exec, sse_detach, modify.
    by destruct (sseClients st !! p).
  - cbn [step]. unfold exec, disconnect, modify.
    by destruct (channels st !! res).
Qed.

Lemma CleanupInv_init : CleanupInv init.
Proof. split; intros ? ?; [|intros ?]; intros Hin; by apply elem_of_nil in Hin. Qed.

Lemma CleanupInv_run inputs : CleanupInv (run init inputs).
Proof. apply run_invariant; [apply CleanupInv_init|apply CleanupInv_step]. Qed.

(** *** Each registry entry is removed at most once *)

Lemma count_cons {A} (f : A → bool) x l :
  count f (x :: l) = ((if f x then 1 else 0) + count f l)%nat.
Proof. unfold count. cbn. by destruct (f x). Qed.

Lemma present_le_1 projectId ap : (present projectId ap ≤ 1)%nat.
Proof. unfold present. destruct (ap !! projectId); lia. Qed.

Lemma count_inv_observe tr ap t o :
  (∀ p b, o ≠ ObsDelete p b) → (∀ c, o ≠ ObsRegistered c) →
  count_inv tr ap → count_inv ((t, o) :: tr) ap.
Proof.
  intros Hd Hr Hinv projectId. rewrite !count_cons.
  assert (is_removal projectId (t, o) = false) as ->.
  { unfold is_removal. cbn. destruct o; try done. by destruct (Hd projectId0 present0). }
  assert (is_registration projectId (t, o) = false) as ->.
  { unfold is_registration. cbn. destruct o; try done. by destruct (Hr c). }
  apply Hinv.
Qed.

Lemma count_inv_register tr ap t c project :
  count_inv tr ap →
  count_inv ((t, ObsRegistered c) :: tr) (<[cl_projectId c := project]> ap).
Proof.
  intros Hinv projectId. rewrite !count_cons.
  destruct (Hinv projectId) as [Hle Hge].
  pose proof (present_le_1 projectId ap) as Hp.
  change (is_removal projectId (t, ObsRegistered c)) with false.
  change (is_registration projectId (t, ObsRegistered c))
    with (String.eqb (cl_projectId c) projectId).
  destruct (String.eqb_spec (cl_projectId c) projectId) as [->|Hne].
  - unfold present in *. rewrite lookup_insert_eq.
    destruct (ap !! projectId); cbn; lia.
  - unfold present in *. rewrite lookup_insert_ne by done.
    destruct (ap !! projectId); cbn; lia.
Qed.

Lemma count_inv_delete tr ap t p :
  count_inv tr ap →
  count_inv ((t, ObsDelete p (bool_decide (is_Some (ap !! p)))) :: tr) (delete p ap).
Proof.
  intros Hinv projectId. rewrite !count_cons.
  destruct (Hinv projectId) as [Hle Hge].
  change (is_registration projectId (t, ObsDelete p _)) with false.
  assert (is_removal projectId (t, ObsDelete p (bool_decide (is_Some (ap !! p))))
          = bool_decide (is_Some (ap !! p)) && String.eqb p projectId) as ->.
  { unfold is_removal. cbn [snd]. by destruct (bool_decide _). }
  destruct (String.eqb_spec p projectId) as [->|Hne].
  - unfold present in *. rewrite lookup_delete_eq.
    destruct (ap !! projectId) as [x|] eqn:E.
    + rewrite bool_decide_eq_true_2 by eauto. cbn. lia.
    + rewrite bool_decide_eq_false_2 by (by intros [? ?]). cbn. lia.
  - unfold present in *. rewrite lookup_delete_ne by done.
    rewrite andb_false_r. destruct (ap !! projectId); cbn; lia.
Qed.

Ltac not_registered := let c := fresh in intros c; discriminate.

Lemma CountInv_emit projectId payload st :
  CountInv st → CountInv (exec (emitToProject projectId payload) st).
Proof.
  intros Hinv. rewrite exec_emitToProject. unfold CountInv.
  cbn [trace activeProjects set_channels observe].
  apply count_inv_observe; [not_delete|not_registered|done].
Qed.

Lemma CountInv_detached c st : CountInv st → CountInv (detached c st).
Proof.
  intros Hinv. unfold CountInv. cbn [trace activeProjects detached].
  apply count_inv_observe; [not_delete|not_registered|done].
Qed.

Lemma CountInv_onProject c evt st :
  CountInv st → CountInv (exec (onProject c evt) st).
Proof.
  intros Hinv.
  destruct (onProject_cases c evt st) as [->|[(Hid & Hty & ->)|(Hid & Hty & ->)]];
    [done..|].
  unfold failed_state. by apply CountInv_detached, CountInv_emit.
Qed.

Lemma CountInv_onJob c evt st :
  CountInv st → CountInv (exec (onJob c evt) st).
Proof.
  intros Hinv.
  destruct (onJob_cases c evt st) as [->|[(Hid & Hty & ->)|(Hid & Hty & ->)]];
    [done| |done].
  by apply CountInv_emit.
Qed.

Lemma CountInv_step st i : CountInv st → CountInv (step st i).
Proof.
  intros Hinv. destruct i as [body result|evt|evt|i resolved|ms|i|p res|p res|res].
  - change (CountInv (exec (post_generate body result) st)).
    destruct (post_generate_cases body result st)
      as [->|[(params & ->)|(params & project & _ & ->)]]; [done|..];
      unfold CountInv; cbn [trace activeProjects observe accepted_state].
    + apply count_inv_observe; [not_delete|not_registered|done].
    + apply (count_inv_register _ _ _
               {| cl_id := nextClosure st; cl_projectId := project_id project;
                  cl_project := project |}).
      apply count_inv_observe; [not_delete|not_registered|done].
  - cbn [step]. rewrite exec_emit_project.
    apply (fold_left_preserves CountInv).
    + unfold CountInv. cbn [trace activeProjects observe].
      apply count_inv_observe; [not_delete|not_registered|done].
    + intros s c _. apply CountInv_onProject.
  - cbn [step]. rewrite exec_emit_job.
    apply (fold_left_preserves CountInv).
    + unfold CountInv. cbn [trace activeProjects observe].
      apply count_inv_observe; [not_delete|not_registered|done].
    + intros s c _. apply CountInv_onJob.
  - destruct (settle_cases st i resolved)
      as [->|[(p & _ & ->)|(p & resultUrl & _ & ->)]]; [done..|].
    by apply CountInv_emit.
  - done.
  - destruct (fire_cases st i)
      as [->|[(d & c & Ht & Hd & ->)|(d & p & Ht & Hd & ->)]]; [done|..].
    + unfold completed_state. by apply CountInv_detached, CountInv_emit.
    + unfold CountInv, cleaned_up.
      cbn [trace activeProjects set_activeProjects observe set_timers now].
      by apply count_inv_delete.
  - done.
  - cbn [step]. unfold exec, sse_detach, modify.
    by destruct (sseClients st !! p).
  - cbn [step]. unfold exec, disconnect, modify.
    by destruct (channels st !! res).
Qed.

Lemma CountInv_init : CountInv init.
Proof. intros projectId. unfold present. cbn. rewrite lookup_empty. cbn. lia. Qed.

Lemma CountInv_run inputs : CountInv (run init inputs).
Proof. apply run_invariant; [apply CountInv_init|apply CountInv_step]. Qed.

(** C7: [detach] arms a cleanup timer due 600000 ms later and leaves the
    registry alone; the timer cannot fire before it is due, and when it
    fires it deletes the project's entry, which changes nothing when the
    entry is already gone (the cleanup is idempotent). So on every run each
    [activeProjects.delete] comes at least 600000 ms after a [detach] of
    that project, and the entries really removed never outnumber the
    entries registered: a project registered once is, at any time, either
    still in the registry or was removed exactly once. *)
Theorem C7_cleanup_after_ten_minutes_once :
  (∀ c st,
     let st' := exec (detach c) st in
     timers st'
     = timers st ++ [{| due := now st + 600000; action := TCleanup (cl_projectId c) |}]
     ∧ activeProjects st' = activeProjects st)
  ∧ (∀ st i d projectId,
       timers st !! i = Some {| due := d; action := TCleanup projectId |} →
       (now st < d → step st (Fire i) = st)
       ∧ (d ≤ now st →
          activeProjects (step st (Fire i)) = delete projectId (activeProjects st)
          ∧ (activeProjects st !! projectId = None →
             activeProjects (step st (Fire i)) = activeProjects st)))
  ∧ (∀ inputs t' projectId b,
       (t', ObsDelete projectId b) ∈ history (run init inputs) →
       ∃ t c,
         (t, ObsDetach c) ∈ history (run init inputs)
         ∧ cl_projectId c = projectId
         ∧ t + 600000 ≤ t')
  ∧ (∀ inputs projectId,
       let st := run init inputs in
       (removals projectId st + present projectId (activeProjects st)
          ≤ registrations projectId st)%nat
       ∧ (registrations projectId st = 1%nat →
          (removals projectId st + present projectId (activeProjects st) = 1)%nat)).
Proof.
  split; [|split; [|split]].
  - by intros c st.
  - intros st i d projectId Ht. split.
    + intros Hearly. cbn [step]. rewrite Ht. cbn [due].
      by destruct (Z.leb_spec d (now st)); [lia|].
    + intros Hdue. cbn [step]. rewrite Ht. cbn [due action].
      destruct (Z.leb_spec d (now st)); [|lia].
      rewrite exec_run_timer_cleanup.
      cbn [activeProjects cleaned_up set_activeProjects observe set_timers].
      split; [done|]. apply delete_id.
  - intros inputs t' projectId b Hin. apply elem_of_history in Hin.
    destruct (CleanupInv_run inputs) as [_ H2].
    destruct (H2 t' projectId b Hin) as (t & (c & Hc & Hid) & Hle).
    exists t, c. by rewrite elem_of_history.
  - intros inputs projectId. cbv zeta.
    destruct (CountInv_run inputs projectId) as [Hle Hge].
    unfold removals, registrations. split; [done|]. lia.
Qed.

Lemma C7_cleanup_after_ten_minutes_once_witness :
  activeProjects P1_failed_long_ago !! "P1"%string = Some (project_P1 ["J0"; "J1"]%string)
  ∧ activeProjects (step P1_failed_long_ago (Fire 0)) !! "P1"%string = None.
Proof.
  destruct C7_cleanup_after_ten_minutes_once as (_ & Hfire & _ & _).
  destruct (Hfire P1_failed_long_ago 0%nat 600000 "P1"%string eq_refl) as [_ Hdue].
  destruct Hdue as [Hgone _]; [by vm_compute|].
  split; [reflexivity|]. rewrite Hgone. apply lookup_delete_eq.
Defined.

(** ** After the listeners are gone *)

Lemma dropped_project evt st :
  no_listener (pe_projectId evt) st →
  step st (ProviderProject evt) = observe (ObsProviderProject evt) st.
Proof.
  intros Hno. cbn [step]. rewrite exec_emit_project.
  apply fold_onProject_others. intros l Hl. apply Hno. by left.
Qed.

Lemma dropped_job evt st :
  no_listener (je_projectId evt) st →
  step st (ProviderJob evt) = observe (ObsProviderJob evt) st.
Proof.
  intros Hno. cbn [step]. rewrite exec_emit_job.
  apply fold_onJob_others. intros l Hl. apply Hno. by right.
Qed.

Lemma sole_listener_off c listeners l :
  sole_listener c listeners → l ∈ off c listeners →
  cl_projectId l ≠ cl_projectId c.
Proof.
  intros (before & after & -> & Hothers) Hl.
  pose proof (off_removes _ _ _ Hl) as Hid.
  apply off_subset in Hl.
  apply Hothers. apply elem_of_app in Hl as [Hl|Hl]; [apply elem_of_app; by left|].
  apply elem_of_cons in Hl as [->|Hl]; [done|]. apply elem_of_app. by right.
Qed.

Lemma no_listener_detached c st :
  sole_listener c (projectListeners st) → sole_listener c (jobListeners st) →
  no_listener (cl_projectId c) (detached c st).
Proof.
  intros Hp Hj l [Hl|Hl]; cbn [projectListeners jobListeners detached] in Hl.
  - by apply (sole_listener_off c (projectListeners st)).
  - by apply (sole_listener_off c (jobListeners st)).
Qed.

Lemma same_state_refl st : same_state st st.
Proof. by repeat split. Qed.

Lemma emitted_observe_other projectId o st :
  (∀ p payload, o ≠ ObsEmit p payload) →
  emitted projectId (observe o st) = emitted projectId st.
Proof.
  intros Ho. unfold emitted, history. cbn [trace observe].
  rewrite emitted_cons. destruct o; try by rewrite app_nil_r.
  by destruct (Ho projectId0 payload).
Qed.

Lemma dropped_run projectId st inputs :
  no_listener projectId st →
  Forall (notice_for projectId) inputs →
  same_state (run st inputs) st
  ∧ emitted projectId (run st inputs) = emitted projectId st.
Proof.
  intros Hno Hall. revert st Hno.
  induction Hall as [|i inputs Hi _ IH]; intros st Hno; cbn [run fold_left].
  - split; [apply same_state_refl|done].
  - assert (∃ o, step st i = observe o st ∧ ∀ p payload, o ≠ ObsEmit p payload)
      as (o & Hstep & Ho).
    { destruct i as [| evt | evt | | | | | |]; cbn in Hi; try done; subst projectId.
      - exists (ObsProviderProject evt). by rewrite dropped_project.
      - exists (ObsProviderJob evt). by rewrite dropped_job. }
    rewrite Hstep. destruct (IH (observe o st)) as [Hsame Hemit]; [done|].
    split.
    + destruct Hsame as (?&?&?&?&?&?&?&?&?). by repeat split.
    + unfold run in Hemit. rewrite Hemit. by apply emitted_observe_other.
Qed.

(** *** The lifecycle the specification describes *)

(** C3, the claim as stated fails: the provider announces the completion
    and, within the 2000 ms window, an error. The bridge pushes [failed]
    at once and, when the timer of the completion fires, [completed]: the
    project leaves a terminal state for the other one. *)
Lemma C3_failed_then_completed :
  let st :=
    run P1_running
      [ ProviderProject (completed_event "P1");
        ProviderProject (error_event "P1" "out of credits");
        Elapse 2000;
        Fire 0 ] in
  emitted "P1" st = [PFailed "out of credits"; PCompleted]
  ∧ spec_accepts pending (emitted "P1" st) = false.
Proof. by vm_compute. Qed.

(** C3 (amended): the bridge keeps no lifecycle state of its own. Once it
    has detached its listeners for a project (which it does when it pushes
    [failed] and when the delayed completion fires), every further provider
    notification for that project, terminal or not, is dropped silently:
    nothing is pushed to the hub, no timer is armed, and nothing but the
    history changes. *)
Theorem C3_notices_after_detach_dropped c st inputs :
  sole_listener c (projectListeners st) →
  sole_listener c (jobListeners st) →
  Forall (notice_for (cl_projectId c)) inputs →
  let st' := exec (detach c) st in
  no_listener (cl_projectId c) st'
  ∧ same_state (run st' inputs) st'
  ∧ emitted (cl_projectId c) (run st' inputs) = emitted (cl_projectId c) st'.
Proof.
  intros Hp Hj Hall. cbv zeta.
  change (exec (detach c) st) with (detached c st).
  pose proof (no_listener_detached c st Hp Hj) as Hno.
  split; [done|]. by apply dropped_run.
Qed.

Lemma C3_notices_after_detach_dropped_witness :
  emitted "P1"
    (run (exec (detach P1_closure) P1_running)
       [ ProviderJob (progress_event "J0" (1 # 2));
         ProviderProject (completed_event "P1");
         ProviderProject (error_event "P1" "late") ])
  = [].
Proof.
  destruct (C3_notices_after_detach_dropped P1_closure P1_running
              [ ProviderJob (progress_event "J0" (1 # 2));
                ProviderProject (completed_event "P1");
                ProviderProject (error_event "P1" "late") ]
              P1_running_project_listener P1_running_job_listener)
    as (_ & _ & Hemit).
  - repeat constructor.
  - etrans; [exact Hemit|reflexivity].
Defined.

(** ** The order of the Events *)

Lemma emitted_exec_emit projectId payload st :
  emitted projectId (exec (emitToProject projectId payload) st)
  = emitted projectId st ++ [payload].
Proof. rewrite exec_emitToProject. apply emitted_after_emit. Qed.

Lemma relays_quiet projectId k st st' :
  emitted projectId st' = emitted projectId st →
  sseClients st' = sseClients st → channels st' = channels st →
  relays projectId k st st' [].
Proof.
  intros He Hs Hc. split; [by rewrite app_nil_r|].
  unfold subscribed, delivered. rewrite Hs, Hc. by rewrite app_nil_r.
Qed.

Lemma relays_observe projectId k o st :
  (∀ p payload, o ≠ ObsEmit p payload) →
  relays projectId k st (observe o st) [].
Proof. intros Ho. apply relays_quiet; [by apply emitted_observe_other|done..]. Qed.

Lemma relays_trans projectId k st st1 st2 l1 l2 :
  relays projectId k st st1 l1 → relays projectId k st1 st2 l2 →
  relays projectId k st st2 (l1 ++ l2).
Proof.
  intros [He1 Hs1] [He2 Hs2]. split.
  - by rewrite He2, He1, app_assoc.
  - intros Hsub. destruct (Hs1 Hsub) as [Hsub1 Hd1].
    destruct (Hs2 Hsub1) as [Hsub2 Hd2]. split; [done|].
    by rewrite Hd2, Hd1, map_app, app_assoc.
Qed.

Lemma relays_after_quiet projectId k st st1 st2 l :
  relays projectId k st st1 [] → relays projectId k st1 st2 l →
  relays projectId k st st2 l.
Proof. apply (relays_trans _ _ _ _ _ [] l). Qed.

Lemma relays_then_quiet projectId k st st1 st2 l :
  relays projectId k st st1 l → relays projectId k st1 st2 [] →
  relays projectId k st st2 l.
Proof.
  intros H1 H2. rewrite <- (app_nil_r l). by apply (relays_trans _ _ _ st1).
Qed.

Lemma relays_emit projectId k payload st :
  relays projectId k st (exec (emitToProject projectId payload) st) [payload].
Proof.
  split; [apply emitted_exec_emit|].
  intros (clients & ch & Hset & Hnd & Hin & Hk & Hw). split.
  - rewrite exec_emitToProject.
    exists clients, {| writable := true;
                       received := sse_data projectId payload :: received ch |}.
    cbn [sseClients channels set_channels observe]. rewrite Hset. cbn [default].
    repeat split; try done. by apply fanout_writable.
  - by apply (delivered_after_emit _ _ _ clients k ch).
Qed.

Lemma relays_detached projectId k c st : relays projectId k st (detached c st) [].
Proof.
  apply relays_quiet; [|done..].
  change (emitted ?p (detached c ?s)) with (emitted p (observe (ObsDetach c) s)).
  by apply emitted_observe_other.
Qed.

Lemma prompt_job_step c k evt resolved st :
  attached c st → je_projectId evt = cl_projectId c →
  let st' := run st (prompt_inputs (NJob evt resolved)) in
  attached c st'
  ∧ relays (cl_projectId c) k st st' (spec_relay [NJob evt resolved]).
Proof.
  intros (Hp & Hj & Haw) Hid. cbv zeta.
  pose proof (relays_observe (cl_projectId c) k (ObsProviderJob evt) st
                ltac:(by intros)) as Hobs.
  unfold prompt_inputs, spec_relay.
  destruct (String.eqb_spec (je_type evt) "completed") as [Hc|Hc].
  - rewrite Hc. cbn [String.eqb Ascii.eqb Bool.eqb run fold_left].
    rewrite (dispatch_job_sole c evt st Hj Hid).
    replace (exec (onJob c evt) (observe (ObsProviderJob evt) st))
      with (suspended c evt (observe (ObsProviderJob evt) st))
      by (unfold exec; by rewrite (onJob_completed c evt _ Hid Hc)).
    cbn [step awaiting suspended set_awaiting observe]. rewrite Haw.
    cbn [app lookup list_lookup delete list_delete].
    destruct resolved as [resultUrl|].
    + rewrite exec_call_async. unfold onJob_resume.
      cbn [pd_closure pd_jobId pd_positivePrompt].
      split; [by rewrite exec_emitToProject|].
      eapply relays_after_quiet; [exact Hobs|].
      eapply relays_after_quiet; [|apply relays_emit].
      by apply relays_quiet.
    + split; [done|].
      eapply relays_after_quiet; [exact Hobs|].
      by apply relays_quiet.
  - cbn [run fold_left]. rewrite (dispatch_job_sole c evt st Hj Hid).
    destruct (String.eqb_spec (je_type evt) "progress") as [Hpr|Hpr].
    + rewrite (onJob_progress c evt _ Hid Hpr).
      split; [by rewrite exec_emitToProject|].
      eapply relays_after_quiet; [exact Hobs|].
      apply relays_emit.
    + unfold exec. rewrite (onJob_other_type c evt _ Hpr Hc).
      split; [done|]. exact Hobs.
Qed.

Lemma prompt_project_step c k evt st :
  attached c st → pe_projectId evt = cl_projectId c →
  let st' := step st (ProviderProject evt) in
  (pe_type evt ≠ "error"%string →
   attached c st' ∧ relays (cl_projectId c) k st st' [])
  ∧ (pe_type evt = "error"%string →
     no_listener (cl_projectId c) st' ∧ awaiting st' = []
     ∧ relays (cl_projectId c) k st st' [PFailed (pe_error evt)]).
Proof.
  intros (Hp & Hj & Haw) Hid. cbv zeta.
  pose proof (relays_observe (cl_projectId c) k (ObsProviderProject evt) st
                ltac:(by intros)) as Hobs.
  rewrite (dispatch_project_sole c evt st Hp Hid). split.
  - intros Hne.
    destruct (decide (pe_type evt = "completed"%string)) as [Hc|Hc].
    + unfold exec. rewrite (onProject_completed c evt _ Hid Hc).
      split; [done|].
      eapply relays_after_quiet; [exact Hobs|].
      by apply relays_quiet.
    + unfold exec. rewrite (onProject_other_type c evt _ Hc Hne).
      split; [done|]. exact Hobs.
  - intros He. unfold exec. rewrite (onProject_error c evt _ Hid He).
    unfold failed_state. split; [|split].
    + apply no_listener_detached; by rewrite exec_emitToProject.
    + by rewrite exec_emitToProject.
    + eapply relays_after_quiet; [exact Hobs|].
      eapply relays_then_quiet; [apply relays_emit|].
      apply relays_detached.
Qed.

Lemma dropped_prompt projectId k ns st :
  no_listener projectId st → awaiting st = [] →
  Forall (fun n => notice_project n = projectId) ns →
  relays projectId k st (run st (flat_map prompt_inputs ns)) [].
Proof.
  intros Hno Haw Hall. revert st Hno Haw.
  induction Hall as [|n ns Hn _ IH]; intros st Hno Haw.
  { by apply relays_quiet. }
  cbn [flat_map]. rewrite run_app.
  assert (∃ o, run st (prompt_inputs n) = observe o st
               ∧ ∀ p payload, o ≠ ObsEmit p payload) as (o & -> & Ho).
  { destruct n as [evt|evt resolved]; cbn in Hn; subst projectId.
    - exists (ObsProviderProject evt). cbn [prompt_inputs run fold_left].
      by rewrite dropped_project.
    - exists (ObsProviderJob evt). unfold prompt_inputs.
      destruct (String.eqb (je_type evt) "completed"); cbn [run fold_left];
        rewrite dropped_job by done; [|done].
      cbn [step awaiting observe]. by rewrite Haw. }
  eapply relays_after_quiet; [by apply relays_observe|].
  by apply IH.
Qed.

(** When every lookup settles before the next notification, the hub and
    every subscriber receive the provider's notifications in the
    provider's order. *)
Lemma relay_prompt c k ns st :
  attached c st →
  Forall (fun n => notice_project n = cl_projectId c) ns →
  relays (cl_projectId c) k st (run st (flat_map prompt_inputs ns)) (spec_relay ns).
Proof.
  intros Hatt Hall. revert st Hatt.
  induction Hall as [|n ns Hn Hall IH]; intros st Hatt.
  - by apply relays_quiet.
  - cbn [flat_map]. rewrite run_app. destruct n as [evt|evt resolved]; cbn in Hn.
    + cbn [prompt_inputs run fold_left] in *.
      destruct (prompt_project_step c k evt st Hatt Hn) as [Hgo Hstop].
      cbn [spec_relay].
      change (fold_left step ?l ?s) with (run s l).
      destruct (String.eqb_spec (pe_type evt) "error") as [He|He].
      * destruct (Hstop He) as (Hno & Haw & Hrel).
        eapply relays_then_quiet; [exact Hrel|].
        by apply dropped_prompt.
      * destruct (Hgo He) as [Hatt' Hrel].
        eapply relays_after_quiet; [exact Hrel|]. by apply IH.
    + destruct (prompt_job_step c k evt resolved st Hatt Hn) as [Hatt' Hrel].
      replace (spec_relay (NJob evt resolved :: ns))
        with (spec_relay [NJob evt resolved] ++ spec_relay ns).
      * eapply relays_trans; [exact Hrel|]. by apply IH.
      * cbn [spec_relay].
        destruct (String.eqb (je_type evt) "progress"); [done|].
        destruct (String.eqb (je_type evt) "completed"); [|done].
        by destruct resolved.
Qed.

(** C2, the claim as stated fails: the provider announces the completion
    of job J0 and then progress of job J1 before the result lookup of J0
    has settled. The hub gets the progress Event of J1 first. *)
Lemma C2_job_completion_overtaken :
  let st :=
    run P1_running
      [ ProviderJob (job_completed_event "J0");
        ProviderJob (progress_event "J1" (1 # 2));
        Settle 0 (Some "https://cdn/J0.png"%string) ] in
  notified_jobs (history st)
  = [("completed", "J0"); ("progress", "J1")]%string
  ∧ relayed_jobs (history st)
    = [("progress", "J1"); ("completed", "J0")]%string
  ∧ emitted "P1" st
    = [ PProgress "J1" 50;
        PJobCompleted "J0" "https://cdn/J0.png" "Nami, battle scene" ].
Proof. by vm_compute. Qed.

(** C2 (amended): while the project's closure is listening, a progress
    notification is pushed to the hub in the turn of the loop that
    dispatches it, right after it in the history, and written to every
    subscriber that accepts writes; a job completion pushes nothing in its
    own turn, it parks the call, and its [jobCompleted] Event is pushed in
    the turn in which the result lookup settles (the [completed] Event when
    its 2000 ms timer fires), so these can come after Events of later
    notifications. When every lookup settles before the next notification
    is dispatched, the hub and each subscriber receive the notifications of
    the project in the provider's order, none merged, up to the failure. *)
Theorem C2_order_of_events c k :
  (∀ evt st,
     sole_listener c (jobListeners st) →
     je_projectId evt = cl_projectId c → je_type evt = "progress"%string →
     let st' := step st (ProviderJob evt) in
     history st'
     = history st
         ++ [ (now st, ObsProviderJob evt);
              (now st, ObsEmit (cl_projectId c)
                         (PProgress (je_jobId evt) (percent (je_progress evt)))) ]
     ∧ (subscribed k (cl_projectId c) st →
        delivered k st'
        = delivered k st
            ++ [sse_data (cl_projectId c)
                  (PProgress (je_jobId evt) (percent (je_progress evt)))]))
  ∧ (∀ evt st,
       sole_listener c (jobListeners st) →
       je_projectId evt = cl_projectId c → je_type evt = "completed"%string →
       let st' := step st (ProviderJob evt) in
       history st' = history st ++ [(now st, ObsProviderJob evt)]
       ∧ channels st' = channels st
       ∧ awaiting st'
         = awaiting st
             ++ [{| pd_closure := c; pd_jobId := je_jobId evt;
                    pd_resultUrl := je_resultUrl evt;
                    pd_positivePrompt := je_positivePrompt evt |}])
  ∧ (∀ st i p resultUrl,
       awaiting st !! i = Some p →
       history (step st (Settle i (Some resultUrl)))
       = history st
           ++ [(now st, ObsEmit (cl_projectId (pd_closure p))
                          (PJobCompleted (pd_jobId p) resultUrl (pd_positivePrompt p)))])
  ∧ (∀ ns st,
       attached c st →
       Forall (fun n => notice_project n = cl_projectId c) ns →
       let st' := run st (flat_map prompt_inputs ns) in
       emitted (cl_projectId c) st' = emitted (cl_projectId c) st ++ spec_relay ns
       ∧ (subscribed k (cl_projectId c) st →
          delivered k st'
          = delivered k st ++ map (sse_data (cl_projectId c)) (spec_relay ns))).
Proof.
  split; [|split; [|split]].
  - intros evt st Hsole Hid Hty. cbv zeta.
    rewrite (dispatch_job_sole c evt st Hsole Hid).
    rewrite (onJob_progress c evt _ Hid Hty). split.
    + rewrite exec_emitToProject. unfold history.
      cbn [trace set_channels observe now rev]. by rewrite <- app_assoc.
    + intros Hsub.
      destruct (relays_emit (cl_projectId c) k
                  (PProgress (je_jobId evt) (percent (je_progress evt)))
                  (observe (ObsProviderJob evt) st)) as [_ Hdel].
      by destruct (Hdel Hsub) as [_ ->].
  - intros evt st Hsole Hid Hty. cbv zeta.
    rewrite (dispatch_job_sole c evt st Hsole Hid).
    unfold exec. by rewrite (onJob_completed c evt _ Hid Hty).
  - intros st i p resultUrl Hp. cbn [step]. rewrite Hp.
    rewrite exec_call_async. unfold onJob_resume. by rewrite exec_emitToProject.
  - intros ns st Hatt Hall. cbv zeta.
    destruct (relay_prompt c k ns st Hatt Hall) as [Hemit Hdel].
    split; [done|]. intros Hsub. by destruct (Hdel Hsub).
Qed.

Lemma P1_running_attached : attached P1_closure P1_running.
Proof.
  split; [apply P1_running_project_listener|].
  split; [apply P1_running_job_listener|reflexivity].
Qed.

Lemma P1_running_subscribed : subscribed 7 "P1" P1_running.
Proof.
  exists [7%nat], {| writable := true; received := [] |}.
  split; [reflexivity|]. split; [apply NoDup_singleton|].
  split; [apply list_elem_of_singleton; reflexivity|]. by split.
Qed.

Lemma C2_order_of_events_witness :
  emitted "P1" (run P1_running (flat_map prompt_inputs prompt_notices))
  = [ PJobCompleted "J0" "https://cdn/J0.png" "Nami, battle scene";
      PProgress "J1" 50 ]
  ∧ delivered 7 (run P1_running (flat_map prompt_inputs prompt_notices))
    = [ sse_data "P1" (PJobCompleted "J0" "https://cdn/J0.png" "Nami, battle scene");
        sse_data "P1" (PProgress "J1" 50) ].
Proof.
  destruct (C2_order_of_events P1_closure 7) as (_ & _ & _ & Hprompt).
  destruct (Hprompt prompt_notices P1_running P1_running_attached) as [Hemit Hdel].
  - by repeat constructor.
  - split.
    + etrans; [exact Hemit|reflexivity].
    + etrans; [exact (Hdel P1_running_subscribed)|reflexivity].
Defined.

(** ** The statements above at concrete inputs *)

Lemma C5_broadcast_swallows_failed_writes_witness :
  ∃ st',
    emitToProject "P1" PCompleted hub_with_dead_subscriber = Ok tt st'
    ∧ delivered 1 st' = [sse_data "P1" PCompleted]
    ∧ delivered 2 st' = []
    ∧ delivered 3 st' = [sse_data "P1" PCompleted].
Proof.
  destruct (C5_broadcast_swallows_failed_writes hub_with_dead_subscriber "P1" PCompleted)
    as (st' & Hrun & _ & Hgood & Hdead & _).
  exists st'. split; [exact Hrun|].
  assert (NoDup [1; 2; 3]%nat) as Hnd.
  { by apply (bool_decide_unpack _); vm_compute. }
  split; [|split].
  - rewrite (Hgood [1; 2; 3]%nat 1%nat {| writable := true; received := [] |});
      [reflexivity|reflexivity|exact Hnd| |reflexivity|reflexivity].
    rewrite !elem_of_cons. by left.
  - unfold delivered.
    by rewrite (Hdead 2%nat {| writable := false; received := [] |}).
  - rewrite (Hgood [1; 2; 3]%nat 3%nat {| writable := true; received := [] |});
      [reflexivity|reflexivity|exact Hnd| |reflexivity|reflexivity].
    rewrite !elem_of_cons. by right; right; left.
Defined.

Lemma C10_variations_first_only_witness :
  NoDup (generateOnePieceVariations "battle scene" EmptyString EmptyString)
  ∧ generateOnePieceVariations "battle scene" "Nami" EmptyString !! 10%nat
    = generateOnePieceVariations "battle scene" "Nami" EmptyString !! 0%nat
  ∧ cp_positivePrompt
      (create_params (generateOnePieceVariations "battle scene" EmptyString EmptyString) None)
    = "Monkey D. Luffy, battle scene, on the Thousand Sunny, Eiichiro Oda art style, official One Piece artwork, detailed anime illustration, vibrant colors, dynamic composition"%string.
Proof.
  destruct (C10_variations_first_only "battle scene" EmptyString EmptyString None)
    as (_ & _ & Hdistinct & _ & Hfirst & _).
  destruct (C10_variations_first_only "battle scene" "Nami" EmptyString None)
    as (_ & _ & _ & Hrepeat & _ & _).
  split; [by apply Hdistinct|]. split.
  - apply (Hrepeat eq_refl 0%nat). lia.
  - etrans; [exact Hfirst|reflexivity].
Defined.

(** * Further properties *)

(** ** The outcomes of the generate handler *)

Lemma error_message_nonempty message : error_message message ≠ EmptyString.
Proof. unfold error_message. by destruct message. Qed.

(** X1: POST /api/generate always answers, in one of three ways. Without
    a prompt (absent or empty) it answers 400 "Missing prompt" and touches
    nothing, whatever the provider would have done. With a prompt and a
    provider call that rejects it answers 500 with the rejection's message,
    or "Generation failed" when that is empty, and registers nothing: no
    registry entry, no listener, no timer. Only with a prompt and a created
    project is the request accepted, and then the project is in the registry
    and one more listener is on each provider event. *)
Theorem generate_outcomes body result st :
  (prompt_missing body = true →
   post_generate body result st = Ok (Failed 400 "Missing prompt") st)
  ∧ (prompt_missing body = false →
     ∀ message, rejection_message result = Some message →
     ∃ st',
       post_generate body result st = Ok (Failed 500 (error_message message)) st'
       ∧ error_message message ≠ EmptyString
       ∧ (message ≠ EmptyString → error_message message = message)
       ∧ same_state st' st
       ∧ (∀ e, e ∈ trace st' →
               e ∈ trace st ∨ ∃ params, e = (now st, ObsCreate params)))
  ∧ (prompt_missing body = false →
     ∀ project, result = Created project →
     ∃ jobs st',
       post_generate body result st = Ok (Accepted (project_id project) jobs) st'
       ∧ activeProjects st' !! project_id project = Some project
       ∧ length (projectListeners st') = S (length (projectListeners st))
       ∧ length (jobListeners st') = S (length (jobListeners st))).
Proof.
  unfold prompt_missing, post_generate. split; [|split].
  - destruct (body_prompt body) as [prompt|]; [|done]. by intros ->.
  - destruct (body_prompt body) as [prompt|]; [|done]. intros -> message Hmsg.
    destruct result as [project|m|m]; try done; injection Hmsg as ->;
      (eexists; split; [reflexivity|]);
      (split; [apply error_message_nonempty|]);
      (split; [by destruct message|]);
      (split; [by repeat split|]); cbn [trace observe].
    + intros e [->|He]%elem_of_cons; [right; by eexists|by left].
    + intros e He. by left.
  - destruct (body_prompt body) as [prompt|]; [|done]. intros -> project ->.
    rewrite start_project_created. eexists _, _. split; [reflexivity|].
    cbn [activeProjects projectListeners jobListeners accepted_state].
    split; [apply lookup_insert_eq|]. rewrite !length_app. cbn. lia.
Qed.

Lemma generate_outcomes_witness :
  post_generate no_prompt (Created (project_P1 ["J0"%string])) P1_running
  = Ok (Failed 400 "Missing prompt") P1_running
  ∧ ∃ st',
      post_generate battle_scene (CreateRejected EmptyString) P1_running
      = Ok (Failed 500 "Generation failed") st'
      ∧ same_state st' P1_running.
Proof.
  destruct (generate_outcomes no_prompt (Created (project_P1 ["J0"%string])) P1_running)
    as (Hmissing & _ & _).
  destruct (generate_outcomes battle_scene (CreateRejected EmptyString) P1_running)
    as (_ & Hrejected & _).
  split; [by apply Hmissing|].
  destruct (Hrejected eq_refl EmptyString eq_refl) as (st' & Hrun & _ & _ & Hsame & _).
  by exists st'.
Defined.

(** ** Events of unknown type *)

Lemma fold_onProject_other_type evt listeners st :
  pe_type evt ≠ "completed"%string → pe_type evt ≠ "error"%string →
  fold_left (fun s c => exec (onProject c evt) s) listeners st = st.
Proof.
  intros H1 H2. revert st.
  induction listeners as [|l listeners IH]; intros st; cbn; [done|].
  unfold exec at 2. by rewrite onProject_other_type.
Qed.

Lemma fold_onJob_other_type evt listeners st :
  je_type evt ≠ "progress"%string → je_type evt ≠ "completed"%string →
  fold_left (fun s c => exec (onJob c evt) s) listeners st = st.
Proof.
  intros H1 H2. revert st.
  induction listeners as [|l listeners IH]; intros st; cbn; [done|].
  unfold exec at 2. by rewrite onJob_other_type.
Qed.

(** X2: the bridge relays four kinds of provider events and drops every
    other. A project event whose type is neither "completed" nor "error",
    and a job event whose type is neither "progress" nor "completed" (a
    job-level "error" or "failed", for one), changes nothing in any state,
    however many listeners are registered: no Event, no timer, no parked
    call. *)
Theorem events_of_unknown_type_dropped st :
  (∀ evt, pe_type evt ≠ "completed"%string → pe_type evt ≠ "error"%string →
          step st (ProviderProject evt) = observe (ObsProviderProject evt) st)
  ∧ (∀ evt, je_type evt ≠ "progress"%string → je_type evt ≠ "completed"%string →
            step st (ProviderJob evt) = observe (ObsProviderJob evt) st).
Proof.
  split; intros evt H1 H2; cbn [step].
  - rewrite exec_emit_project. by apply fold_onProject_other_type.
  - rewrite exec_emit_job. by apply fold_onJob_other_type.
Qed.

Lemma events_of_unknown_type_dropped_witness :
  step P1_running (ProviderJob (job_error_event "J0"))
  = observe (ObsProviderJob (job_error_event "J0")) P1_running.
Proof.
  destruct (events_of_unknown_type_dropped P1_running) as [_ Hjob].
  by apply Hjob.
Defined.

(** ** Events reach only the project's own subscribers *)

Lemma channel_kept_by_emit projectId payload k st :
  k ∉ default [] (sseClients st !! projectId) →
  channels (exec (emitToProject projectId payload) st) !! k = channels st !! k.
Proof.
  intros Hk. rewrite exec_emitToProject. cbn [channels set_channels observe].
  by apply fanout_not_subscribed.
Qed.

Lemma sseClients_kept_by_emit projectId payload st :
  sseClients (exec (emitToProject projectId payload) st) = sseClients st.
Proof. by rewrite exec_emitToProject. Qed.

(** X3: a turn of the loop that handles a provider event, a settled
    lookup or a timer writes only to the subscribers of the project it
    concerns. A channel that is not in that project's subscriber set keeps
    what it had, and no such turn changes any subscriber set. *)
Theorem events_reach_only_own_subscribers st k :
  (∀ evt, k ∉ default [] (sseClients st !! pe_projectId evt) →
          channels (step st (ProviderProject evt)) !! k = channels st !! k
          ∧ sseClients (step st (ProviderProject evt)) = sseClients st)
  ∧ (∀ evt, k ∉ default [] (sseClients st !! je_projectId evt) →
            channels (step st (ProviderJob evt)) !! k = channels st !! k
            ∧ sseClients (step st (ProviderJob evt)) = sseClients st)
  ∧ (∀ i p resolved,
       awaiting st !! i = Some p →
       k ∉ default [] (sseClients st !! cl_projectId (pd_closure p)) →
       channels (step st (Settle i resolved)) !! k = channels st !! k
       ∧ sseClients (step st (Settle i resolved)) = sseClients st)
  ∧ (∀ i d c,
       timers st !! i = Some {| due := d; action := TCompleted c |} →
       k ∉ default [] (sseClients st !! cl_projectId c) →
       channels (step st (Fire i)) !! k = channels st !! k
       ∧ sseClients (step st (Fire i)) = sseClients st).
Proof.
  split; [|split; [|split]].
  - intros evt Hk. cbn [step]. rewrite exec_emit_project.
    apply (fold_left_preserves
             (fun s => channels s !! k = channels st !! k
                       ∧ sseClients s = sseClients st)); [done|].
    intros s c _ [Hch Hset].
    destruct (onProject_cases c evt s) as [->|[(Hid & Hty & ->)|(Hid & Hty & ->)]];
      [done..|].
    unfold failed_state.
    change (channels (detached c ?x)) with (channels x).
    change (sseClients (detached c ?x)) with (sseClients x).
    rewrite sseClients_kept_by_emit, channel_kept_by_emit; [done|].
    by rewrite Hset, <- Hid.
  - intros evt Hk. cbn [step]. rewrite exec_emit_job.
    apply (fold_left_preserves
             (fun s => channels s !! k = channels st !! k
                       ∧ sseClients s = sseClients st)); [done|].
    intros s c _ [Hch Hset].
    destruct (onJob_cases c evt s) as [->|[(Hid & Hty & ->)|(Hid & Hty & ->)]];
      [done| |done].
    rewrite sseClients_kept_by_emit, channel_kept_by_emit; [done|].
    by rewrite Hset, <- Hid.
  - intros i p resolved Hp Hk. cbn [step]. rewrite Hp.
    destruct resolved as [resultUrl|]; [|done].
    rewrite exec_call_async. unfold onJob_resume.
    by rewrite sseClients_kept_by_emit, channel_kept_by_emit.
  - intros i d c Ht Hk. cbn [step]. rewrite Ht. cbn [due action].
    destruct (d <=? now st); [|done].
    rewrite exec_run_timer_completed. unfold completed_state.
    change (channels (detached c ?x)) with (channels x).
    change (sseClients (detached c ?x)) with (sseClients x).
    by rewrite sseClients_kept_by_emit, channel_kept_by_emit.
Qed.

Lemma events_reach_only_own_subscribers_witness :
  delivered 7 (step two_projects (ProviderJob P2_progress)) = []
  ∧ delivered 8 (step two_projects (ProviderJob P2_progress))
    = [sse_data "P2" (PProgress "K0" 25)].
Proof.
  destruct (events_reach_only_own_subscribers two_projects 7) as (_ & Hjob & _ & _).
  destruct (Hjob P2_progress) as [Hkept _].
  { change (7%nat ∉ [8%nat]). rewrite list_elem_of_singleton. discriminate. }
  split; [|reflexivity].
  unfold delivered. rewrite Hkept. reflexivity.
Defined.

(** ** Frames on one line *)

Lemma control_free_app s t :
  control_free (s +:+ t) = control_free s && control_free t.
Proof.
  unfold control_free. induction s as [|c s IH]; [done|].
  change (String c s +:+ t) with (String c (s +:+ t)). cbn [list_ascii_of_string forallb].
  by rewrite IH, andb_assoc.
Qed.

Lemma hex_digit_control_free n : control_free (JSON.hex_digit n) = true.
Proof. do 17 (destruct n as [|n]; [reflexivity|]). reflexivity. Qed.

Lemma escape_char_control_free c : control_free (JSON.escape_char c) = true.
Proof.
  unfold JSON.escape_char.
  repeat (destruct (_ =? _)%nat; [reflexivity|]).
  destruct (Nat.ltb_spec (nat_of_ascii c) 32) as [Hlt|Hge].
  - rewrite !control_free_app, !hex_digit_control_free. reflexivity.
  - unfold control_free. cbn [list_ascii_of_string forallb].
    rewrite andb_true_r. by apply Nat.leb_le.
Qed.

Lemma escape_control_free s : control_free (JSON.escape s) = true.
Proof.
  induction s as [|c s IH]; [reflexivity|]. cbn [JSON.escape].
  by rewrite control_free_app, escape_char_control_free, IH.
Qed.

Lemma str_control_free s : control_free (JSON.str s) = true.
Proof.
  unfold JSON.str. by rewrite !control_free_app, escape_control_free.
Qed.

Lemma field_control_free key value :
  control_free value = true → control_free (JSON.field key value) = true.
Proof.
  intros Hv. unfold JSON.field.
  by rewrite !control_free_app, str_control_free, Hv.
Qed.

Lemma pretty_N_char_control_free x :
  control_free (String (pretty_N_char x) EmptyString) = true.
Proof. unfold pretty_N_char. by repeat case_match. Qed.

Lemma pretty_N_go_control_free x s :
  control_free s = true → control_free (pretty_N_go x s) = true.
Proof.
  revert s. induction (N.lt_wf_0 x) as [x _ IH]; intros s Hs.
  destruct (decide (x = 0)%N) as [->|Hx]; [by rewrite pretty_N_go_0|].
  rewrite pretty_N_go_step by lia. apply IH.
  - apply N.div_lt; lia.
  - change (String ?c s) with (String c EmptyString +:+ s).
    by rewrite control_free_app, pretty_N_char_control_free.
Qed.

Lemma pretty_Z_control_free (z : Z) : control_free (pretty z) = true.
Proof.
  destruct z as [|p|p]; [reflexivity|..];
    unfold pretty, pretty_Z, pretty, pretty_positive, pretty, pretty_N.
  - case_decide; [done|]. by apply pretty_N_go_control_free.
  - rewrite control_free_app. case_decide; [done|].
    by rewrite pretty_N_go_control_free.
Qed.

(** X4: whatever text the provider puts into an error, a job id, a result
    URL or a prompt, the JSON of an Event holds no control character, so no
    line feed and no carriage return: the frame written to a subscriber is
    one "data:" line closed by an empty line, and text from the provider
    cannot end the frame early or start another one. *)
Theorem frame_is_one_line projectId payload :
  control_free (JSON.stringify projectId payload) = true
  ∧ sse_data projectId payload
    = ("data: " +:+ JSON.stringify projectId payload +:+ LF +:+ LF)%string
  ∧ control_free LF = false.
Proof.
  split; [|by split].
  unfold JSON.stringify. destruct payload as [jobId p|id url prompt| |error];
    rewrite !control_free_app;
    repeat (rewrite field_control_free;
            [|first [apply str_control_free | apply pretty_Z_control_free | idtac]]);
    try reflexivity.
  rewrite !control_free_app.
  by rewrite !field_control_free by apply str_control_free.
Qed.

(** ** What the subscribers hold *)

Lemma write_to_received data res chs k ch' x :
  write_to data res chs !! k = Some ch' → x ∈ received ch' →
  x = data ∨ ∃ ch, chs !! k = Some ch ∧ x ∈ received ch.
Proof.
  unfold write_to. intros Hk Hx.
  destruct (chs !! res) as [ch|] eqn:Hres; [|right; by exists ch'].
  destruct (writable ch); [|right; by exists ch'].
  destruct (decide (k = res)) as [->|Hne].
  - rewrite lookup_insert_eq in Hk. injection Hk as <-. cbn in Hx.
    apply elem_of_cons in Hx as [->|Hx]; [by left|right; by exists ch].
  - rewrite lookup_insert_ne in Hk by done. right. by exists ch'.
Qed.

Lemma fanout_received data clients chs k ch' x :
  fanout data clients chs !! k = Some ch' → x ∈ received ch' →
  x = data ∨ ∃ ch, chs !! k = Some ch ∧ x ∈ received ch.
Proof.
  revert chs. induction clients as [|res clients IH]; intros chs Hk Hx.
  - right. by exists ch'.
  - destruct (IH (write_to data res chs) Hk Hx) as [->|(ch & Hch & Hin)]; [by left|].
    by apply (write_to_received data res chs k ch).
Qed.

Lemma frames_inv_observe tr chs e : frames_inv tr chs → frames_inv (e :: tr) chs.
Proof.
  intros Hinv k ch data Hk Hdata.
  destruct (Hinv k ch data Hk Hdata) as (t & p & payload & Hin & ->).
  exists t, p, payload. split; [by right|done].
Qed.

Lemma FramesInv_emit projectId payload st :
  FramesInv st → FramesInv (exec (emitToProject projectId payload) st).
Proof.
  intros Hinv. rewrite exec_emitToProject. unfold FramesInv.
  cbn [trace channels set_channels observe]. intros k ch' data Hk Hdata.
  destruct (fanout_received _ _ _ _ _ _ Hk Hdata) as [->|(ch & Hch & Hin)].
  - exists (now st), projectId, payload. split; [by left|done].
  - by apply (frames_inv_observe _ _ _ Hinv k ch).
Qed.

Lemma FramesInv_detached c st : FramesInv st → FramesInv (detached c st).
Proof. intros Hinv. by apply frames_inv_observe. Qed.

Lemma FramesInv_onProject c evt st :
  FramesInv st → FramesInv (exec (onProject c evt) st).
Proof.
  intros Hinv.
  destruct (onProject_cases c evt st) as [->|[(Hid & Hty & ->)|(Hid & Hty & ->)]];
    [done..|].
  unfold failed_state. by apply FramesInv_detached, FramesInv_emit.
Qed.

Lemma FramesInv_onJob c evt st :
  FramesInv st → FramesInv (exec (onJob c evt) st).
Proof.
  intros Hinv.
  destruct (onJob_cases c evt st) as [->|[(Hid & Hty & ->)|(Hid & Hty & ->)]];
    [done| |done].
  by apply FramesInv_emit.
Qed.

Lemma FramesInv_step st i : FramesInv st → FramesInv (step st i).
Proof.
  intros Hinv. destruct i as [body result|evt|evt|i resolved|ms|i|p res|p res|res].
  - change (FramesInv (exec (post_generate body result) st)).
    destruct (post_generate_cases body result st)
      as [->|[(params & ->)|(params & project & _ & ->)]]; [done|..];
      unfold FramesInv; cbn [trace channels observe accepted_state];
      by repeat apply frames_inv_observe.
  - cbn [step]. rewrite exec_emit_project.
    apply (fold_left_preserves FramesInv).
    + by apply frames_inv_observe.
    + intros s c _. apply FramesInv_onProject.
  - cbn [step]. rewrite exec_emit_job.
    apply (fold_left_preserves FramesInv).
    + by apply frames_inv_observe.
    + intros s c _. apply FramesInv_onJob.
  - destruct (settle_cases st i resolved)
      as [->|[(p & _ & ->)|(p & resultUrl & _ & ->)]]; [done..|].
    by apply FramesInv_emit.
  - done.
  - destruct (fire_cases st i)
      as [->|[(d & c & Ht & Hd & ->)|(d & p & Ht & Hd & ->)]]; [done|..].
    + unfold completed_state. by apply FramesInv_detached, FramesInv_emit.
    + by apply frames_inv_observe.
  - cbn [step]. unfold exec, sse_attach, modify, FramesInv.
    cbn [trace channels set_channels set_sseClients].
    destruct (channels st !! res) as [ch0|] eqn:Hres; [done|].
    intros k ch data Hk Hdata.
    destruct (decide (k = res)) as [->|Hne].
    + rewrite lookup_insert_eq in Hk. injection Hk as <-.
      by apply elem_of_nil in Hdata.
    + rewrite lookup_insert_ne in Hk by done. by apply (Hinv k ch).
  - cbn [step]. unfold exec, sse_detach, modify.
    by destruct (sseClients st !! p).
  - cbn [step]. unfold exec, disconnect, modify, FramesInv.
    destruct (channels st !! res) as [ch0|] eqn:Hres; [|done].
    cbn [trace channels set_channels].
    intros k ch data Hk Hdata.
    destruct (decide (k = res)) as [->|Hne].
    + rewrite lookup_insert_eq in Hk. injection Hk as <-.
      by apply (Hinv res ch0).
    + rewrite lookup_insert_ne in Hk by done. by apply (Hinv k ch).
Qed.

Lemma FramesInv_run inputs : FramesInv (run init inputs).
Proof.
  apply run_invariant; [|apply FramesInv_step].
  intros k ch data Hk. cbn [channels init] in Hk. by rewrite lookup_empty in Hk.
Qed.

(** X5: on every run, whatever a subscriber was sent is the frame of an
    Event that was pushed to the hub: the bridge writes nothing else to a
    channel, and no frame is altered on its way. *)
Theorem subscribers_hold_only_event_frames inputs k data :
  data ∈ delivered k (run init inputs) →
  ∃ t projectId payload,
    (t, ObsEmit projectId payload) ∈ history (run init inputs)
    ∧ data = sse_data projectId payload.
Proof.
  unfold delivered. intros Hdata.
  destruct (channels (run init inputs) !! k) as [ch|] eqn:Hk;
    [|by apply elem_of_nil in Hdata].
  rewrite list_elem_of_In in Hdata. apply in_rev in Hdata.
  rewrite <- list_elem_of_In in Hdata.
  destruct (FramesInv_run inputs k ch data Hk Hdata) as (t & p & payload & Hin & ->).
  exists t, p, payload. by rewrite elem_of_history.
Qed.

Lemma subscribers_hold_only_event_frames_witness :
  ∃ t projectId payload,
    (t, ObsEmit projectId payload)
      ∈ history (run init [ SseOpen "P1" 7;
                            PostGenerate battle_scene (Created (project_P1 ["J0"%string]));
                            ProviderJob (progress_event "J0" (1 # 2)) ])
    ∧ sse_data "P1" (PProgress "J0" 50) = sse_data projectId payload.
Proof.
  apply (subscribers_hold_only_event_frames _ 7).
  by apply list_elem_of_singleton.
Defined.

(** ** Where the Events come from *)

Lemma job_completion_notified_mono tr e projectId jobId positivePrompt :
  job_completion_notified tr projectId jobId positivePrompt →
  job_completion_notified (e :: tr) projectId jobId positivePrompt.
Proof. intros (t & evt & Hin & H). exists t, evt. split; [by right|done]. Qed.

Lemma origin_inv_observe tr aw t o :
  (∀ p j u pr, o ≠ ObsEmit p (PJobCompleted j u pr)) →
  (∀ p e, o ≠ ObsEmit p (PFailed e)) →
  origin_inv tr aw → origin_inv ((t, o) :: tr) aw.
Proof.
  intros Hj Hf (H1 & H2 & H3). split; [|split].
  - intros p Hp. by apply job_completion_notified_mono, H1.
  - intros t' p j u pr [Heq|Hin]%elem_of_cons.
    + injection Heq as _ Heq. by destruct (Hj p j u pr).
    + by eapply job_completion_notified_mono, H2.
  - intros t' p e [Heq|Hin]%elem_of_cons.
    + injection Heq as _ Heq. by destruct (Hf p e).
    + destruct (H3 t' p e Hin) as (evt & Hevt & H).
      exists evt. split; [by right|done].
Qed.

Lemma origin_inv_awaiting tr aw aw' :
  (∀ p, p ∈ aw' → p ∈ aw) → origin_inv tr aw → origin_inv tr aw'.
Proof. intros Hsub (H1 & H2 & H3). split; [|done]. intros p Hp. by apply H1, Hsub. Qed.

Lemma origin_inv_park tr aw p :
  job_completion_notified tr (cl_projectId (pd_closure p)) (pd_jobId p)
    (pd_positivePrompt p) →
  origin_inv tr aw → origin_inv tr (aw ++ [p]).
Proof.
  intros Hn (H1 & H2 & H3). split; [|done].
  intros p' [Hin|Hin]%elem_of_app; [by apply H1|].
  by apply list_elem_of_singleton in Hin as ->.
Qed.

Lemma origin_inv_job_completed tr aw t projectId jobId resultUrl positivePrompt :
  job_completion_notified tr projectId jobId positivePrompt →
  origin_inv tr aw →
  origin_inv ((t, ObsEmit projectId (PJobCompleted jobId resultUrl positivePrompt)) :: tr) aw.
Proof.
  intros Hn (H1 & H2 & H3). split; [|split].
  - intros p Hp. by apply job_completion_notified_mono, H1.
  - intros t' p j u pr [Heq|Hin]%elem_of_cons.
    + injection Heq as -> -> -> -> ->. by apply job_completion_notified_mono.
    + by eapply job_completion_notified_mono, H2.
  - intros t' p e [Heq|Hin]%elem_of_cons; [discriminate|].
    destruct (H3 t' p e Hin) as (evt & Hevt & H).
    exists evt. split; [by right|done].
Qed.

Lemma origin_inv_failed tr aw t evt :
  (t, ObsProviderProject evt) ∈ tr → pe_type evt = "error"%string →
  origin_inv tr aw →
  origin_inv ((t, ObsEmit (pe_projectId evt) (PFailed (pe_error evt))) :: tr) aw.
Proof.
  intros Hevt Hty (H1 & H2 & H3). split; [|split].
  - intros p Hp. by apply job_completion_notified_mono, H1.
  - intros t' p j u pr [Heq|Hin]%elem_of_cons; [discriminate|].
    by eapply job_completion_notified_mono, H2.
  - intros t' p e [Heq|Hin]%elem_of_cons.
    + injection Heq as -> -> ->. exists evt. split; [by right|done].
    + destruct (H3 t' p e Hin) as (evt' & Hevt' & H).
      exists evt'. split; [by right|done].
Qed.

Ltac not_terminal_emit :=
  split; [let a := fresh in let b := fresh in let c := fresh in let d := fresh in
          intros a b c d; discriminate
         |let a := fresh in let b := fresh in intros a b; discriminate].

Lemma origin_inv_observe_other tr aw t o :
  ((∀ p j u pr, o ≠ ObsEmit p (PJobCompleted j u pr))
   ∧ (∀ p e, o ≠ ObsEmit p (PFailed e))) →
  origin_inv tr aw → origin_inv ((t, o) :: tr) aw.
Proof. intros [Hj Hf]. by apply origin_inv_observe. Qed.

Lemma OriginInv_detached c st : OriginInv st → OriginInv (detached c st).
Proof.
  intros Hinv. unfold OriginInv. cbn [trace awaiting detached].
  apply origin_inv_observe_other; [not_terminal_emit|done].
Qed.

Lemma OriginInv_onProject c evt t0 st :
  (OriginInv st ∧ now st = t0 ∧ (t0, ObsProviderProject evt) ∈ trace st) →
  let st' := exec (onProject c evt) st in
  OriginInv st' ∧ now st' = t0 ∧ (t0, ObsProviderProject evt) ∈ trace st'.
Proof.
  intros (Hinv & Hnow & Hevt). cbv zeta.
  destruct (onProject_cases c evt st) as [->|[(Hid & Hty & ->)|(Hid & Hty & ->)]];
    [done..|].
  unfold failed_state. rewrite exec_emitToProject. split; [|split; [done|]].
  - apply OriginInv_detached. unfold OriginInv.
    cbn [trace awaiting set_channels observe]. rewrite <- Hid, Hnow.
    by apply origin_inv_failed.
  - cbn [trace detached set_channels observe]. by do 2 right.
Qed.

Lemma OriginInv_onJob c evt t0 st :
  (OriginInv st ∧ now st = t0 ∧ (t0, ObsProviderJob evt) ∈ trace st) →
  let st' := exec (onJob c evt) st in
  OriginInv st' ∧ now st' = t0 ∧ (t0, ObsProviderJob evt) ∈ trace st'.
Proof.
  intros (Hinv & Hnow & Hevt). cbv zeta.
  destruct (onJob_cases c evt st) as [->|[(Hid & Hty & ->)|(Hid & Hty & ->)]];
    [done|..].
  - rewrite exec_emitToProject. split; [|split; [done|by right]].
    unfold OriginInv. cbn [trace awaiting set_channels observe].
    apply origin_inv_observe_other; [not_terminal_emit|done].
  - split; [|done]. unfold OriginInv. cbn [trace awaiting suspended set_awaiting].
    apply origin_inv_park; [|done]. cbn [pd_closure pd_jobId pd_positivePrompt].
    exists t0, evt. by rewrite Hid.
Qed.

Lemma OriginInv_step st i : OriginInv st → OriginInv (step st i).
Proof.
  intros Hinv. destruct i as [body result|evt|evt|i resolved|ms|i|p res|p res|res].
  - change (OriginInv (exec (post_generate body result) st)).
    destruct (post_generate_cases body result st)
      as [->|[(params & ->)|(params & project & _ & ->)]]; [done|..];
      unfold OriginInv; cbn [trace awaiting observe accepted_state];
      repeat (apply origin_inv_observe_other; [not_terminal_emit|]); done.
  - cbn [step]. rewrite exec_emit_project.
    apply (fold_left_preserves
             (fun s => OriginInv s ∧ now s = now st
                       ∧ (now st, ObsProviderProject evt) ∈ trace s)).
    + split; [|split; [done|by left]].
      apply origin_inv_observe_other; [not_terminal_emit|done].
    + intros s c _. apply OriginInv_onProject.
  - cbn [step]. rewrite exec_emit_job.
    apply (fold_left_preserves
             (fun s => OriginInv s ∧ now s = now st
                       ∧ (now st, ObsProviderJob evt) ∈ trace s)).
    + split; [|split; [done|by left]].
      apply origin_inv_observe_other; [not_terminal_emit|done].
    + intros s c _. apply OriginInv_onJob.
  - destruct (settle_cases st i resolved)
      as [->|[(p & Hp & ->)|(p & resultUrl & Hp & ->)]]; [done|..].
    + unfold OriginInv. cbn [trace awaiting set_awaiting].
      apply (origin_inv_awaiting _ (awaiting st)); [|done].
      intros p'. apply elem_of_delete.
    + rewrite exec_emitToProject. unfold OriginInv.
      cbn [trace awaiting set_channels observe set_awaiting].
      apply origin_inv_job_completed.
      * destruct Hinv as (H1 & _). apply H1. by eapply list_elem_of_lookup_2.
      * apply (origin_inv_awaiting _ (awaiting st)); [|done].
        intros p'. apply elem_of_delete.
  - done.
  - destruct (fire_cases st i)
      as [->|[(d & c & Ht & Hd & ->)|(d & p & Ht & Hd & ->)]]; [done|..].
    + unfold completed_state. apply OriginInv_detached.
      rewrite exec_emitToProject. unfold OriginInv.
      cbn [trace awaiting set_channels observe set_timers].
      apply origin_inv_observe_other; [not_terminal_emit|done].
    + unfold OriginInv, cleaned_up.
      cbn [trace awaiting set_activeProjects observe set_timers].
      apply origin_inv_observe_other; [not_terminal_emit|done].
  - done.
  - cbn [step]. unfold exec, sse_detach, modify.
    by destruct (sseClients st !! p).
  - cbn [step]. unfold exec, disconnect, modify.
    by destruct (channels st !! res).
Qed.

Lemma OriginInv_run inputs : OriginInv (run init inputs).
Proof.
  apply run_invariant; [|apply OriginInv_step].
  split; [|split]; intros; by match goal with H : _ ∈ _ |- _ => apply elem_of_nil in H end.
Qed.

(** X6: on every run, each Event pushed to the hub answers a notification
    of the provider of the matching kind for the same project. A progress
    Event carries the job and the percentage of a progress notice, a
    [jobCompleted] Event the job and the prompt of a job completion
    notice, a [failed] Event the error of an error notice dispatched at the
    same time, a [completed] Event follows a completion notice. The bridge
    invents no Event and moves none to another project. *)
Theorem every_event_has_its_notice inputs t projectId payload :
  (t, ObsEmit projectId payload) ∈ history (run init inputs) →
  match payload with
  | PProgress jobId p =>
      ∃ evt, (t, ObsProviderJob evt) ∈ history (run init inputs)
             ∧ je_type evt = "progress"%string ∧ je_projectId evt = projectId
             ∧ je_jobId evt = jobId ∧ p = percent (je_progress evt)
  | PJobCompleted jobId resultUrl positivePrompt =>
      ∃ t' evt, (t', ObsProviderJob evt) ∈ history (run init inputs)
                ∧ je_type evt = "completed"%string ∧ je_projectId evt = projectId
                ∧ je_jobId evt = jobId ∧ je_positivePrompt evt = positivePrompt
  | PCompleted =>
      ∃ t' evt, (t', ObsProviderProject evt) ∈ history (run init inputs)
                ∧ pe_type evt = "completed"%string ∧ pe_projectId evt = projectId
  | PFailed error =>
      ∃ evt, (t, ObsProviderProject evt) ∈ history (run init inputs)
             ∧ pe_type evt = "error"%string ∧ pe_projectId evt = projectId
             ∧ pe_error evt = error
  end.
Proof.
  intros Hin. apply elem_of_history in Hin.
  destruct payload as [jobId p|jobId resultUrl positivePrompt| |error].
  - destruct (ProgressInv_run inputs t projectId jobId p Hin) as (evt & Hevt & H).
    exists evt. by rewrite elem_of_history.
  - destruct (OriginInv_run inputs) as (_ & H2 & _).
    destruct (H2 t projectId jobId resultUrl positivePrompt Hin) as (t' & evt & Hevt & H).
    exists t', evt. by rewrite elem_of_history.
  - destruct (DelayInv_run inputs) as [_ H2].
    destruct (H2 t projectId Hin) as (t' & (evt & Hevt & Hty & Hid) & _).
    exists t', evt. by rewrite elem_of_history.
  - destruct (OriginInv_run inputs) as (_ & _ & H3).
    destruct (H3 t projectId error Hin) as (evt & Hevt & H).
    exists evt. by rewrite elem_of_history.
Qed.

Lemma every_event_has_its_notice_witness :
  ∃ evt,
    (0, ObsProviderProject evt)
      ∈ history (run init [ PostGenerate battle_scene (Created (project_P1 ["J0"%string]));
                            ProviderProject (error_event "P1" "out of credits") ])
    ∧ pe_type evt = "error"%string ∧ pe_projectId evt = "P1"%string
    ∧ pe_error evt = "out of credits"%string.
Proof.
  apply (every_event_has_its_notice _ 0 "P1" (PFailed "out of credits")).
  apply elem_of_history. vm_compute. right. left.
Defined.

(** ** The identity of the closures *)

Lemma registered_cons tr t o c :
  registered ((t, o) :: tr) c ↔ o = ObsRegistered c ∨ registered tr c.
Proof.
  split.
  - intros [t' [Heq|Hin]%elem_of_cons]; [left; congruence|right; by exists t'].
  - intros [->|[t' Hin]]; [exists t; by left|exists t'; by right].
Qed.

Lemma registered_cons_other tr t o c :
  (∀ c', o ≠ ObsRegistered c') →
  registered ((t, o) :: tr) c ↔ registered tr c.
Proof.
  intros Ho. rewrite registered_cons. split; [|by right].
  intros [->|H]; [by destruct (Ho c)|done].
Qed.

Lemma off_ids_NoDup c listeners :
  NoDup (map cl_id listeners) → NoDup (map cl_id (off c listeners)).
Proof.
  unfold off. induction listeners as [|l listeners IH]; intros Hnd; cbn; [done|].
  cbn in Hnd. apply NoDup_cons in Hnd as [Hl Hnd].
  destruct (negb (cl_id l =? cl_id c)%nat); [|by apply IH].
  cbn. apply NoDup_cons. split; [|by apply IH].
  intros Hin. apply Hl. apply list_elem_of_fmap in Hin as (l' & Hid & Hl').
  apply list_elem_of_fmap. exists l'. split; [done|].
  by apply (off_subset c listeners l').
Qed.

Lemma off_keeps c listeners l :
  l ∈ listeners → cl_id l ≠ cl_id c → l ∈ off c listeners.
Proof.
  intros Hl Hne. unfold off. apply list_elem_of_In, filter_In.
  split; [by apply list_elem_of_In|].
  apply negb_true_iff. by apply Nat.eqb_neq.
Qed.

Lemma timer_closures_app ts ts' :
  timer_closures (ts ++ ts') = timer_closures ts ++ timer_closures ts'.
Proof. apply omap_app. Qed.

Lemma timer_closures_delete i ts c :
  c ∈ timer_closures (delete i ts) → c ∈ timer_closures ts.
Proof.
  unfold timer_closures. rewrite !list_elem_of_omap.
  intros (t & Ht & Hc). exists t. split; [by eapply elem_of_delete|done].
Qed.

Lemma timer_closures_lookup ts i d c :
  ts !! i = Some {| due := d; action := TCompleted c |} → c ∈ timer_closures ts.
Proof.
  intros Ht. unfold timer_closures. apply list_elem_of_omap.
  eexists. split; [by eapply list_elem_of_lookup_2|done].
Qed.

Lemma closures_delete i (aw : list Pending) c :
  c ∈ map pd_closure (delete i aw) → c ∈ map pd_closure aw.
Proof.
  intros (p & Hc & Hp)%list_elem_of_fmap. apply list_elem_of_fmap.
  exists p. split; [done|by eapply elem_of_delete].
Qed.

(** Changes that hand out no closure and hold no new one. *)
Lemma closure_inv_frame st st' :
  jobListeners st' = jobListeners st →
  projectListeners st' = projectListeners st →
  (∀ c, c ∈ timer_closures (timers st') → c ∈ timer_closures (timers st)) →
  (∀ c, c ∈ map pd_closure (awaiting st') → c ∈ map pd_closure (awaiting st)) →
  nextClosure st' = nextClosure st →
  (∀ c, registered (trace st') c ↔ registered (trace st) c) →
  closure_inv st → closure_inv st'.
Proof.
  intros Hj Hp Ht Ha Hn Hr (H1 & H2 & H3 & H4 & H5).
  unfold closure_inv. rewrite Hj, Hp, Hn.
  split; [done|]. split; [done|]. split; [|split].
  - intros c Hc. apply Hr, H3. destruct Hc as [Hc|[Hc|Hc]]; auto.
  - intros c Hc. by apply H4, Hr.
  - intros c c' Hc Hc'. apply H5; by apply Hr.
Qed.

Lemma closure_inv_emit projectId payload st :
  closure_inv st → closure_inv (exec (emitToProject projectId payload) st).
Proof.
  rewrite exec_emitToProject. apply closure_inv_frame; try done.
  intros c. cbn [trace set_channels observe]. by apply registered_cons_other.
Qed.

Lemma closure_inv_detached c st : closure_inv st → closure_inv (detached c st).
Proof.
  intros (H1 & H2 & H3 & H4 & H5). unfold closure_inv.
  cbn [jobListeners projectListeners timers awaiting nextClosure trace detached].
  split; [by rewrite H1|]. split; [by apply off_ids_NoDup|].
  assert (∀ c', registered ((now st, ObsDetach c) :: trace st) c'
                ↔ registered (trace st) c') as Hr.
  { intros c'. by apply registered_cons_other. }
  split; [|split].
  - intros c' Hc'. apply Hr, H3. destruct Hc' as [Hc'|[Hc'|Hc']].
    + left. by eapply off_subset.
    + right; left. rewrite timer_closures_app in Hc'.
      apply elem_of_app in Hc' as [Hc'|Hc']; [done|].
      by apply elem_of_nil in Hc'.
    + by right; right.
  - intros c' Hc'. by apply H4, Hr.
  - intros c1 c2 Hc1 Hc2. apply H5; by apply Hr.
Qed.

Lemma closure_inv_scheduled c st :
  registered (trace st) c → closure_inv st → closure_inv (completion_scheduled c st).
Proof.
  intros Hc (H1 & H2 & H3 & H4 & H5). unfold closure_inv.
  cbn [jobListeners projectListeners timers awaiting nextClosure trace
       completion_scheduled set_timers].
  split; [done|]. split; [done|]. split; [|done].
  intros c' [Hc'|[Hc'|Hc']]; [by apply H3; left| |by apply H3; right; right].
  rewrite timer_closures_app in Hc'.
  apply elem_of_app in Hc' as [Hc'|Hc']; [by apply H3; right; left|].
  by apply list_elem_of_singleton in Hc' as ->.
Qed.

Lemma closure_inv_suspended c evt st :
  registered (trace st) c → closure_inv st → closure_inv (suspended c evt st).
Proof.
  intros Hc (H1 & H2 & H3 & H4 & H5). unfold closure_inv.
  cbn [jobListeners projectListeners timers awaiting nextClosure trace
       suspended set_awaiting].
  split; [done|]. split; [done|]. split; [|done].
  intros c' [Hc'|[Hc'|Hc']]; [by apply H3; left|by apply H3; right; left|].
  rewrite map_app in Hc'.
  apply elem_of_app in Hc' as [Hc'|Hc']; [by apply H3; right; right|].
  by apply list_elem_of_singleton in Hc' as ->.
Qed.

Lemma closure_inv_accepted params project st :
  closure_inv st → closure_inv (accepted_state params project st).
Proof.
  intros (H1 & H2 & H3 & H4 & H5). unfold closure_inv.
  cbn [jobListeners projectListeners timers awaiting nextClosure trace accepted_state].
  set (c0 := {| cl_id := nextClosure st; cl_projectId := project_id project;
                cl_project := project |}).
  assert (∀ c, registered ((now st, ObsRegistered c0)
                             :: (now st, ObsCreate params) :: trace st) c
               ↔ c = c0 ∨ registered (trace st) c) as Hr.
  { intros c. rewrite registered_cons, registered_cons_other by done.
    split; (intros [H|H]; [left; congruence|by right]). }
  split; [by rewrite H1|]. split; [|split; [|split]].
  - rewrite map_app. apply NoDup_app. split; [done|]. split.
    + intros n Hn Hn'. apply list_elem_of_singleton in Hn'. subst n.
      apply list_elem_of_fmap in Hn as (l & Hid & Hl).
      assert (cl_id l < nextClosure st)%nat by (apply H4, H3; by left).
      cbn in Hid. lia.
    + apply NoDup_singleton.
  - intros c Hc. apply Hr. destruct Hc as [Hc|[Hc|Hc]].
    + apply elem_of_app in Hc as [Hc|Hc]; [right; apply H3; by left|].
      left. by apply list_elem_of_singleton in Hc.
    + right. apply H3. by right; left.
    + right. apply H3. by right; right.
  - intros c [->|Hc]%Hr; [cbn; split; [lia|done]|].
    destruct (H4 c Hc). split; [lia|done].
  - intros c c' [->|Hc]%Hr [->|Hc']%Hr Hid; [done| | |by apply H5].
    + apply H4 in Hc' as [Hlt _]. cbn in Hid. lia.
    + apply H4 in Hc as [Hlt _]. cbn in Hid. lia.
Qed.

Lemma closure_inv_onProject c evt st :
  (closure_inv st ∧ registered (trace st) c) →
  closure_inv (exec (onProject c evt) st).
Proof.
  intros [Hinv Hc].
  destruct (onProject_cases c evt st) as [->|[(_ & _ & ->)|(_ & _ & ->)]]; [done|..].
  - by apply closure_inv_scheduled.
  - unfold failed_state. by apply closure_inv_detached, closure_inv_emit.
Qed.

Lemma closure_inv_onJob c evt st :
  (closure_inv st ∧ registered (trace st) c) →
  closure_inv (exec (onJob c evt) st).
Proof.
  intros [Hinv Hc].
  destruct (onJob_cases c evt st) as [->|[(_ & _ & ->)|(_ & _ & ->)]]; [done|..].
  - by apply closure_inv_emit.
  - by apply closure_inv_suspended.
Qed.

(** A handler only ever adds to the history. *)
Lemma registered_onProject c evt st c' :
  registered (trace st) c' → registered (trace (exec (onProject c evt) st)) c'.
Proof.
  intros Hc'.
  destruct (onProject_cases c evt st) as [->|[(_ & _ & ->)|(_ & _ & ->)]]; [done..|].
  unfold failed_state. rewrite exec_emitToProject.
  cbn [trace detached set_channels observe].
  by rewrite !registered_cons_other.
Qed.

Lemma registered_onJob c evt st c' :
  registered (trace st) c' → registered (trace (exec (onJob c evt) st)) c'.
Proof.
  intros Hc'.
  destruct (onJob_cases c evt st) as [->|[(_ & _ & ->)|(_ & _ & ->)]]; [done| |done].
  rewrite exec_emitToProject. cbn [trace set_channels observe].
  by rewrite registered_cons_other.
Qed.

Lemma closure_inv_step st i : closure_inv st → closure_inv (step st i).
Proof.
  intros Hinv. destruct i as [body result|evt|evt|i resolved|ms|i|p res|p res|res].
  - change (closure_inv (exec (post_generate body result) st)).
    destruct (post_generate_cases body result st)
      as [->|[(params & ->)|(params & project & _ & ->)]]; [done|..].
    + revert Hinv. apply closure_inv_frame; try done.
      intros c. cbn [trace observe]. by apply registered_cons_other.
    + by apply closure_inv_accepted.
  - cbn [step]. rewrite exec_emit_project.
    apply (fold_left_preserves
             (fun s => closure_inv s
                       ∧ ∀ c, c ∈ projectListeners st → registered (trace s) c)).
    + split.
      * revert Hinv. apply closure_inv_frame; try done.
        intros c. cbn [trace observe]. by apply registered_cons_other.
      * intros c Hc. cbn [trace observe]. apply registered_cons_other; [done|].
        destruct Hinv as (_ & _ & H3 & _). apply H3. by left.
    + intros s c Hc [Hs Hreg]. split.
      * apply closure_inv_onProject. split; [done|by apply Hreg].
      * intros c' Hc'. by apply registered_onProject, Hreg.
  - cbn [step]. rewrite exec_emit_job.
    apply (fold_left_preserves
             (fun s => closure_inv s
                       ∧ ∀ c, c ∈ jobListeners st → registered (trace s) c)).
    + split.
      * revert Hinv. apply closure_inv_frame; try done.
        intros c. cbn [trace observe]. by apply registered_cons_other.
      * intros c Hc. cbn [trace observe]. apply registered_cons_other; [done|].
        destruct Hinv as (H1 & _ & H3 & _). apply H3. left. by rewrite <- H1.
    + intros s c Hc [Hs Hreg]. split.
      * apply closure_inv_onJob. split; [done|by apply Hreg].
      * intros c' Hc'. by apply registered_onJob, Hreg.
  - assert (closure_inv (set_awaiting (delete i (awaiting st)) st)) as Hinv'.
    { revert Hinv. apply closure_inv_frame; try done.
      intros c. cbn [awaiting set_awaiting]. apply closures_delete. }
    destruct (settle_cases st i resolved)
      as [->|[(p & Hp & ->)|(p & resultUrl & Hp & ->)]]; [done..|].
    by apply closure_inv_emit.
  - revert Hinv. by apply closure_inv_frame.
  - assert (closure_inv (set_timers (delete i (timers st)) st)) as Hinv'.
    { revert Hinv. apply closure_inv_frame; try done.
      intros c. cbn [timers set_timers]. apply timer_closures_delete. }
    destruct (fire_cases st i)
      as [->|[(d & c & Ht & Hd & ->)|(d & p & Ht & Hd & ->)]]; [done|..].
    + unfold completed_state. by apply closure_inv_detached, closure_inv_emit.
    + revert Hinv'. apply closure_inv_frame; try done.
      intros c. unfold cleaned_up. cbn [trace set_activeProjects observe].
      by apply registered_cons_other.
  - revert Hinv. by apply closure_inv_frame.
  - cbn [step]. unfold exec, sse_detach, modify.
    destruct (sseClients st !! p); [|done].
    revert Hinv. by apply closure_inv_frame.
  - cbn [step]. unfold exec, disconnect, modify.
    destruct (channels st !! res); [|done].
    revert Hinv. by apply closure_inv_frame.
Qed.

Lemma closure_inv_init : closure_inv init.
Proof.
  split; [done|]. split; [apply NoDup_nil_2|]. split; [|split].
  - intros c [Hc|[Hc|Hc]]; by apply elem_of_nil in Hc.
  - intros c [t Hc]. by apply elem_of_nil in Hc.
  - intros c c' [t Hc]. by apply elem_of_nil in Hc.
Qed.

Lemma closure_inv_run inputs : closure_inv (run init inputs).
Proof. apply run_invariant; [apply closure_inv_init|apply closure_inv_step]. Qed.

Lemma listeners_onProject c evt st :
  (projectListeners (exec (onProject c evt) st) = projectListeners st
   ∧ jobListeners (exec (onProject c evt) st) = jobListeners st)
  ∨ (pe_projectId evt = cl_projectId c ∧ pe_type evt = "error"%string
     ∧ projectListeners (exec (onProject c evt) st) = off c (projectListeners st)
     ∧ jobListeners (exec (onProject c evt) st) = off c (jobListeners st)).
Proof.
  destruct (onProject_cases c evt st) as [->|[(_ & _ & ->)|(Hid & Hty & ->)]];
    [by left..|].
  right. unfold failed_state. by rewrite exec_emitToProject.
Qed.

Lemma listeners_onJob c evt st :
  projectListeners (exec (onJob c evt) st) = projectListeners st
  ∧ jobListeners (exec (onJob c evt) st) = jobListeners st.
Proof.
  destruct (onJob_cases c evt st) as [->|[(_ & _ & ->)|(_ & _ & ->)]]; [done| |done].
  by rewrite exec_emitToProject.
Qed.

(** While an event is dispatched the listeners only get fewer. *)
Lemma listeners_shrink_dispatch evt snapshot st x :
  let st' := fold_left (fun s c => exec (onProject c evt) s) snapshot st in
  (x ∈ projectListeners st' → x ∈ projectListeners st)
  ∧ (x ∈ jobListeners st' → x ∈ jobListeners st).
Proof.
  cbv zeta.
  apply (fold_left_preserves
           (fun s => (x ∈ projectListeners s → x ∈ projectListeners st)
                     ∧ (x ∈ jobListeners s → x ∈ jobListeners st))); [done|].
  intros s c _ [Hp Hj].
  destruct (listeners_onProject c evt s) as [[-> ->]|(_ & _ & -> & ->)]; [done|].
  split; intros Hx%off_subset; auto.
Qed.

Lemma listening_off c l st :
  closure_inv st → registered (trace st) c → listening l st → c ≠ l →
  l ∈ off c (projectListeners st) ∧ l ∈ off c (jobListeners st).
Proof.
  intros (H1 & H2 & H3 & H4 & H5) Hc [Hlp Hlj] Hne.
  assert (cl_id l ≠ cl_id c) as Hid.
  { intros Hid. apply Hne. symmetry. apply H5; [|done..]. apply H3. by left. }
  split; by apply off_keeps.
Qed.

(** X7: on every run, a closure that listens to the provider stops
    listening exactly when the error notice of its own project is
    dispatched or its own completion timer fires. Every other input, such
    as the failure or completion of another project, a new request, or a
    subscriber coming and going, leaves it on both provider events. *)
Theorem listener_leaves_only_with_its_project inputs i l :
  listening l (run init inputs) →
  (ends_project l (run init inputs) i →
   (l ∉ projectListeners (step (run init inputs) i))
   ∧ (l ∉ jobListeners (step (run init inputs) i)))
  ∧ (¬ ends_project l (run init inputs) i →
     listening l (step (run init inputs) i)).
Proof.
  pose proof (closure_inv_run inputs) as Hinv.
  generalize dependent (run init inputs). intros st Hinv Hl. split.
  - destruct i as [body result|evt|evt|k resolved|ms|k|p res|p res|res]; try done.
    + intros [Hty Hid]. cbn [step]. rewrite exec_emit_project.
      destruct Hl as [Hl _].
      destruct (list_elem_of_split _ _ Hl) as (before & after & Heq).
      rewrite Heq, fold_left_app. cbn [fold_left].
      set (s1 := fold_left _ before _).
      assert (exec (onProject l evt) s1 = failed_state l (pe_error evt) s1) as ->.
      { unfold exec. by rewrite onProject_error. }
      set (s2 := failed_state l (pe_error evt) s1).
      destruct (listeners_shrink_dispatch evt after s2 l) as [Hp Hj].
      split; intros Hin.
      * apply Hp in Hin. unfold s2, failed_state in Hin.
        cbn [projectListeners detached] in Hin. by apply off_removes in Hin.
      * apply Hj in Hin. unfold s2, failed_state in Hin.
        cbn [jobListeners detached] in Hin. by apply off_removes in Hin.
    + intros (d & Ht & Hd). cbn [step]. rewrite Ht. cbn [due action].
      apply Z.leb_le in Hd as ->. rewrite exec_run_timer_completed.
      unfold completed_state. cbn [projectListeners jobListeners detached].
      split; intros Hin; by apply off_removes in Hin.
  - intros Hends.
    destruct i as [body result|evt|evt|k resolved|ms|k|p res|p res|res].
    + change (listening l (exec (post_generate body result) st)).
      destruct Hl as [Hlp Hlj].
      destruct (post_generate_cases body result st)
        as [->|[(params & ->)|(params & project & _ & ->)]]; [done..|].
      split; cbn [projectListeners jobListeners accepted_state];
        apply elem_of_app; by left.
    + cbn [step]. rewrite exec_emit_project.
      apply (fold_left_preserves
               (fun s => (closure_inv s
                          ∧ ∀ c, c ∈ projectListeners st → registered (trace s) c)
                         ∧ listening l s)).
      * split; [|done]. split.
        -- revert Hinv. apply closure_inv_frame; try done.
           intros c. cbn [trace observe]. by apply registered_cons_other.
        -- intros c Hc. cbn [trace observe]. apply registered_cons_other; [done|].
           destruct Hinv as (_ & _ & H3 & _). apply H3. by left.
      * intros s c Hc [[Hs Hreg] Hls]. split; [split|].
        -- apply closure_inv_onProject. split; [done|by apply Hreg].
        -- intros c' Hc'. by apply registered_onProject, Hreg.
        -- unfold listening.
           destruct (listeners_onProject c evt s)
             as [[-> ->]|(Hid & Hty & -> & ->)]; [done|].
           apply listening_off; [done|by apply Hreg|done|].
           intros ->. by apply Hends.
    + cbn [step]. rewrite exec_emit_job.
      apply (fold_left_preserves (fun s => listening l s)); [done|].
      intros s c _ Hls. unfold listening.
      by destruct (listeners_onJob c evt s) as [-> ->].
    + destruct (settle_cases st k resolved)
        as [->|[(p & Hp & ->)|(p & resultUrl & Hp & ->)]]; [done..|].
      by rewrite exec_emitToProject.
    + done.
    + destruct (fire_cases st k)
        as [->|[(d & c & Ht & Hd & ->)|(d & p & Ht & Hd & ->)]]; [done| |done].
      unfold completed_state, listening.
      cbn [projectListeners jobListeners detached].
      rewrite exec_emitToProject.
      apply (listening_off c l st); [done| |done|].
      * destruct Hinv as (_ & _ & H3 & _). apply H3. right; left.
        by eapply timer_closures_lookup.
      * intros ->. apply Hends. by exists d.
    + done.
    + cbn [step]. unfold exec, sse_detach, modify.
      by destruct (sseClients st !! p).
    + cbn [step]. unfold exec, disconnect, modify.
      by destruct (channels st !! res).
Qed.

Lemma listener_leaves_only_with_its_project_witness :
  listening {| cl_id := 1; cl_projectId := "P2"; cl_project := project_P2 |}
    (step two_projects (ProviderProject (error_event "P1" "out of credits")))
  ∧ (P1_closure
       ∉ projectListeners
           (step two_projects (ProviderProject (error_event "P1" "out of credits")))).
Proof.
  split.
  - apply (listener_leaves_only_with_its_project
             [ SseOpen "P1" 7; SseOpen "P2" 8;
               PostGenerate battle_scene (Created (project_P1 ["J0"; "J1"]%string));
               PostGenerate battle_scene (Created project_P2) ]).
    + vm_compute. split; right; left.
    + intros [_ Hid]. discriminate Hid.
  - apply (listener_leaves_only_with_its_project
             [ SseOpen "P1" 7; SseOpen "P2" 8;
               PostGenerate battle_scene (Created (project_P1 ["J0"; "J1"]%string));
               PostGenerate battle_scene (Created project_P2) ]
             (ProviderProject (error_event "P1" "out of credits")) P1_closure).
    + vm_compute. split; left.
    + by split.
Defined.

(** ** No Event twice *)

Lemma count_app {A} (f : A → bool) l1 l2 :
  count f (l1 ++ l2) = (count f l1 + count f l2)%nat.
Proof. unfold count. by rewrite List.filter_app, length_app. Qed.

Lemma count_snoc {A} (f : A → bool) l x :
  count f (l ++ [x]) = (count f l + (if f x then 1 else 0))%nat.
Proof. rewrite count_app. f_equal. unfold count. cbn. by destruct (f x). Qed.

Lemma count_delete {A} (f : A → bool) (l : list A) i x :
  l !! i = Some x →
  (count f (delete i l) + (if f x then 1 else 0))%nat = count f l.
Proof.
  revert i. induction l as [|y l IH]; intros [|i] Hx; try done.
  - injection Hx as ->. change (delete 0%nat (x :: l)) with l.
    clear IH. rewrite count_cons. destruct (f x); lia.
  - change (delete (S i) (y :: l)) with (y :: delete i l).
    rewrite !count_cons. specialize (IH i Hx). destruct (f x), (f y); lia.
Qed.

Lemma count_none {A} (f : A → bool) l :
  count f l = 0%nat → ∀ x, x ∈ l → f x = false.
Proof.
  induction l as [|y l IH]; intros Hc x Hx; [by apply elem_of_nil in Hx|].
  rewrite count_cons in Hc. destruct (f y) eqn:Hy; [lia|].
  apply elem_of_cons in Hx as [->|Hx]; [done|]. apply IH; [lia|done].
Qed.

(** At most one element with the property: none, or one with none around. *)
Lemma count_le_1_cases {A} (f : A → bool) l :
  (count f l ≤ 1)%nat →
  (∀ x, x ∈ l → f x = false)
  ∨ ∃ before y after,
      l = before ++ y :: after ∧ f y = true
      ∧ ∀ x, x ∈ before ++ after → f x = false.
Proof.
  induction l as [|y l IH]; intros Hc.
  - left. intros x Hx. by apply elem_of_nil in Hx.
  - rewrite count_cons in Hc. destruct (f y) eqn:Hy.
    + right. exists [], y, l. split; [done|]. split; [done|].
      intros x Hx. apply (count_none f l); [lia|exact Hx].
    + destruct IH as [Hnone|(before & z & after & -> & Hz & Hothers)]; [lia|..].
      * left. intros x [->|Hx]%elem_of_cons; auto.
      * right. exists (y :: before), z, after. split; [done|]. split; [done|].
        intros x [->|Hx]%elem_of_cons; auto.
Qed.

Lemma count_off_le (f : Closure → bool) c listeners :
  (count f (off c listeners) ≤ count f listeners)%nat.
Proof.
  unfold off. induction listeners as [|x listeners IH]; [done|].
  cbn [List.filter]. destruct (negb _); rewrite !count_cons; destruct (f x); lia.
Qed.

Lemma count_off_lt (f : Closure → bool) c listeners :
  c ∈ listeners → f c = true →
  (count f (off c listeners) + 1 ≤ count f listeners)%nat.
Proof.
  intros Hc Hf. induction listeners as [|x listeners IH];
    [by apply elem_of_nil in Hc|].
  apply elem_of_cons in Hc as [<-|Hc].
  - unfold off. cbn [List.filter]. rewrite Nat.eqb_refl. cbn [negb].
    rewrite count_cons, Hf. pose proof (count_off_le f c listeners) as Hle.
    unfold off in Hle. lia.
  - specialize (IH Hc). unfold off in *. cbn [List.filter].
    destruct (negb _); rewrite !count_cons; destruct (f x); lia.
Qed.

Ltac count_simpl :=
  unfold once_inv, events, job_notices, project_notices, registrations, parked in *;
  cbn [trace awaiting timers projectListeners jobListeners
       observe set_channels set_timers set_awaiting set_activeProjects
       detached completion_scheduled suspended accepted_state cleaned_up] in *;
  rewrite ?count_cons, ?count_snoc;
  cbn [is_event is_project_notice is_job_notice is_registration snd
       is_progress is_job_completed is_completed is_failed
       completes action pd_closure cl_projectId] in *.

Lemma eqb_ne (a b : string) : a ≠ b → String.eqb a b = false.
Proof. apply String.eqb_neq. Qed.

Lemma of_project_ne projectId c :
  cl_projectId c ≠ projectId → of_project projectId c = false.
Proof. apply String.eqb_neq. Qed.

Lemma of_project_eq projectId c :
  cl_projectId c = projectId → of_project projectId c = true.
Proof. apply String.eqb_eq. Qed.

Lemma once_inv_emit_other projectId p payload st :
  p ≠ projectId → once_inv projectId st →
  once_inv projectId (exec (emitToProject p payload) st).
Proof.
  intros Hne Hinv. rewrite exec_emitToProject. count_simpl.
  rewrite (eqb_ne _ _ Hne). cbn [andb]. lia.
Qed.

Lemma once_inv_detached projectId c st :
  once_inv projectId st → once_inv projectId (detached c st).
Proof.
  intros Hinv. count_simpl.
  pose proof (count_off_le (of_project projectId) c (projectListeners st)).
  lia.
Qed.

Lemma once_inv_onProject_other projectId c evt st :
  pe_projectId evt ≠ projectId → once_inv projectId st →
  once_inv projectId (exec (onProject c evt) st).
Proof.
  intros Hne Hinv.
  destruct (onProject_cases c evt st) as [->|[(Hid & _ & ->)|(Hid & _ & ->)]];
    [done|..]; rewrite Hid in Hne.
  - count_simpl. rewrite (of_project_ne _ _ Hne). lia.
  - unfold failed_state. by apply once_inv_detached, once_inv_emit_other.
Qed.

Lemma once_inv_onJob_other projectId c evt st :
  je_projectId evt ≠ projectId → once_inv projectId st →
  once_inv projectId (exec (onJob c evt) st).
Proof.
  intros Hne Hinv.
  destruct (onJob_cases c evt st) as [->|[(Hid & _ & ->)|(Hid & _ & ->)]];
    [done|..]; rewrite Hid in Hne.
  - by apply once_inv_emit_other.
  - count_simpl. rewrite (of_project_ne _ _ Hne). lia.
Qed.

Ltac eqb_compute := cbn [String.eqb Ascii.eqb Bool.eqb andb].

Ltac decide_project c projectId :=
  let He := fresh "He" in
  destruct (String.eqb_spec (cl_projectId c) projectId) as [He|He];
  [rewrite ?(of_project_eq projectId c He) in *
  |rewrite ?(of_project_ne projectId c He) in *].

Ltac split_ifs :=
  repeat match goal with
         | |- context [if ?b then _ else _] => destruct b
         | H : context [if ?b then _ else _] |- _ => destruct b
         end.

Lemma once_inv_dispatch_project projectId evt st :
  (registrations projectId st ≤ 1)%nat →
  once_inv projectId st → once_inv projectId (step st (ProviderProject evt)).
Proof.
  intros Hreg Hinv.
  destruct (decide (pe_projectId evt = projectId)) as [Hid|Hid].
  - assert (count (of_project projectId) (projectListeners st) ≤ 1)%nat as Hone.
    { destruct Hinv as (_ & _ & _ & H4). unfold registrations in *. lia. }
    destruct (count_le_1_cases _ _ Hone)
      as [Hnone|(before & l & after & Hls & Hl%String.eqb_eq & Hothers)].
    + cbn [step]. rewrite exec_emit_project, fold_onProject_others.
      * count_simpl. split_ifs; lia.
      * intros l Hl. rewrite Hid. by apply String.eqb_neq, Hnone.
    + assert (sole_listener l (projectListeners st)) as Hsole.
      { exists before, after. split; [done|]. intros x Hx.
        rewrite Hl. by apply String.eqb_neq, Hothers. }
      rewrite (dispatch_project_sole l evt st Hsole) by (by rewrite Hl).
      destruct (onProject_cases l evt (observe (ObsProviderProject evt) st))
        as [->|[(_ & Hty & ->)|(_ & Hty & ->)]].
      * count_simpl. split_ifs; lia.
      * count_simpl. rewrite Hid, Hty, String.eqb_refl, (of_project_eq _ _ Hl).
        eqb_compute. lia.
      * unfold failed_state. rewrite exec_emitToProject. count_simpl.
        rewrite Hid, Hty, Hl, String.eqb_refl. eqb_compute.
        assert (l ∈ projectListeners st) as Hin.
        { rewrite Hls. apply elem_of_app. right. by left. }
        pose proof (count_off_lt (of_project projectId) l (projectListeners st)
                      Hin (of_project_eq _ _ Hl)).
        lia.
  - cbn [step]. rewrite exec_emit_project.
    apply (fold_left_preserves (once_inv projectId)).
    + count_simpl. rewrite (eqb_ne _ _ Hid). eqb_compute. lia.
    + intros s c _. by apply once_inv_onProject_other.
Qed.

Lemma once_inv_dispatch_job projectId evt st :
  jobListeners st = projectListeners st →
  (registrations projectId st ≤ 1)%nat →
  once_inv projectId st → once_inv projectId (step st (ProviderJob evt)).
Proof.
  intros Hsame Hreg Hinv.
  destruct (decide (je_projectId evt = projectId)) as [Hid|Hid].
  - assert (count (of_project projectId) (projectListeners st) ≤ 1)%nat as Hone.
    { destruct Hinv as (_ & _ & _ & H4). unfold registrations in *. lia. }
    destruct (count_le_1_cases _ _ Hone)
      as [Hnone|(before & l & after & Hls & Hl%String.eqb_eq & Hothers)].
    + cbn [step]. rewrite exec_emit_job, fold_onJob_others.
      * count_simpl. split_ifs; lia.
      * intros l Hl. rewrite Hid. apply String.eqb_neq, Hnone.
        by rewrite <- Hsame.
    + assert (sole_listener l (jobListeners st)) as Hsole.
      { rewrite Hsame. exists before, after. split; [done|]. intros x Hx.
        rewrite Hl. by apply String.eqb_neq, Hothers. }
      rewrite (dispatch_job_sole l evt st Hsole) by (by rewrite Hl).
      destruct (onJob_cases l evt (observe (ObsProviderJob evt) st))
        as [->|[(_ & Hty & ->)|(_ & Hty & ->)]].
      * count_simpl. split_ifs; lia.
      * rewrite exec_emitToProject. count_simpl.
        rewrite Hid, Hty, Hl, String.eqb_refl. eqb_compute. lia.
      * count_simpl. rewrite Hid, Hty, String.eqb_refl, (of_project_eq _ _ Hl).
        eqb_compute. lia.
  - cbn [step]. rewrite exec_emit_job.
    apply (fold_left_preserves (once_inv projectId)).
    + count_simpl. rewrite (eqb_ne _ _ Hid). eqb_compute. lia.
    + intros s c _. by apply once_inv_onJob_other.
Qed.

Lemma once_inv_step projectId st i :
  jobListeners st = projectListeners st →
  (registrations projectId st ≤ 1)%nat →
  once_inv projectId st → once_inv projectId (step st i).
Proof.
  intros Hsame Hreg Hinv.
  destruct i as [body result|evt|evt|k resolved|ms|k|p res|p res|res].
  - change (once_inv projectId (exec (post_generate body result) st)).
    destruct (post_generate_cases body result st)
      as [->|[(params & ->)|(params & project & _ & ->)]]; [done|..].
    + count_simpl. lia.
    + count_simpl.
      destruct (String.eqb_spec (project_id project) projectId) as [He|He].
      * rewrite of_project_eq by exact He. lia.
      * rewrite of_project_ne by exact He. lia.
  - by apply once_inv_dispatch_project.
  - by apply once_inv_dispatch_job.
  - destruct (settle_cases st k resolved)
      as [->|[(p & Hp & ->)|(p & resultUrl & Hp & ->)]]; [done|..].
    + pose proof (count_delete (parked projectId) _ _ _ Hp) as Hdel.
      count_simpl. destruct (of_project _ _); lia.
    + pose proof (count_delete (parked projectId) _ _ _ Hp) as Hdel.
      rewrite exec_emitToProject. count_simpl.
      decide_project (pd_closure p) projectId; eqb_compute; lia.
  - count_simpl. exact Hinv.
  - destruct (fire_cases st k)
      as [->|[(d & c & Ht & Hd & ->)|(d & p & Ht & Hd & ->)]]; [done|..].
    + pose proof (count_delete (completes projectId) _ _ _ Ht) as Hdel.
      pose proof (count_off_le (of_project projectId) c (projectListeners st)).
      unfold completed_state. rewrite exec_emitToProject. count_simpl.
      decide_project c projectId; eqb_compute; lia.
    + pose proof (count_delete (completes projectId) _ _ _ Ht) as Hdel.
      count_simpl. lia.
  - cbn [step]. unfold exec, sse_attach, modify. count_simpl. exact Hinv.
  - cbn [step]. unfold exec, sse_detach, modify.
    destruct (sseClients st !! p); [|done]. count_simpl. exact Hinv.
  - cbn [step]. unfold exec, disconnect, modify.
    destruct (channels st !! res); [|done]. count_simpl. exact Hinv.
Qed.

(** The history only grows. *)
Lemma trace_grows_onProject c evt st :
  ∃ new, trace (exec (onProject c evt) st) = new ++ trace st.
Proof.
  destruct (onProject_cases c evt st) as [->|[(_ & _ & ->)|(_ & _ & ->)]].
  - by exists [].
  - by exists [].
  - unfold failed_state. rewrite exec_emitToProject. by eexists [_; _].
Qed.

Lemma trace_grows_onJob c evt st :
  ∃ new, trace (exec (onJob c evt) st) = new ++ trace st.
Proof.
  destruct (onJob_cases c evt st) as [->|[(_ & _ & ->)|(_ & _ & ->)]].
  - by exists [].
  - rewrite exec_emitToProject. by eexists [_].
  - by exists [].
Qed.

Lemma trace_grows st i : ∃ new, trace (step st i) = new ++ trace st.
Proof.
  destruct i as [body result|evt|evt|k resolved|ms|k|p res|p res|res].
  - change (∃ new, trace (exec (post_generate body result) st) = new ++ trace st).
    destruct (post_generate_cases body result st)
      as [->|[(params & ->)|(params & project & _ & ->)]].
    + by exists [].
    + by eexists [_].
    + by eexists [_; _].
  - cbn [step]. rewrite exec_emit_project.
    apply (fold_left_preserves (fun s => ∃ new, trace s = new ++ trace st)).
    + by eexists [_].
    + intros s c _ [new Hs].
      destruct (trace_grows_onProject c evt s) as [new' ->].
      exists (new' ++ new). by rewrite Hs, app_assoc.
  - cbn [step]. rewrite exec_emit_job.
    apply (fold_left_preserves (fun s => ∃ new, trace s = new ++ trace st)).
    + by eexists [_].
    + intros s c _ [new Hs].
      destruct (trace_grows_onJob c evt s) as [new' ->].
      exists (new' ++ new). by rewrite Hs, app_assoc.
  - destruct (settle_cases st k resolved)
      as [->|[(p & Hp & ->)|(p & resultUrl & Hp & ->)]].
    + by exists [].
    + by exists [].
    + rewrite exec_emitToProject. by eexists [_].
  - by exists [].
  - destruct (fire_cases st k)
      as [->|[(d & c & Ht & Hd & ->)|(d & p & Ht & Hd & ->)]].
    + by exists [].
    + unfold completed_state. rewrite exec_emitToProject. by eexists [_; _].
    + by eexists [_].
  - by exists [].
  - cbn [step]. unfold exec, sse_detach, modify.
    destruct (sseClients st !! p); by exists [].
  - cbn [step]. unfold exec, disconnect, modify.
    destruct (channels st !! res); by exists [].
Qed.

Lemma registrations_step projectId st i :
  (registrations projectId st ≤ registrations projectId (step st i))%nat.
Proof.
  unfold registrations. destruct (trace_grows st i) as [new ->].
  rewrite count_app. lia.
Qed.

Lemma once_inv_run inputs projectId :
  (registrations projectId (run init inputs) ≤ 1)%nat →
  once_inv projectId (run init inputs).
Proof.
  revert projectId.
  apply (run_invariant
           (fun s => closure_inv s
                     ∧ ∀ projectId, (registrations projectId s ≤ 1)%nat →
                                    once_inv projectId s)).
  - split; [apply closure_inv_init|]. intros projectId _.
    unfold once_inv, events, job_notices, project_notices, registrations, count.
    cbn. lia.
  - intros s i [Hc Hs]. split; [by apply closure_inv_step|].
    intros projectId Hreg.
    pose proof (registrations_step projectId s i) as Hmono.
    apply once_inv_step; [by destruct Hc|lia|]. apply Hs. lia.
Qed.

(** X8: on every run, as long as the provider has handed out a project
    id to one accepted request only, at most one listener per provider
    event belongs to that project: a listener of the project is the only
    one of its project on both events. *)
Theorem unique_project_sole_listener inputs l :
  (registrations (cl_projectId l) (run init inputs) ≤ 1)%nat →
  l ∈ projectListeners (run init inputs) →
  sole_listener l (projectListeners (run init inputs))
  ∧ sole_listener l (jobListeners (run init inputs)).
Proof.
  intros Hreg Hl.
  pose proof (once_inv_run inputs _ Hreg) as (_ & _ & _ & H4).
  destruct (closure_inv_run inputs) as (Hsame & _).
  rewrite Hsame. unfold registrations in *.
  generalize dependent (run init inputs). intros st Hreg Hl H4 _.
  assert (count (of_project (cl_projectId l)) (projectListeners st) ≤ 1)%nat
    as Hone by lia.
  assert (sole_listener l (projectListeners st)); [|done].
  destruct (count_le_1_cases _ _ Hone)
    as [Hnone|(before & l' & after & Hls & Hl' & Hothers)].
  - specialize (Hnone l Hl). unfold of_project in Hnone.
    by rewrite String.eqb_refl in Hnone.
  - assert (∀ x, x ∈ before ++ after → cl_projectId x ≠ cl_projectId l) as Hne.
    { intros x Hx. by apply String.eqb_neq, Hothers. }
    rewrite Hls in Hl. apply elem_of_app in Hl as [Hl|Hl].
    { destruct (Hne l); [|done]. apply elem_of_app. by left. }
    apply elem_of_cons in Hl as [->|Hl].
    + by exists before, after.
    + destruct (Hne l); [|done]. apply elem_of_app. by right.
Qed.

Lemma unique_project_sole_listener_witness :
  sole_listener P1_closure (projectListeners two_projects)
  ∧ sole_listener P1_closure (jobListeners two_projects).
Proof.
  apply (unique_project_sole_listener
           [ SseOpen "P1" 7; SseOpen "P2" 8;
             PostGenerate battle_scene (Created (project_P1 ["J0"; "J1"]%string));
             PostGenerate battle_scene (Created project_P2) ] P1_closure).
  - vm_compute. lia.
  - vm_compute. left.
Defined.

(** X9: on every run, for a project id handed out to one accepted
    request only, no notification is relayed twice. The progress Events
    pushed for the project are at most as many as the provider's progress
    notices about it; the [jobCompleted] Events, together with the [onJob]
    calls still waiting for their result URL, are at most as many as the
    job completion notices; the [completed] Events, together with the
    completion timers still pending, are at most as many as the
    completion notices; and at most one [failed] Event is ever pushed. *)
Theorem no_event_twice inputs projectId :
  (registrations projectId (run init inputs) ≤ 1)%nat →
  (events projectId is_progress (run init inputs)
     ≤ job_notices projectId "progress" (run init inputs))%nat
  ∧ (events projectId is_job_completed (run init inputs)
       + count (parked projectId) (awaiting (run init inputs))
       ≤ job_notices projectId "completed" (run init inputs))%nat
  ∧ (events projectId is_completed (run init inputs)
       + count (completes projectId) (timers (run init inputs))
       ≤ project_notices projectId "completed" (run init inputs))%nat
  ∧ (events projectId is_failed (run init inputs) ≤ 1)%nat.
Proof.
  intros Hreg. destruct (once_inv_run inputs _ Hreg) as (H1 & H2 & H3 & H4).
  split; [done|]. split; [done|]. split; [done|]. lia.
Qed.

Lemma no_event_twice_witness :
  (events "P1" is_failed
     (run init [ PostGenerate battle_scene (Created (project_P1 ["J0"%string]));
                 ProviderProject (error_event "P1" "out of credits");
                 ProviderProject (error_event "P1" "out of credits") ]) ≤ 1)%nat.
Proof.
  apply (no_event_twice
           [ PostGenerate battle_scene (Created (project_P1 ["J0"%string]));
             ProviderProject (error_event "P1" "out of credits");
             ProviderProject (error_event "P1" "out of credits") ] "P1").
  vm_compute. lia.
Defined.

(** ** The allowed origins *)

(** The string does not begin with white space. *)
Lemma trimStart_fixed c rest :
  JSString.is_white_space c = false →
  JSString.trimStart (String c rest) = String c rest.
Proof. intros Hc. cbn. by rewrite Hc. Qed.

Lemma trimStart_head s :
  JSString.trimStart s = EmptyString
  ∨ ∃ c rest, JSString.trimStart s = String c rest
              ∧ JSString.is_white_space c = false.
Proof.
  induction s as [|c s IH]; [by left|]. cbn.
  destruct (JSString.is_white_space c) eqn:Hc; [done|].
  right. by exists c, s.
Qed.

Lemma trimEnd_head c rest :
  JSString.is_white_space c = false →
  ∃ kept, JSString.trimEnd (String c rest) = String c kept.
Proof.
  intros Hc. cbn. destruct (JSString.trimEnd rest); rewrite ?Hc; by eexists.
Qed.

Lemma trimEnd_idem s : JSString.trimEnd (JSString.trimEnd s) = JSString.trimEnd s.
Proof.
  induction s as [|c s IH]; [done|]. cbn.
  destruct (JSString.trimEnd s) as [|k kept] eqn:Hk.
  - destruct (JSString.is_white_space c) eqn:Hc; [done|]. cbn. by rewrite Hc.
  - change (JSString.trimEnd (String c (String k kept)))
      with (match JSString.trimEnd (String k kept) with
            | EmptyString =>
                if JSString.is_white_space c then EmptyString else String c EmptyString
            | String a b => String c (String a b)
            end).
    by rewrite IH.
Qed.

Lemma trim_idem s : JSString.trim (JSString.trim s) = JSString.trim s.
Proof.
  unfold JSString.trim.
  destruct (trimStart_head s) as [->|(c & rest & -> & Hc)]; [done|].
  destruct (trimEnd_head c rest Hc) as [kept Hk].
  rewrite Hk, (trimStart_fixed c kept Hc), <- Hk. apply trimEnd_idem.
Qed.

Lemma trimStart_empty s :
  JSString.trimStart s = EmptyString ↔ all_chars JSString.is_white_space s = true.
Proof.
  unfold all_chars. induction s as [|c s IH]; [done|]. cbn.
  destruct (JSString.is_white_space c); [exact IH|]. split; discriminate.
Qed.

Lemma trim_empty s :
  JSString.trim s = EmptyString ↔ all_chars JSString.is_white_space s = true.
Proof.
  rewrite <- trimStart_empty. unfold JSString.trim.
  destruct (trimStart_head s) as [->|(c & rest & -> & Hc)]; [done|].
  destruct (trimEnd_head c rest Hc) as [kept ->]. split; discriminate.
Qed.

(** Trimming drops code units and adds none. *)
Lemma trimStart_chars f s :
  all_chars f s = true → all_chars f (JSString.trimStart s) = true.
Proof.
  unfold all_chars. induction s as [|c s IH]; [done|]. cbn.
  intros [Hc Hs]%andb_true_iff.
  destruct (JSString.is_white_space c); [by apply IH|]. cbn. by rewrite Hc, Hs.
Qed.

Lemma trimEnd_chars f s :
  all_chars f s = true → all_chars f (JSString.trimEnd s) = true.
Proof.
  unfold all_chars. induction s as [|c s IH]; [done|]. cbn.
  intros [Hc Hs]%andb_true_iff. specialize (IH Hs).
  destruct (JSString.trimEnd s) as [|k kept].
  - destruct (JSString.is_white_space c); [done|]. cbn. by rewrite Hc.
  - cbn in *. by rewrite Hc, IH.
Qed.

Lemma trim_chars f s :
  all_chars f s = true → all_chars f (JSString.trim s) = true.
Proof. intros Hs. by apply trimEnd_chars, trimStart_chars. Qed.

Lemma split_nonempty sep s : JSString.split sep s ≠ [].
Proof.
  destruct s as [|c s]; [done|]. cbn.
  destruct (Ascii.eqb c sep); [done|]. by destruct (JSString.split sep s).
Qed.

(** No piece contains the separator. *)
Lemma split_pieces sep s piece :
  piece ∈ JSString.split sep s →
  all_chars (fun c => negb (Ascii.eqb c sep)) piece = true.
Proof.
  revert piece. induction s as [|c s IH]; intros piece; cbn.
  - by intros ->%list_elem_of_singleton.
  - destruct (Ascii.eqb c sep) eqn:Hc.
    + intros [->|Hin]%elem_of_cons; [done|by apply IH].
    + destruct (JSString.split sep s) as [|p ps].
      * intros ->%list_elem_of_singleton. unfold all_chars. cbn. by rewrite Hc.
      * intros [->|Hin]%elem_of_cons.
        -- unfold all_chars. cbn. rewrite Hc. cbn. apply IH. by left.
        -- apply IH. by right.
Qed.

(** All pieces are blank exactly when the string holds nothing but
    separators and white space. *)
Lemma split_blank sep s :
  forallb (all_chars JSString.is_white_space) (JSString.split sep s)
  = all_chars (fun c => JSString.is_white_space c || Ascii.eqb c sep) s.
Proof.
  unfold all_chars. induction s as [|c s IH]; [done|]. cbn.
  destruct (Ascii.eqb c sep) eqn:Hc.
  - cbn. rewrite orb_true_r. exact IH.
  - rewrite orb_false_r, <- IH.
    pose proof (split_nonempty sep s).
    destruct (JSString.split sep s) as [|p ps]; [done|].
    cbn. by rewrite andb_assoc.
Qed.

Lemma includes_spec arr s : JSString.includes arr s = true ↔ s ∈ arr.
Proof.
  unfold JSString.includes. rewrite existsb_exists. split.
  - intros (x & Hx & ->%String.eqb_eq). by apply list_elem_of_In.
  - intros Hs. exists s. split; [by apply list_elem_of_In|apply String.eqb_refl].
Qed.

Lemma elem_of_origins CLIENT_ORIGIN o :
  o ∈ origins CLIENT_ORIGIN →
  JS.truthy o = true
  ∧ ∃ value piece, piece ∈ JSString.split "," value ∧ o = JSString.trim piece.
Proof.
  unfold origins. intros [Ho Ht]%list_elem_of_In%filter_In.
  split; [done|]. apply in_map_iff in Ho as (piece & <- & Hpiece).
  eexists _, piece. split; [by apply list_elem_of_In|done].
Qed.

(** X10: whatever CLIENT_ORIGIN holds, every entry of the list of allowed
    origins is non-empty, has no white space at either end (trimming it
    again changes nothing) and contains no comma. When the variable is not
    set or empty the list is the one development origin; the list is empty
    exactly when the variable is non-empty and holds nothing but commas and
    white space. *)
Theorem origins_are_clean CLIENT_ORIGIN :
  (∀ o, o ∈ origins CLIENT_ORIGIN →
        o ≠ EmptyString ∧ JSString.trim o = o
        ∧ all_chars (fun c => negb (is_comma c)) o = true)
  ∧ (CLIENT_ORIGIN = None ∨ CLIENT_ORIGIN = Some EmptyString →
     origins CLIENT_ORIGIN = ["http://localhost:5173"%string])
  ∧ (origins CLIENT_ORIGIN = []
     ↔ ∃ s, CLIENT_ORIGIN = Some s ∧ s ≠ EmptyString
            ∧ all_chars (fun c => JSString.is_white_space c || is_comma c) s = true).
Proof.
  split; [|split].
  - intros o (Ht & value & piece & Hpiece & ->)%elem_of_origins.
    split; [by destruct (JSString.trim piece)|]. split; [apply trim_idem|].
    by apply trim_chars, (split_pieces "," value).
  - by intros [->| ->].
  - assert (∀ value, List.filter JS.truthy (map JSString.trim (JSString.split "," value)) = []
                     ↔ all_chars (fun c => JSString.is_white_space c || is_comma c) value
                       = true) as Hnone.
    { intros value. unfold is_comma. rewrite <- (split_blank "," value).
      generalize (JSString.split "," value) as pieces.
      induction pieces as [|p ps IH]; [done|]. cbn [map List.filter forallb].
      destruct (JSString.trim p) as [|a b] eqn:Hp.
      - apply trim_empty in Hp. rewrite Hp. exact IH.
      - cbn [JS.truthy]. split; [discriminate|].
        intros [Hb _]%andb_true_iff. apply trim_empty in Hb. congruence. }
    unfold origins. split.
    + destruct CLIENT_ORIGIN as [[|c s]|]; [by vm_compute| |by vm_compute].
      intros Hnil. exists (String c s). split; [done|]. split; [done|].
      by apply Hnone.
    + intros (s & -> & Hs & Hall). destruct s as [|c s]; [done|].
      by apply Hnone.
Qed.

Lemma origins_are_clean_witness :
  origins (Some " https://a.example ,, https://b.example"%string)
  = ["https://a.example"; "https://b.example"]%string
  ∧ origins None = ["http://localhost:5173"%string]
  ∧ origins (Some " , "%string) = [].
Proof.
  destruct (origins_are_clean None) as (_ & Hdefault & _).
  destruct (origins_are_clean (Some " , "%string)) as (_ & _ & Hnone).
  split; [reflexivity|]. split; [apply Hdefault; by left|].
  apply Hnone. exists " , "%string. by vm_compute.
Defined.

(** X11: the CORS check lets a request through when it has no Origin
    header (or an empty one) or when the header is, character for
    character, an entry of the list; otherwise it blocks it with a message
    that quotes the header. So a non-empty origin with white space at
    either end or with a comma in it is blocked whatever CLIENT_ORIGIN
    holds, and a CLIENT_ORIGIN of only commas and white space blocks every
    request that names an origin. *)
Theorem cors_blocks_what_is_not_listed CLIENT_ORIGIN o :
  o ≠ EmptyString →
  cors_origin (origins CLIENT_ORIGIN) None = CorsAllowed
  ∧ cors_origin (origins CLIENT_ORIGIN) (Some EmptyString) = CorsAllowed
  ∧ (o ∈ origins CLIENT_ORIGIN →
     cors_origin (origins CLIENT_ORIGIN) (Some o) = CorsAllowed)
  ∧ (o ∉ origins CLIENT_ORIGIN →
     cors_origin (origins CLIENT_ORIGIN) (Some o)
     = CorsBlocked ("Blocked by CORS: " +:+ o))
  ∧ (JSString.trim o ≠ o ∨ all_chars (fun c => negb (is_comma c)) o = false →
     cors_origin (origins CLIENT_ORIGIN) (Some o)
     = CorsBlocked ("Blocked by CORS: " +:+ o)).
Proof.
  intros Ho.
  assert (o ∉ origins CLIENT_ORIGIN →
          cors_origin (origins CLIENT_ORIGIN) (Some o)
          = CorsBlocked ("Blocked by CORS: " +:+ o)) as Hblocked.
  { intros Hout. unfold cors_origin.
    destruct (JSString.includes (origins CLIENT_ORIGIN) o) eqn:Hin.
    - by apply includes_spec in Hin.
    - by destruct o. }
  split; [done|]. split; [done|]. split; [|split; [done|]].
  - intros Hin%includes_spec. unfold cors_origin. rewrite Hin.
    by rewrite orb_true_r.
  - intros Hbad. apply Hblocked. intros Hin.
    destruct (origins_are_clean CLIENT_ORIGIN) as (Hclean & _).
    destruct (Hclean o Hin) as (_ & Htrim & Hcomma).
    destruct Hbad as [Hbad|Hbad]; congruence.
Qed.

Lemma cors_blocks_what_is_not_listed_witness :
  cors_origin (origins (Some "https://a.example, https://b.example"%string))
    (Some "https://b.example "%string)
  = CorsBlocked "Blocked by CORS: https://b.example ".
Proof.
  apply (cors_blocks_what_is_not_listed
           (Some "https://a.example, https://b.example"%string)
           "https://b.example "%string); [done|].
  left. by vm_compute.
Defined.

(** ** The provider client *)

Lemma own_property_lookup o name :
  name ∉ o.*1 → own_property o name = None.
Proof.
  induction o as [|[key value] o IH]; [done|]. cbn. intros Hout.
  apply not_elem_of_cons in Hout as [Hne Hout].
  destruct (String.eqb_spec key name) as [Heq|_]; [congruence|]. by apply IH.
Qed.

Lemma includes_false arr s : s ∉ arr → JSString.includes arr s = false.
Proof.
  intros Hout. destruct (JSString.includes arr s) eqn:Hin; [|done].
  by apply includes_spec in Hin.
Qed.

(** X12: the environment name is SOGNI_ENV, or "production" when that
    is not set or empty. The client is created for the test network unless
    the name is exactly "production". The endpoints are those listed for
    the name when it is "local", "staging" or "production"; every other name
    gets the production endpoints (so a misspelt name means the test
    network on the production endpoints), except the names an object
    inherits from [Object.prototype], for which both endpoints are
    undefined. The health route reports the name as it is, also when the
    endpoints in use are the production ones. *)
Theorem environment_of_the_client env Date_now name :
  env_or (SOGNI_ENV env) "production" = name →
  let options := instance_options env Date_now in
  health env = (true, name)
  ∧ (testnet options = false ↔ name = "production"%string)
  ∧ (∀ endpoints, (name, endpoints) ∈ hosts →
       restEndpoint options = Some (api endpoints)
       ∧ socketEndpoint options = Some (socket endpoints))
  ∧ (name ∈ Object_prototype →
     restEndpoint options = None ∧ socketEndpoint options = None)
  ∧ (name ∉ hosts.*1 → name ∉ Object_prototype →
     restEndpoint options = Some "https://api.sogni.ai"%string
     ∧ socketEndpoint options = Some "wss://socket.sogni.ai"%string
     ∧ testnet options = true).
Proof.
  intros Hname. cbv zeta. unfold instance_options.
  cbn [testnet restEndpoint socketEndpoint]. unfold health. rewrite Hname.
  clear Hname. split; [done|]. split; [|split; [|split]].
  - rewrite negb_false_iff. apply String.eqb_eq.
  - intros endpoints Hin. unfold hosts in Hin.
    repeat (apply elem_of_cons in Hin as [Hin|Hin];
            [injection Hin as -> ->; by vm_compute|]).
    by apply elem_of_nil in Hin.
  - intros Hin. unfold Object_prototype in Hin.
    repeat (apply elem_of_cons in Hin as [->|Hin]; [by vm_compute|]).
    by apply elem_of_nil in Hin.
  - intros Hown Hinherited. unfold endpoints_of.
    rewrite (own_property_lookup hosts name Hown).
    rewrite (includes_false _ _ Hinherited).
    split; [done|]. split; [done|].
    apply negb_true_iff, String.eqb_neq. intros ->. apply Hown.
    by apply (bool_decide_unpack _); vm_compute.
Qed.

Lemma environment_of_the_client_witness :
  let options :=
    instance_options {| SOGNI_ENV := Some "prod"%string; SOGNI_APP_ID := None;
                        SOGNI_USERNAME := None; SOGNI_PASSWORD := None |} 1700000000000 in
  restEndpoint options = Some "https://api.sogni.ai"%string
  ∧ socketEndpoint options = Some "wss://socket.sogni.ai"%string
  ∧ testnet options = true.
Proof.
  destruct (environment_of_the_client
              {| SOGNI_ENV := Some "prod"%string; SOGNI_APP_ID := None;
                 SOGNI_USERNAME := None; SOGNI_PASSWORD := None |}
              1700000000000 "prod" eq_refl) as (_ & _ & _ & _ & Hother).
  apply Hother.
  - by apply (bool_decide_unpack _); vm_compute.
  - by apply (bool_decide_unpack _); vm_compute.
Defined.

Lemma gateway_run_snoc env g inputs input :
  gateway_run env g (inputs ++ [input])
  = getSogniClient env (gateway_run env g inputs) input.
Proof. unfold gateway_run. by rewrite fold_left_app. Qed.

Lemma instantiated_mono inputs input client :
  instantiated inputs client → instantiated (inputs ++ [input]) client.
Proof. intros [i Hi]. exists i. apply elem_of_app. by left. Qed.

Lemma instantiated_last inputs i client :
  instantiated (inputs ++ [Instantiated i (Resolved client)]) client.
Proof. exists i. apply elem_of_app. right. by left. Qed.

Lemma clients_inv_mono inputs input g :
  clients_inv inputs g → clients_inv (inputs ++ [input]) g.
Proof.
  intros (H1 & H2 & H3). split; [|split]; intros; apply instantiated_mono; eauto.
Qed.

Lemma lookup_delete_flight (fs : list Flight) i j f :
  delete i fs !! j = Some f → ∃ k, fs !! k = Some f.
Proof.
  intros Hj. apply list_elem_of_lookup.
  eapply elem_of_delete, list_elem_of_lookup_2, Hj.
Qed.

Lemma lookup_insert_flight (fs : list Flight) i j f f' :
  <[i := f']> fs !! j = Some f → f = f' ∨ fs !! j = Some f.
Proof.
  destruct (decide (i = j)) as [->|Hne].
  - destruct (decide (j < length fs)%nat) as [Hlt|Hge].
    + rewrite list_lookup_insert_eq by done. intros [= <-]. by left.
    + rewrite list_insert_ge by lia. by right.
  - rewrite list_lookup_insert_ne by done. by right.
Qed.

(** A call that ends with a client keeps the invariant when that client
    was handed out. *)
Lemma clients_inv_return inputs g i call client :
  instantiated inputs client → clients_inv inputs g →
  clients_inv inputs (return_client i call client g).
Proof.
  intros Hc (H1 & H2 & H3). split; [|split]; cbn [sogniClient settled flights return_client].
  - by intros client' [= <-].
  - intros call' client' [Hin|Hin]%elem_of_app; [by eapply H2|].
    by apply list_elem_of_singleton in Hin as [= _ <-].
  - intros j call' client' Hj. apply lookup_delete_flight in Hj as [k Hk]. by eapply H3.
Qed.

Lemma clients_inv_reject inputs g i call message :
  clients_inv inputs g → clients_inv inputs (reject_call i call message g).
Proof.
  intros (H1 & H2 & H3). split; [|split]; cbn [sogniClient settled flights reject_call].
  - done.
  - intros call' client' [Hin|Hin]%elem_of_app; [by eapply H2|].
    by apply list_elem_of_singleton in Hin.
  - intros j call' client' Hj. apply lookup_delete_flight in Hj as [k Hk]. by eapply H3.
Qed.

Lemma clients_inv_step env inputs g input :
  clients_inv inputs g →
  clients_inv (inputs ++ [input]) (getSogniClient env g input).
Proof.
  intros Hinv. pose proof (clients_inv_mono inputs input g Hinv) as Hinv'.
  destruct Hinv' as (H1 & H2 & H3).
  destruct input as [|i result Date_now|i result|i result]; cbn [getSogniClient].
  - destruct (sogniClient g) as [client|] eqn:Hg.
    + split; [|split]; cbn [sogniClient settled flights]; [| |done].
      * intros client' [= <-]. by apply H1.
      * intros call client' [Hin|Hin]%elem_of_app; [by eapply H2|].
        apply list_elem_of_singleton in Hin as [= _ <-]. by apply H1.
    + split; [|split]; cbn [sogniClient settled flights]; [done..|].
      intros j call client' Hj.
      apply lookup_app_Some in Hj as [Hj|[_ Hj]]; [by eapply H3|].
      by destruct (j - length (flights g))%nat.
  - destruct (flights g !! i) as [[call [| |client]]|] eqn:Hi; try done.
    destruct result as [[]|message].
    + split; [|split]; cbn [sogniClient settled flights await]; [done..|].
      intros j call' client' Hj.
      apply lookup_insert_flight in Hj as [[=]|Hj]. by eapply H3.
    + by apply clients_inv_reject.
  - destruct (flights g !! i) as [[call [| |client]]|] eqn:Hi; try done.
    destruct result as [client|message]; [|by apply clients_inv_reject].
    destruct (credentials env) as [[username password]|].
    + split; [|split]; cbn [sogniClient settled flights await]; [done..|].
      intros j call' client' Hj.
      apply lookup_insert_flight in Hj as [[= _ ->]|Hj]; [|by eapply H3].
      apply instantiated_last.
    + apply clients_inv_return; [apply instantiated_last|done].
  - destruct (flights g !! i) as [[call [| |client]]|] eqn:Hi; try done.
    apply clients_inv_return; [|done]. by eapply H3.
Qed.

Lemma clients_inv_run env inputs :
  clients_inv inputs (gateway_run env gateway_init inputs).
Proof.
  induction inputs as [|input inputs IH] using rev_ind.
  - split; [|split]; cbn; [done|..].
    + intros call client Hin. by apply elem_of_nil in Hin.
    + intros i call client Hi. by rewrite lookup_nil in Hi.
  - rewrite gateway_run_snoc. by apply clients_inv_step.
Qed.

(** The cache, once filled, is never emptied. *)
Lemma cache_stays env g input :
  is_Some (sogniClient g) → is_Some (sogniClient (getSogniClient env g input)).
Proof.
  intros Hg. destruct input as [|i result Date_now|i result|i result]; cbn [getSogniClient].
  - destruct (sogniClient g); [done|by destruct Hg].
  - destruct (flights g !! i) as [[call [| |client]]|]; try done.
    by destruct result as [[]|message].
  - destruct (flights g !! i) as [[call [| |client]]|]; try done.
    destruct result as [client|message]; [|done].
    by destruct (credentials env) as [[username password]|].
  - by destruct (flights g !! i) as [[call [| |client]]|].
Qed.



(** * The web client *)

(** ** The requests it sends *)

Lemma first_variation character basePrompt seed :
  JS.truthy character = true →
  cp_positivePrompt
    (create_params (generateOnePieceVariations basePrompt character EmptyString) seed)
  = first_prompt character basePrompt.
Proof.
  intros Hc.
  change (variation_prompt basePrompt character EmptyString 0
          = first_prompt character basePrompt).
  rewrite variation_prompt_flat. unfold variation_flat, first_prompt, characters_of.
  rewrite Hc. cbn [length Nat.modulo]. reflexivity.
Qed.

(** The server's handler on a body the client sent. *)
Lemma post_generate_req_body body result st :
  JS.truthy (rb_prompt body) = true →
  post_generate (req_body body) result st
  = start_project
      (generateOnePieceVariations (rb_prompt body) (rb_character body) EmptyString)
      (rb_seed body) result st.
Proof. intros Hp. unfold post_generate, req_body. cbn. by rewrite Hp. Qed.

(** X14: a click on the Create button sends a request exactly when
    the button is on the page and enabled: no hero image is shown, the
    prompt has a character that is not white space, and the current
    session, if there is one, is not generating. The prompt is sent
    trimmed. The server never answers such a request with 400: it calls
    the provider. The provider is asked for the first variation, built
    from the selected character and the trimmed prompt alone, and gets no
    seed: the selected style does not reach it, and neither does the seed
    the client draws for the session. *)
Theorem create_button_request app :
  (is_Some (generation_request app)
   ↔ heroImage app = None
     ∧ all_chars JSString.is_white_space (prompt app) = false
     ∧ ∀ session, currentSession app = Some session →
                  session_generating session = false)
  ∧ ∀ body, generation_request app = Some body →
      rb_prompt body = JSString.trim (prompt app)
      ∧ prompt_missing (req_body body) = false
      ∧ (∀ result st response st',
           post_generate (req_body body) result st = Ok response st' →
           ∀ error, response ≠ Failed 400 error)
      ∧ (∀ project st,
           JS.truthy (selectedCharacter app) = true →
           ∃ params,
             post_generate (req_body body) (Created project) st
             = Ok (Accepted (project_id project)
                     (JS.mapi (fun j i => (job_id j, i)) (project_jobs project)))
                  (accepted_state params project st)
             ∧ cp_positivePrompt params
               = first_prompt (selectedCharacter app) (JSString.trim (prompt app))
             ∧ cp_seed params = None).
Proof.
  unfold generation_request, handleGenerate, create_button_rendered,
    create_button_disabled. split.
  - assert (JS.truthy (JSString.trim (prompt app)) = false
            ↔ all_chars JSString.is_white_space (prompt app) = true) as Hblank.
    { rewrite <- trim_empty. by destruct (JSString.trim (prompt app)). }
    destruct (heroImage app) as [image|].
    { cbn. split; [by intros [? ?]|by intros [? _]]. }
    destruct (JS.truthy (JSString.trim (prompt app))) eqn:Hp.
    + assert (all_chars JSString.is_white_space (prompt app) = false) as Hnot.
      { destruct (all_chars _ _) eqn:Hall; [|done].
        destruct Hblank as [_ Hb]. by specialize (Hb eq_refl). }
      destruct (currentSession app) as [session|]; cbn.
      * destruct (session_generating session) eqn:Hgen; cbn.
        -- split; [by intros [? ?]|]. intros (_ & _ & Hg).
           specialize (Hg session eq_refl). congruence.
        -- split; [|by eexists]. intros _. split; [done|]. split; [done|].
           by intros s' [= <-].
      * split; [|by eexists]. intros _. by split.
    + cbn. split; [by intros [? ?]|]. intros (_ & Hnot & _).
      destruct Hblank as [Hb _]. rewrite Hb in Hnot; done.
  - intros body. destruct (heroImage app) as [image|]; [done|]. cbn [andb].
    destruct (negb _); [|done].
    destruct (JS.truthy (JSString.trim (prompt app))) eqn:Hp; [|done].
    intros [= <-]. cbn [rb_prompt generation_body].
    split; [done|]. split; [|split].
    + unfold prompt_missing. cbn. by rewrite Hp.
    + intros result st response st'.
      rewrite post_generate_req_body by done.
      destruct result as [project|m|m]; cbn; intros [= <- _]; done.
    + intros project st Hc. eexists. rewrite post_generate_req_body by done.
      rewrite start_project_created. split; [reflexivity|].
      split; [by apply first_variation|done].
Qed.

Lemma create_button_request_witness :
  ∃ body, generation_request sample_app = Some body
          ∧ rb_prompt body = "Nami drawing a map"%string
          ∧ prompt_missing (req_body body) = false.
Proof.
  destruct (create_button_request sample_app) as [_ Hsent].
  eexists. split; [reflexivity|].
  destruct (Hsent _ eq_refl) as (Hprompt & Hmissing & _).
  split; [exact Hprompt|exact Hmissing].
Defined.

Lemma sessionSeed_range random :
  (0 <= random)%Q → (random < 1)%Q →
  0 ≤ Qfloor (random * 1000000) < 1000000.
Proof.
  intros H0 H1. split.
  - change 0 with (Qfloor 0). apply Qfloor_resp_le.
    apply Qmult_le_0_compat; [done|]. by vm_compute.
  - rewrite Zlt_Qlt. eapply Qle_lt_trans; [apply Qfloor_le|].
    change (inject_Z 1000000) with (1 * 1000000)%Q.
    apply Qmult_lt_compat_r; [by vm_compute|done].
Qed.



(** ** What the messages of the event stream do *)

Lemma dispatch_no_result app m : no_result m = true → dispatch app m = app.
Proof.
  unfold no_result, dispatch, onmessage, onmessage_hero. intros Hm.
  destruct (bool_decide _); [done|].
  destruct (msg_hero m).
  - destruct (heroSession app) as [prev|]; [|done].
    destruct (negb _); [done|]. by destruct (msg_data m).
  - destruct (currentSession app) as [prev|]; [|done].
    destruct (negb _); [done|]. by destruct (msg_data m).
Qed.

Lemma dispatch_closed app m : msg_es m ∈ closed app → dispatch app m = app.
Proof. intros Hm. unfold dispatch. by rewrite bool_decide_eq_true_2. Qed.

Lemma same_session_refl s : same_session s s.
Proof.
  destruct s as [s|]; [|done]. repeat split. exists []. by rewrite app_nil_r.
Qed.

Lemma same_session_trans a b c :
  same_session a b → same_session b c → same_session a c.
Proof.
  destruct a as [a|], b as [b|], c as [c|]; try done.
  intros (H1 & H2 & H3 & more & H4) (H1' & H2' & H3' & more' & H4').
  split; [congruence|]. split; [congruence|]. split; [congruence|].
  exists (more ++ more'). by rewrite H4', H4, app_assoc.
Qed.

Lemma dispatch_same_session app m :
  same_session (currentSession app) (currentSession (dispatch app m))
  ∧ same_session (heroSession app) (heroSession (dispatch app m)).
Proof.
  unfold dispatch, onmessage, onmessage_hero.
  destruct (bool_decide _); [split; apply same_session_refl|].
  destruct (msg_hero m).
  - destruct (heroSession app) as [prev|] eqn:Hh;
      [|split; [apply same_session_refl|by rewrite Hh]].
    destruct (negb _); [split; [apply same_session_refl|by rewrite Hh; apply same_session_refl]|].
    destruct (msg_data m) as [| j resultUrl p | |];
      try (split; [apply same_session_refl|by rewrite Hh; apply same_session_refl]).
    + destruct (JS.truthy resultUrl);
        [|split; [apply same_session_refl|by rewrite Hh; apply same_session_refl]].
      split; [apply same_session_refl|]. cbn. repeat split. by eexists.
    + split; [apply same_session_refl|]. cbn. repeat split.
      exists []. by rewrite app_nil_r.
  - destruct (currentSession app) as [prev|] eqn:Hc;
      [|split; [by rewrite Hc|apply same_session_refl]].
    destruct (negb _); [split; [by rewrite Hc; apply same_session_refl|apply same_session_refl]|].
    destruct (msg_data m) as [| j resultUrl p | |];
      try (split; [by rewrite Hc; apply same_session_refl|apply same_session_refl]).
    + destruct (JS.truthy resultUrl);
        [|split; [by rewrite Hc; apply same_session_refl|apply same_session_refl]].
      split; [|apply same_session_refl]. cbn. repeat split. by eexists.
    + split; [|apply same_session_refl]. cbn. repeat split.
      exists []. by rewrite app_nil_r.
Qed.

Lemma dispatch_history app m :
  (length (sessionHistory app) ≤ 10)%nat →
  (length (sessionHistory (dispatch app m)) ≤ 10)%nat.
Proof.
  intros Hlen. unfold dispatch, onmessage, onmessage_hero.
  destruct (bool_decide _); [done|].
  destruct (msg_hero m).
  - destruct (heroSession app) as [prev|]; [|done].
    destruct (negb _); [done|].
    destruct (msg_data m) as [| j resultUrl p | |]; try done.
    by destruct (JS.truthy resultUrl).
  - destruct (currentSession app) as [prev|]; [|done].
    destruct (negb _); [done|].
    destruct (msg_data m) as [| j resultUrl p | |]; try done.
    + by destruct (JS.truthy resultUrl).
    + cbn. rewrite length_take. lia.
Qed.

(** A message other than [completed] ends nothing. *)
Lemma dispatch_goes_on app m :
  msg_data m ≠ PCompleted →
  session_generating <$> currentSession (dispatch app m)
  = session_generating <$> currentSession app
  ∧ session_generating <$> heroSession (dispatch app m)
    = session_generating <$> heroSession app
  ∧ sessionHistory (dispatch app m) = sessionHistory app
  ∧ closed (dispatch app m) = closed app.
Proof.
  intros Hm. unfold dispatch, onmessage, onmessage_hero.
  destruct (bool_decide _); [done|].
  destruct (msg_hero m).
  - destruct (heroSession app) as [prev|] eqn:Hh; [|by rewrite Hh].
    destruct (negb _); [by rewrite Hh|].
    destruct (msg_data m) as [| j resultUrl p | |]; try done; try by rewrite Hh.
    destruct (JS.truthy resultUrl); by rewrite ?Hh.
  - destruct (currentSession app) as [prev|] eqn:Hc; [|by rewrite Hc].
    destruct (negb _); [by rewrite Hc|].
    destruct (msg_data m) as [| j resultUrl p | |]; try done; try by rewrite Hc.
    destruct (JS.truthy resultUrl); by rewrite ?Hc.
Qed.

(** X16: what the messages of the event streams do to the client,
    however many arrive and in whatever order. Progress reports and
    failures change nothing at all, so a session whose project failed
    still says it is generating. Without a [completed] message no session
    stops generating, no event source is closed and the history stays as
    it is. Each session keeps its id, its base prompt and its seed, and
    its images only grow at the end. The history never holds more than ten
    sessions. A message on a closed event source is ignored, and the
    [completed] message of the current session closes its event source
    and puts the session as it was before the message (still marked as
    generating if it was) at the head of the history. *)
Theorem messages_of_the_stream app messages :
  ((∀ m, m ∈ messages → no_result m = true) →
   fold_left dispatch messages app = app)
  ∧ ((∀ m, m ∈ messages → msg_data m ≠ PCompleted) →
     session_generating <$> currentSession (fold_left dispatch messages app)
     = session_generating <$> currentSession app
     ∧ session_generating <$> heroSession (fold_left dispatch messages app)
       = session_generating <$> heroSession app
     ∧ sessionHistory (fold_left dispatch messages app) = sessionHistory app
     ∧ closed (fold_left dispatch messages app) = closed app)
  ∧ same_session (currentSession app) (currentSession (fold_left dispatch messages app))
  ∧ same_session (heroSession app) (heroSession (fold_left dispatch messages app))
  ∧ ((length (sessionHistory app) ≤ 10)%nat →
     (length (sessionHistory (fold_left dispatch messages app)) ≤ 10)%nat)
  ∧ (∀ m, msg_es m ∈ closed app → dispatch app m = app)
  ∧ (∀ m prev,
       msg_es m ∉ closed app → msg_hero m = false → msg_data m = PCompleted →
       currentSession app = Some prev → session_id prev = msg_sessionId m →
       currentSession (dispatch app m) = Some (finished prev)
       ∧ sessionHistory (dispatch app m) = prev :: take 9 (sessionHistory app)
       ∧ msg_es m ∈ closed (dispatch app m)).
Proof.
  split; [|split; [|split; [|split; [|split; [|split]]]]].
  - revert app. induction messages as [|m messages IH]; intros app Hall; [done|].
    cbn [fold_left]. rewrite dispatch_no_result by (apply Hall; by left).
    apply IH. intros m' Hm'. apply Hall. by right.
  - revert app. induction messages as [|m messages IH]; intros app Hall; [done|].
    cbn [fold_left].
    destruct (dispatch_goes_on app m) as (H1 & H2 & H3 & H4); [apply Hall; by left|].
    rewrite <- H1, <- H2, <- H3, <- H4. apply IH.
    intros m' Hm'. apply Hall. by right.
  - revert app. induction messages as [|m messages IH]; intros app;
      [apply same_session_refl|].
    cbn [fold_left]. eapply same_session_trans; [|apply IH].
    apply dispatch_same_session.
  - revert app. induction messages as [|m messages IH]; intros app;
      [apply same_session_refl|].
    cbn [fold_left]. eapply same_session_trans; [|apply IH].
    apply dispatch_same_session.
  - revert app. induction messages as [|m messages IH]; intros app Hlen; [done|].
    cbn [fold_left]. by apply IH, dispatch_history.
  - intros m. apply dispatch_closed.
  - intros m prev Hopen Hhero Hdata Hcur Hid.
    unfold dispatch, onmessage. rewrite bool_decide_eq_false_2 by done.
    rewrite Hhero, Hcur, Hid, String.eqb_refl, Hdata. cbn.
    split; [done|]. split; [done|]. apply elem_of_app. right. by left.
Qed.

Lemma messages_of_the_stream_witness :
  fold_left dispatch
    [ {| msg_hero := false; msg_sessionId := session_name 1;
         msg_basePrompt := "Nami drawing a map"; msg_es := 4;
         msg_data := PProgress "J1" 40; msg_Date_now := 1700000000500 |};
      {| msg_hero := false; msg_sessionId := session_name 1;
         msg_basePrompt := "Nami drawing a map"; msg_es := 4;
         msg_data := PFailed "out of credits"; msg_Date_now := 1700000000900 |} ]
    sample_hero
  = sample_hero.
Proof.
  destruct (messages_of_the_stream sample_hero
              [ {| msg_hero := false; msg_sessionId := session_name 1;
                   msg_basePrompt := "Nami drawing a map"; msg_es := 4;
                   msg_data := PProgress "J1" 40; msg_Date_now := 1700000000500 |};
                {| msg_hero := false; msg_sessionId := session_name 1;
                   msg_basePrompt := "Nami drawing a map"; msg_es := 4;
                   msg_data := PFailed "out of credits";
                   msg_Date_now := 1700000000900 |} ])
    as (Hnothing & _).
  apply Hnothing. intros m Hm.
  repeat (apply elem_of_cons in Hm as [->|Hm]; [done|]).
  by apply elem_of_nil in Hm.
Defined.

(** ** The images and the hero view *)

Lemma image_name_inj : Inj (=) (=) image_name.
Proof.
  intros a b Hab. unfold image_name in Hab.
  apply (inj (String.append _)) in Hab. by apply (inj pretty).
Qed.

Lemma numbered_mono n n' images :
  (n ≤ n')%nat → numbered n images → numbered n' images.
Proof.
  intros Hle (ks & Hids & Hnd & Hks). exists ks. split; [done|]. split; [done|].
  intros k Hk. specialize (Hks k Hk). lia.
Qed.

Lemma numbered_snoc n images resultUrl positivePrompt basePrompt Date_now :
  numbered n images →
  numbered (S n) (images ++ [newImage (S n) resultUrl positivePrompt basePrompt Date_now]).
Proof.
  intros (ks & Hids & Hnd & Hks). exists (ks ++ [S n]).
  split; [by rewrite !map_app, Hids|]. split.
  - apply NoDup_app. split; [done|]. split; [|apply NoDup_singleton].
    intros k Hk ->%list_elem_of_singleton. specialize (Hks _ Hk). lia.
  - intros k [Hk| ->%list_elem_of_singleton]%elem_of_app; [|lia].
    specialize (Hks k Hk). lia.
Qed.

Lemma numbered_NoDup n images : numbered n images → NoDup (map image_id images).
Proof.
  intros (ks & -> & Hnd & _). apply (NoDup_fmap_2 _). exact Hnd.
Qed.

Lemma dispatch_numbered app m :
  (numbered (imageCounter app) (images_of (currentSession app))
   ∧ numbered (imageCounter app) (images_of (heroSession app))) →
  numbered (imageCounter (dispatch app m)) (images_of (currentSession (dispatch app m)))
  ∧ numbered (imageCounter (dispatch app m)) (images_of (heroSession (dispatch app m))).
Proof.
  intros [Hc Hh]. unfold dispatch, onmessage, onmessage_hero.
  destruct (bool_decide _); [done|].
  destruct (msg_hero m).
  - destruct (heroSession app) as [prev|] eqn:Hhero; [|by rewrite Hhero].
    destruct (negb _); [by rewrite Hhero|].
    destruct (msg_data m) as [| j resultUrl p | |]; try by rewrite Hhero.
    + destruct (JS.truthy resultUrl); [|by rewrite Hhero]. cbn. split.
      * eapply numbered_mono; [|exact Hc]. lia.
      * by apply numbered_snoc.
    + by cbn.
  - destruct (currentSession app) as [prev|] eqn:Hcur; [|by rewrite Hcur].
    destruct (negb _); [by rewrite Hcur|].
    destruct (msg_data m) as [| j resultUrl p | |]; try by rewrite Hcur.
    + destruct (JS.truthy resultUrl); [|by rewrite Hcur]. cbn. split.
      * by apply numbered_snoc.
      * eapply numbered_mono; [|exact Hh]. lia.
    + by cbn.
Qed.

Lemma findIndex_from_lookup images i k image :
  NoDup (map image_id images) → images !! k = Some image →
  findIndex_from (image_id image) images i = i + Z.of_nat k.
Proof.
  revert i k. induction images as [|x images IH]; intros i k Hnd Hk; [done|].
  cbn in Hnd. apply NoDup_cons in Hnd as [Hx Hnd]. destruct k as [|k].
  - injection Hk as ->. cbn. rewrite String.eqb_refl. lia.
  - cbn in Hk. cbn [findIndex_from].
    destruct (String.eqb_spec (image_id x) (image_id image)) as [Heq|_].
    + destruct Hx. rewrite Heq. apply list_elem_of_fmap. exists image.
      split; [done|]. by eapply list_elem_of_lookup_2.
    + rewrite (IH (i + 1) k Hnd Hk). lia.
Qed.

(** The sessions the two start functions create have no images yet. *)
Lemma new_sessions_numbered n sessionId basePrompt character style random seed :
  numbered n (images_of (Some (new_session sessionId basePrompt character style random)))
  ∧ numbered n
      (images_of (Some (new_hero_session sessionId basePrompt character style seed))).
Proof.
  split; (exists []; split; [done|]; split; [apply NoDup_nil_2|]);
    intros k Hk; by apply elem_of_nil in Hk.
Qed.

(** X17: the sessions [startGeneration] and [startHeroGeneration] create
    start without images. From there, or from any state whose images are
    numbered apart, the images of a session carry pairwise different ids
    however the messages of the two event streams interleave (both
    handlers draw from one counter), so a click on an image of the current
    session makes it the hero image, with the hero index pointing at that
    very image, and leaves the refinement view. *)
Theorem clicked_image_is_shown app messages image :
  (∀ sessionId basePrompt character style random seed,
     numbered (imageCounter app)
       (images_of (Some (new_session sessionId basePrompt character style random)))
     ∧ numbered (imageCounter app)
         (images_of (Some (new_hero_session sessionId basePrompt character style seed))))
  ∧ (numbered (imageCounter app) (images_of (currentSession app)) →
     numbered (imageCounter app) (images_of (heroSession app)) →
     image ∈ images_of (currentSession (fold_left dispatch messages app)) →
     NoDup (map image_id (images_of (currentSession (fold_left dispatch messages app))))
     ∧ NoDup (map image_id (images_of (heroSession (fold_left dispatch messages app))))
     ∧ heroImage (handleImageClick image (fold_left dispatch messages app)) = Some image
     ∧ image_at (images_of (currentSession (fold_left dispatch messages app)))
         (heroIndex (handleImageClick image (fold_left dispatch messages app)))
       = Some image
     ∧ heroSession (handleImageClick image (fold_left dispatch messages app)) = None).
Proof.
  split; [intros; apply new_sessions_numbered|].
  intros Hc Hh.
  assert (numbered (imageCounter (fold_left dispatch messages app))
            (images_of (currentSession (fold_left dispatch messages app)))
          ∧ numbered (imageCounter (fold_left dispatch messages app))
              (images_of (heroSession (fold_left dispatch messages app)))) as [Hc' Hh'].
  { revert app Hc Hh. induction messages as [|m messages IH]; intros app Hc Hh; [done|].
    cbn [fold_left]. destruct (dispatch_numbered app m (conj Hc Hh)). by apply IH. }
  generalize dependent (fold_left dispatch messages app). clear app Hc Hh.
  intros app Hc Hh Hin.
  apply numbered_NoDup in Hc, Hh. split; [done|]. split; [done|].
  unfold handleImageClick. destruct (currentSession app) as [session|];
    [|by apply elem_of_nil in Hin].
  cbn in *. split; [done|]. split; [|done].
  apply list_elem_of_lookup_1 in Hin as [k Hk].
  rewrite (findIndex_from_lookup _ 0 k image Hc Hk).
  unfold image_at. destruct (Z.ltb_spec (0 + Z.of_nat k) 0) as [?|_]; [lia|].
  by rewrite Z.add_0_l, Nat2Z.id.
Qed.

Lemma clicked_image_is_shown_witness :
  map image_id (images_of (currentSession (fold_left dispatch interleaved_messages two_new_sessions)))
  = [image_name 6; image_name 8]
  ∧ map image_id (images_of (heroSession (fold_left dispatch interleaved_messages two_new_sessions)))
    = [image_name 7]
  ∧ heroImage (handleImageClick third_image
                 (fold_left dispatch interleaved_messages two_new_sessions))
    = Some third_image
  ∧ heroIndex (handleImageClick third_image
                 (fold_left dispatch interleaved_messages two_new_sessions)) = 1
  ∧ image_at
      (images_of (currentSession (fold_left dispatch interleaved_messages two_new_sessions)))
      (heroIndex (handleImageClick third_image
                    (fold_left dispatch interleaved_messages two_new_sessions)))
    = Some third_image.
Proof.
  destruct (clicked_image_is_shown two_new_sessions interleaved_messages third_image)
    as [Hnew Hclick].
  destruct (Hnew (session_name 2) "Zoro fighting with three swords"%string
              "Roronoa Zoro"%string "Battle scene"%string (1 # 3) (Some 7))
    as [Hcurrent _].
  destruct (Hnew (session_name 3) "Nami, Nami drawing a map"%string
              "Roronoa Zoro"%string "Battle scene"%string 0%Q (Some (-1)))
    as [_ Hhero].
  destruct (Hclick Hcurrent Hhero) as (_ & _ & Himage & Hat & _).
  { vm_compute. right. left. }
  split; [reflexivity|]. split; [reflexivity|].
  split; [exact Himage|]. split; [reflexivity|exact Hat].
Defined.

Lemma navigateHero_active direction app session :
  activeSession app = Some session →
  navigateHero direction app
  = set_hero
      (image_at (session_images session)
         (newIndex direction (heroIndex app) (Z.of_nat (length (session_images session)))))
      (newIndex direction (heroIndex app) (Z.of_nat (length (session_images session))))
      app.
Proof. unfold activeSession, navigateHero. by intros ->. Qed.

Lemma newIndex_range direction i n :
  0 ≤ i < n →
  0 ≤ newIndex direction i n < n
  ∧ newIndex direction i n
    = (match direction with prev_image => i - 1 | next_image => i + 1 end) `mod` n.
Proof.
  intros Hi. destruct direction; cbn.
  - destruct (Z.ltb_spec 0 i).
    + rewrite Z.mod_small by lia. lia.
    + assert (i = 0) as -> by lia. split; [lia|].
      apply (Z.mod_unique_pos (0 - 1) n (-1) (n - 1)); lia.
  - destruct (Z.ltb_spec i (n - 1)).
    + rewrite Z.mod_small by lia. lia.
    + assert (i + 1 = n) as -> by lia. rewrite Z.mod_same by lia. lia.
Qed.

Lemma newIndex_back i n :
  0 ≤ i < n →
  newIndex next_image (newIndex prev_image i n) n = i
  ∧ newIndex prev_image (newIndex next_image i n) n = i.
Proof.
  intros Hi. cbn. split.
  - destruct (Z.ltb_spec 0 i).
    + destruct (Z.ltb_spec (i - 1) (n - 1)); lia.
    + destruct (Z.ltb_spec (n - 1) (n - 1)); lia.
  - destruct (Z.ltb_spec i (n - 1)).
    + destruct (Z.ltb_spec 0 (i + 1)); lia.
    + destruct (Z.ltb_spec 0 0); lia.
Qed.

(** X18: navigating the hero view with the hero index inside the
    active session's images moves it one image back or forth and wraps at
    both ends: the new index is the old one minus or plus one modulo the
    number of images, the hero image is the image at the new index, and
    going back and then forth (or forth and then back) returns to the
    index one started from. With no images in the active session the
    hero image becomes undefined, which closes the hero view. *)
Theorem hero_navigation_wraps direction app session :
  activeSession app = Some session →
  (0 ≤ heroIndex app < Z.of_nat (length (session_images session)) →
   0 ≤ heroIndex (navigateHero direction app) < Z.of_nat (length (session_images session))
   ∧ heroIndex (navigateHero direction app)
     = (match direction with
        | prev_image => heroIndex app - 1
        | next_image => heroIndex app + 1
        end) `mod` Z.of_nat (length (session_images session))
   ∧ is_Some (heroImage (navigateHero direction app))
   ∧ heroImage (navigateHero direction app)
     = session_images session !! Z.to_nat (heroIndex (navigateHero direction app))
   ∧ heroIndex (navigateHero next_image (navigateHero prev_image app)) = heroIndex app
   ∧ heroIndex (navigateHero prev_image (navigateHero next_image app)) = heroIndex app)
  ∧ (session_images session = [] → heroImage (navigateHero direction app) = None).
Proof.
  intros Hactive.
  assert (∀ d, activeSession (navigateHero d app) = Some session) as Hkeeps.
  { intros d. rewrite (navigateHero_active d app session Hactive).
    unfold activeSession in *. by cbn. }
  split.
  - intros Hi.
    destruct (newIndex_range direction _ _ Hi) as [Hrange Hmod].
    destruct (newIndex_back _ _ Hi) as [Hback Hforth].
    rewrite (navigateHero_active direction app session Hactive).
    cbn [heroIndex heroImage set_hero].
    split; [done|]. split; [done|].
    assert (image_at (session_images session)
              (newIndex direction (heroIndex app)
                 (Z.of_nat (length (session_images session))))
            = session_images session
                !! Z.to_nat (newIndex direction (heroIndex app)
                               (Z.of_nat (length (session_images session))))) as Hat.
    { unfold image_at. by destruct (Z.ltb_spec (newIndex direction (heroIndex app)
                                       (Z.of_nat (length (session_images session)))) 0);
                          [lia|]. }
    split; [|split; [done|]].
    + rewrite Hat. apply lookup_lt_is_Some. lia.
    + split.
      * rewrite (navigateHero_active next_image _ session (Hkeeps prev_image)).
        rewrite (navigateHero_active prev_image app session Hactive).
        by cbn [heroIndex set_hero].
      * rewrite (navigateHero_active prev_image _ session (Hkeeps next_image)).
        rewrite (navigateHero_active next_image app session Hactive).
        by cbn [heroIndex set_hero].
  - intros Hnone. rewrite (navigateHero_active direction app session Hactive).
    cbn [heroImage set_hero]. unfold image_at. rewrite Hnone.
    by destruct (_ <? 0).
Qed.

Lemma hero_navigation_wraps_witness :
  heroIndex (navigateHero prev_image sample_hero) = 0
  ∧ heroImage (navigateHero prev_image sample_hero) = Some sample_image.
Proof.
  destruct (hero_navigation_wraps prev_image sample_hero sample_session eq_refl)
    as [Hin _].
  destruct Hin as (_ & Hmod & _ & Hat & _); [by vm_compute|].
  split; [by rewrite Hmod|by rewrite Hat, Hmod].
Defined.

(** ** The base URL *)

Lemma strip_slashes_end s : ends_with_slash (strip_slashes s) = false.
Proof.
  induction s as [|c s IH]; [done|]. cbn [strip_slashes].
  destruct (strip_slashes s) as [|k kept].
  - unfold is_slash in *. by destruct (Ascii.eqb c "/") eqn:Hc; cbn; rewrite ?Hc.
  - exact IH.
Qed.

Lemma strip_slashes_idem s : strip_slashes (strip_slashes s) = strip_slashes s.
Proof.
  induction s as [|c s IH]; [done|]. cbn [strip_slashes].
  destruct (strip_slashes s) as [|k kept] eqn:Hk.
  - destruct (Ascii.eqb c "/") eqn:Hc; [done|]. cbn. by rewrite Hc.
  - change (strip_slashes (String c (String k kept)))
      with (match strip_slashes (String k kept) with
            | EmptyString => if Ascii.eqb c "/" then EmptyString else String c EmptyString
            | String a b => String c (String a b)
            end).
    by rewrite IH.
Qed.

Lemma strip_slashes_split s :
  ∃ slashes, s = strip_slashes s +:+ slashes ∧ all_chars is_slash slashes = true.
Proof.
  induction s as [|c s (slashes & Hs & Hall)]; [by exists EmptyString|].
  cbn [strip_slashes]. destruct (strip_slashes s) as [|k kept].
  - destruct (Ascii.eqb c "/") eqn:Hc.
    + exists (String c slashes). split; [by rewrite Hs|].
      unfold all_chars, is_slash in *. cbn. by rewrite Hc.
    + exists slashes. split; [|done]. by rewrite Hs at 1.
  - exists slashes. split; [|done]. by rewrite Hs at 1.
Qed.

(** X19: the base URL of the API is the configured URL without the
    slashes at its end, however many there are, and the empty string when
    none is configured: it never ends with a slash, stripping it again
    changes nothing, and what was cut off is slashes only. *)
Theorem api_base_has_no_trailing_slash VITE_API_BASE_URL :
  ends_with_slash (API_BASE VITE_API_BASE_URL) = false
  ∧ strip_slashes (API_BASE VITE_API_BASE_URL) = API_BASE VITE_API_BASE_URL
  ∧ (∀ url, VITE_API_BASE_URL = Some url →
       ∃ slashes, url = API_BASE VITE_API_BASE_URL +:+ slashes
                  ∧ all_chars is_slash slashes = true)
  ∧ (VITE_API_BASE_URL = None → generate_url VITE_API_BASE_URL = "/api/generate"%string).
Proof.
  unfold generate_url, API_BASE.
  destruct VITE_API_BASE_URL as [[|c url]|]; cbn [JS.truthy].
  - split; [done|]. split; [done|]. split; [|done].
    intros url [= <-]. by exists EmptyString.
  - split; [apply strip_slashes_end|]. split; [apply strip_slashes_idem|].
    split; [|done]. intros url' [= <-]. apply strip_slashes_split.
  - split; [done|]. split; [done|]. by split.
Qed.
